(** * dr-get-dicom: a shallow embedding of the discovery-and-retrieval pipeline

    The development follows [cmd/dr-get-dicom/main.go] and the extractor file
    of the same package.  Go strings are byte strings and are modelled by
    [string]; Go's [int] results are modelled by [Z]; the Go maps and the
    local file system are finite maps ([gmap]) keyed by strings.  The
    libraries the program calls ([strings], [path/filepath], [regexp], [os],
    [archive/tar], [compress/gzip], [go-cmd]) are modelled by their
    documented Unix behaviour, one definition per library function, under
    the name the program calls them by. *)

From Stdlib Require Import ZArith Ascii String.
From stdpp Require Import base gmap strings list fin_maps.

Local Open Scope Z_scope.

(** [MAX_DOWNLOAD_W] defines the number of concurrent downloading workers. *)
Definition MAX_DOWNLOAD_W : nat := 4.

(** ** Byte strings *)

Definition bytes_of (s : string) : list ascii := list_ascii_of_string s.
Definition string_of (l : list ascii) : string := string_of_list_ascii l.

Definition newline : string := String "010"%char "".

(** [len(s)] *)
Definition len (s : string) : Z := Z.of_nat (String.length s).

(** The slice expression [s[i:]]: it panics (here [None]) when [i] is out of
    the range [0 .. len(s)]. *)
Definition slice_from (s : string) (i : Z) : option string :=
  if (i <? 0) || (len s <? i) then None
  else Some (string_of (drop (Z.to_nat i) (bytes_of s))).

(** ** Package [strings] *)
Module strings.

(** [strings.HasPrefix(s, prefix)] *)
Fixpoint HasPrefix (s prefix : string) {struct prefix} : bool :=
  match prefix, s with
  | EmptyString, _ => true
  | String _ _, EmptyString => false
  | String a prefix', String b s' => Ascii.eqb a b && HasPrefix s' prefix'
  end.

(** [strings.Index(s, substr)]: the byte index of the first occurrence of
    [substr] in [s], or [-1]. *)
Fixpoint Index (s substr : string) {struct s} : Z :=
  if HasPrefix s substr then 0
  else match s with
       | EmptyString => -1
       | String _ s' => let i := Index s' substr in if i <? 0 then -1 else i + 1
       end.

(** [strings.Contains(s, substr)] *)
Definition Contains (s substr : string) : bool := 0 <=? Index s substr.

(** [strings.HasSuffix(s, suffix)] *)
Definition HasSuffix (s suffix : string) : bool :=
  HasPrefix (string_of (rev (bytes_of s))) (string_of (rev (bytes_of suffix))).

End strings.

(** ** Package [path/filepath] (Unix: the separator is '/', no volume names) *)
Module filepath.

Definition IsPathSeparator (c : ascii) : bool := Ascii.eqb c "/".

(** The elements of a path: the byte runs between separators. *)
Fixpoint elements (l : list ascii) : list (list ascii) :=
  match l with
  | [] => [[]]
  | c :: r =>
      if IsPathSeparator c then [] :: elements r
      else match elements r with
           | e :: es => (c :: e) :: es
           | [] => [[c]]
           end
  end.

Definition dot : list ascii := bytes_of ".".
Definition dotdot : list ascii := bytes_of "..".

(** One round of the loop of [Clean].  [out] holds the elements written so
    far, last one first.  An empty element and "." are dropped; ".." removes
    the last real element when there is one, is dropped at the root, and is
    kept in a leading run of ".." otherwise; any other element is appended. *)
Definition clean_elem (rooted : bool) (out : list (list ascii)) (e : list ascii)
  : list (list ascii) :=
  if decide (e = []) then out
  else if decide (e = dot) then out
  else if decide (e = dotdot) then
    match out with
    | top :: out' =>
        if decide (top = dotdot) then (if rooted then out else e :: out) else out'
    | [] => if rooted then out else [e]
    end
  else e :: out.

(** [strings.Join(elems, "/")] on byte lists *)
Fixpoint join_sep (es : list (list ascii)) : list ascii :=
  match es with
  | [] => []
  | [e] => e
  | e :: es' => e ++ "/"%char :: join_sep es'
  end.

Definition clean_bytes (p : list ascii) : list ascii :=
  match p with
  | [] => dot
  | c :: _ =>
      let rooted := IsPathSeparator c in
      let out := foldl (clean_elem rooted) [] (elements p) in
      let body := join_sep (rev out) in
      if rooted then "/"%char :: body
      else match body with [] => dot | _ => body end
  end.

(** [filepath.Clean(path)] *)
Definition Clean (path : string) : string := string_of (clean_bytes (bytes_of path)).

(** [filepath.Join(elem...)]: the elements from the first non-empty one on
    are joined with the separator and the result is cleaned; the empty
    string when every element is empty. *)
Fixpoint Join (elem : list string) : string :=
  match elem with
  | [] => ""
  | e :: rest =>
      if decide (e = "") then Join rest
      else string_of (clean_bytes (join_sep (bytes_of <$> elem)))
  end.

(** The loop shared by [Dir] and [Base]: step back from the end of the path
    over the bytes that are not separators.  The argument is the path
    reversed; the result is what is left, still reversed. *)
Fixpoint back_to_separator (rpath : list ascii) : list ascii :=
  match rpath with
  | [] => []
  | c :: r => if IsPathSeparator c then rpath else back_to_separator r
  end.

(** [filepath.Dir(path)]: all but the last element of the path, cleaned. *)
Definition Dir (path : string) : string :=
  string_of (clean_bytes (rev (back_to_separator (rev (bytes_of path))))).

(** Strip the trailing separators (argument reversed). *)
Fixpoint strip_separators (rpath : list ascii) : list ascii :=
  match rpath with
  | [] => []
  | c :: r => if IsPathSeparator c then strip_separators r else rpath
  end.

(** The bytes after the last separator (argument reversed, result reversed). *)
Fixpoint last_element (rpath : list ascii) : list ascii :=
  match rpath with
  | [] => []
  | c :: r => if IsPathSeparator c then [] else c :: last_element r
  end.

(** [filepath.Base(path)] *)
Definition Base (path : string) : string :=
  match path with
  | EmptyString => "."
  | _ =>
      match rev (last_element (strip_separators (rev (bytes_of path)))) with
      | [] => "/"
      | e => string_of e
      end
  end.

(** The loop of [Ext]: [rpath] is [path[0..i]] reversed and [tail] is
    [path[i+1:]]; it stops at a separator and returns [path[i:]] at a dot. *)
Fixpoint Ext_loop (rpath : list ascii) (tail : list ascii) : list ascii :=
  match rpath with
  | [] => []
  | c :: r =>
      if IsPathSeparator c then []
      else if Ascii.eqb c "." then c :: tail
      else Ext_loop r (c :: tail)
  end.

(** [filepath.Ext(path)] *)
Definition Ext (path : string) : string :=
  string_of (Ext_loop (rev (bytes_of path)) []).

End filepath.

(** ** Package [regexp]: the one pattern the program uses *)

Definition is_digit (c : ascii) : bool :=
  (48 <=? Z.of_nat (nat_of_ascii c)) && (Z.of_nat (nat_of_ascii c) <=? 57).

(** The pattern ["[0-9]{3}-.*"] matched at the start of [s]: three digits
    and a dash; [.*] also matches the empty string. *)
Definition series_at (s : string) : bool :=
  match s with
  | String a (String b (String c (String d _))) =>
      is_digit a && is_digit b && is_digit c && Ascii.eqb d "-"
  | _ => false
  end.

(** [regexp.MatchString("[0-9]{3}-.*", s)]: the pattern is not anchored, so
    it is searched for at every position of [s]. *)
Fixpoint MatchString_series (s : string) : bool :=
  series_at s ||
  match s with
  | EmptyString => false
  | String _ s' => MatchString_series s'
  end.

(** ** Errors and results *)

(** The [syscall] error numbers the modelled part of package [os] returns. *)
Inductive errno := ENOENT | EISDIR | ENOTDIR | EACCES.

Global Instance errno_eq_dec : EqDecision errno.
Proof. solve_decision. Defined.

(** Go [error] values, one constructor per place that creates them. *)
Inductive error :=
| ErrUnknownPath (path : string)      (* errors.New("unknown path: " + path) *)
| ErrCannotCreateDir (dir : string)   (* errors.New("cannot create dir: " + dir) *)
| ErrEmptyArchive (loc : string)      (* errors.New("empty archive: " + loc) *)
| ErrPath (op path : string) (e : errno)  (* *os.PathError *)
| ErrInvalid                          (* os.ErrInvalid: use of a nil *os.File *)
| ErrGzipHeader                       (* gzip.NewReader could not read a header *)
| ErrRead                             (* the archive stream broke in an entry *)
| ErrCmd (msg : string).              (* [st.Error] of an external command *)

Global Instance error_eq_dec : EqDecision error.
Proof. solve_decision. Defined.

(** What a Go function of type [(string, error)] does: it returns a pair
    (the error is [nil], here [None], or an error), or it panics. *)
Inductive result :=
| Return (s : string) (err : option error)
| Panic.

(** Calls of the logger, most recent first. *)
Inductive level := LDebug | LInfo | LWarn | LError.
Record log_entry := Log { lvl : level; msg : string; arg : option error }.

(** ** Package [os]: the local file system, keyed by path name *)
Module os.

Inductive node :=
| File (data : string) (perm : Z)   (* content; permission bits rwxrwxrwx *)
| Directory.

Abbreviation fs := (gmap string node).

Definition is_dir (m : fs) (p : string) : bool :=
  match m !! p with Some Directory => true | _ => false end.

(** [os.FileMode(m)] for [m : int64]: the conversion to [uint32]. *)
Definition FileMode (m : Z) : Z := Z.land m (Z.ones 32).

(** [os.Open(p)]: the bytes a reader of the open file gets ([None] for
    an open directory, which cannot be read). *)
Definition Open (p : string) (m : fs) : error + option string :=
  match m !! p with
  | Some (File d _) => inr (Some d)
  | Some Directory => inr None
  | None => inl (ErrPath "open" p ENOENT)
  end.

(** [FileMode.Perm()]: the nine permission bits, [m & ModePerm]. *)
Definition Perm (m : Z) : Z := Z.land m 511 (* 0777 *).

(** The file mode creation mask of the process.  The program never sets
    it: it is the mask it starts with, taken to be the usual 022. *)
Definition umask : Z := 18 (* 022 *).

(** The permission bits of a file created with [perm]: those of [perm]
    that the mask leaves. *)
Definition create_mode (perm : Z) : Z := Z.ldiff (Perm perm) umask.

(** Whether the process may open a file with these permission bits for
    reading and writing.  The program is taken to run as an ordinary user
    (not the superuser) who owns the files under the local root: it needs
    the read bit and the write bit of the owner. *)
Definition may_rdwr (mode : Z) : bool := Z.testbit mode 8 && Z.testbit mode 7.

(** [os.OpenFile(p, os.O_CREATE|os.O_RDWR, perm)]: an existing file is
    opened as it is (no truncation, its permission unchanged) when the
    process may read and write it; a missing one is created empty, with the
    permission bits of [perm] less those of the mask, when its directory
    exists. *)
Definition OpenFile (p : string) (perm : Z) (m : fs) : error + fs :=
  match m !! p with
  | Some (File _ mode) =>
      if may_rdwr mode then inr m else inl (ErrPath "open" p EACCES)
  | Some Directory => inl (ErrPath "open" p EISDIR)
  | None =>
      if is_dir m (filepath.Dir p)
      then inr (<[p := File "" (create_mode perm)]> m)
      else inl (ErrPath "open" p ENOENT)
  end.

(** Writing [d] through a file opened by [OpenFile], from offset 0: the
    bytes of the file beyond [d] stay. *)
Definition write (p : string) (d : string) (m : fs) : fs :=
  match m !! p with
  | Some (File old perm) =>
      <[p := File (d +:+ string_of (drop (String.length d) (bytes_of old))) perm]> m
  | _ => m
  end.

(** The paths that [MkdirAll] visits for a cleaned path (the program passes
    no other): every proper prefix that ends before a separator, except the
    empty one, then the path itself, shortest first. *)
Fixpoint ancestors (pre : list ascii) (l : list ascii) : list string :=
  match l with
  | [] => [string_of (rev pre)]
  | c :: r =>
      if filepath.IsPathSeparator c && negb (bool_decide (pre = []))
      then string_of (rev pre) :: ancestors (c :: pre) r
      else ancestors (c :: pre) r
  end.

(** One directory of [MkdirAll]: kept when it exists, created otherwise;
    a file of that name is an error. *)
Definition mkdir_step (p : string) (m : fs) : option error * fs :=
  match m !! p with
  | Some Directory => (None, m)
  | Some (File _ _) => (Some (ErrPath "mkdir" p ENOTDIR), m)
  | None => (None, <[p := Directory]> m)
  end.

(** [os.MkdirAll(path, perm)]: the directory and the missing parents are
    created, parents first; it stops at a parent that is a file. *)
Fixpoint MkdirAll_list (ps : list string) (m : fs) : option error * fs :=
  match ps with
  | [] => (None, m)
  | p :: ps' =>
      match mkdir_step p m with
      | (None, m') => MkdirAll_list ps' m'
      | r => r
      end
  end.

Definition MkdirAll (path : string) (m : fs) : option error * fs :=
  MkdirAll_list (ancestors [] (bytes_of path)) m.

(** [os.Remove(p)]: a file is unlinked, a directory removed when nothing is
    left below it; the program ignores the error. *)
Definition Remove (p : string) (m : fs) : fs :=
  match m !! p with
  | Some (File _ _) => delete p m
  | Some Directory =>
      if decide (filter (λ kv, strings.HasPrefix kv.1 (p +:+ "/") = true) m = ∅)
      then delete p m else m
  | None => m
  end.

End os.

(** ** Package [archive/tar] over [compress/gzip] *)
Module tar.

Definition TypeReg : ascii := "0"%char.
Definition TypeDir : ascii := "5"%char.

(** An entry as [tr.Next()] presents it: the header fields the program
    reads and the bytes a reader of the entry gets; [Broken] says that the
    stream fails after these bytes. *)
Record entry := Entry {
  Typeflag : ascii;
  Name : string;
  Mode : Z;
  Body : string;
  Broken : bool
}.

(** How the sequence of entries ends: [io.EOF], or another error of
    [tr.Next()] (a damaged archive). *)
Inductive ending := EOF | Damaged.

Definition stream : Type := list entry * ending.

End tar.

(** ** The state the retrieval functions act on *)

(** The exit status of an external command ([cmd.Status]): the exit code and
    the Go error, which is [nil] when the command ran and exited by itself. *)
Record Status := { Exit : Z; Error : option string }.

Record world := World {
  w_fs : os.fs;                    (* the local file system *)
  w_cmds : list (list string);     (* external commands started, last first *)
  w_log : list log_entry           (* logger calls, last first *)
}.

Definition set_fs (m : os.fs) (w : world) : world :=
  World m (w_cmds w) (w_log w).
Definition run (c : list string) (w : world) : world :=
  World (w_fs w) (c :: w_cmds w) (w_log w).
Definition log (l : level) (s : string) (e : option error) (w : world) : world :=
  World (w_fs w) (w_cmds w) (Log l s e :: w_log w).

(** [isImaFile] checks whether the given path has suffix ".IMA". *)
Definition isImaFile (path : string) : bool :=
  bool_decide (filepath.Ext path = ".IMA").

(** [isZipFile] checks whether the given path has suffix ".zip". *)
Definition isZipFile (path : string) : bool :=
  bool_decide (filepath.Ext path = ".zip").

(** [copyReaderToPath]: [reader] is the archive reader standing at an entry. *)
Definition copyReaderToPath (reader : tar.entry) (path : string) (mode : Z)
    (w : world) : option error * world :=
  match os.OpenFile path mode (w_fs w) with
  | inl err => (Some err, w)
  | inr m =>
      (* io.Copy(fo, reader) *)
      let w' := set_fs (os.write path (tar.Body reader) m) w in
      if tar.Broken reader then (Some ErrRead, w') else (None, w')
  end.

(** [makeDownloadCmd]: the error of [OpenFile] is dropped; writing through
    the nil file then fails. *)
Definition makeDownloadCmd (sourceDir destDir : string) (w : world)
  : option error * world :=
  let fname := filepath.Join [destDir; "cmd.sh"] in
  let cmd := "irsync -r i:" +:+ sourceDir +:+ " " +:+ destDir in
  match os.OpenFile fname 493 (* 0755 *) (w_fs w) with
  | inl _ => (Some ErrInvalid, w)
  | inr m => (None, set_fs (os.write fname cmd m) w)
  end.

(** ** The Retriever and the Archive Extractor *)
Section Retriever.

(** The command-line options [-t] and [-d]. *)
Variable opts_date : string.
Variable opts_ddir : string.

(** The external collaborators: the [iget] command, given the remote name
    and the local path, acts on the local file system and exits with a
    status; [gzip.NewReader] followed by [tar.NewReader] presents the bytes
    of a file as a stream of entries, or fails on the header. *)
Variable iget : string → string → os.fs → Status * os.fs.
Variable read_tgz : string → option tar.stream.

(** The [for] loop of [downloadDicom] over the entries of the archive. *)
Fixpoint downloadDicom_loop (path loc dir : string) (entries : list tar.entry)
    (e : tar.ending) (w : world) : result * world :=
  match entries with
  | [] =>
      match e with
      | tar.EOF => (Return "" (Some (ErrEmptyArchive loc)), w)
      | tar.Damaged => (Panic, w)     (* h is nil: h.Typeflag panics *)
      end
  | h :: rest =>
      if decide (tar.Typeflag h = tar.TypeDir) then
        downloadDicom_loop path loc dir rest e w
      else if decide (tar.Typeflag h = tar.TypeReg) then
        let fdicom := filepath.Join [dir; filepath.Base (tar.Name h)] in
        match copyReaderToPath h fdicom (os.FileMode (tar.Mode h)) w with
        | (Some err, w1) => (Return "" (Some err), w1)
        | (None, w1) =>
            let w2 := log LDebug ("DICOM file extracted: " +:+ fdicom) None w1 in
            let w3 :=
              match makeDownloadCmd (filepath.Dir path) dir w2 with
              | (Some err, w') => log LWarn "cannot write command: " (Some err) w'
              | (None, w') => w'
              end in
            (Return fdicom None, w3)
        end
      else downloadDicom_loop path loc dir rest e w
  end.

(** [downloadDicom] downloads a data object and extracts or saves one DICOM
    file. *)
Definition downloadDicom (path : string) (w : world) : result * world :=
  let i := strings.Index path opts_date in
  if i <? 0 then (Return "" (Some (ErrUnknownPath path)), w) else
  match slice_from path (i + 8) with
  | None => (Panic, w)
  | Some rest =>
  let loc := filepath.Join [opts_ddir; opts_date; rest] in
  let loc :=
    if isImaFile loc
    then filepath.Join [filepath.Dir (filepath.Dir loc); filepath.Base loc]
    else loc in
  let dir := filepath.Dir loc in
  match os.MkdirAll dir (w_fs w) with
  | (Some _, m) => (Return "" (Some (ErrCannotCreateDir dir)), set_fs m w)
  | (None, m) =>
  let w := log LDebug (path +:+ " -> " +:+ loc +:+ newline) None (set_fs m w) in
  let '(st, m) := iget path loc (w_fs w) in
  let w := set_fs m (run ["iget"; "-f"; path; loc] w) in
  if negb (Exit st =? 0) then (Return "" (ErrCmd <$> Error st), w) else
  if isZipFile loc then (Return loc None, w) else
  if isImaFile loc then
    let dir_src := filepath.Dir (filepath.Dir path) in
    let w :=
      match makeDownloadCmd dir_src dir w with
      | (Some err, w') => log LWarn "cannot write command: " (Some err) w'
      | (None, w') => w'
      end in
    (Return loc None, w)
  else
  match os.Open loc (w_fs w) with
  | inl err => (Return "" (Some err), w)
  | inr f =>
  match f ≫= read_tgz with
  | None => (Return "" (Some ErrGzipHeader), w)
  | Some (entries, e) =>
      let '(r, w) := downloadDicom_loop path loc dir entries e w in
      (* the deferred function: a.Close(); f.Close(); os.Remove(loc) *)
      (r, set_fs (os.Remove loc (w_fs w)) w)
  end end end end.

(** The [for] loop of [DicomExtractorTgz.Extract]. *)
Fixpoint Extract_loop (pathArchive dir : string) (entries : list tar.entry)
    (e : tar.ending) (w : world) : result * world :=
  match entries with
  | [] =>
      match e with
      | tar.EOF => (Return "" (Some (ErrEmptyArchive pathArchive)), w)
      | tar.Damaged => (Panic, w)     (* h is nil: h.Typeflag panics *)
      end
  | h :: rest =>
      if decide (tar.Typeflag h = tar.TypeDir) then
        Extract_loop pathArchive dir rest e w
      else if decide (tar.Typeflag h = tar.TypeReg) then
        let fdicom := filepath.Join [dir; filepath.Base (tar.Name h)] in
        match copyReaderToPath h fdicom (os.FileMode (tar.Mode h)) w with
        | (Some err, w1) => (Return "" (Some err), w1)
        | (None, w1) =>
            (Return fdicom None,
             log LDebug ("DICOM file extracted: " +:+ fdicom) None w1)
        end
      else Extract_loop pathArchive dir rest e w
  end.

(** [DicomExtractorTgz.Extract] extracts the first DICOM file from the
    archive and stores it in the directory of the archive. *)
Definition Extract (pathArchive : string) (w : world) : result * world :=
  match os.Open pathArchive (w_fs w) with
  | inl err => (Return "" (Some err), w)
  | inr f =>
  match f ≫= read_tgz with
  | None => (Return "" (Some ErrGzipHeader), w)
  | Some (entries, e) =>
      let dir := filepath.Dir pathArchive in
      let '(r, w) := Extract_loop pathArchive dir entries e w in
      (* the deferred function: a.Close(); f.Close(); os.Remove(pathArchive) *)
      (r, set_fs (os.Remove pathArchive (w_fs w)) w)
  end end.

(** The loop of a worker of the retrieval pool over the file names it
    receives from [chanFiles]; [out] is what it has sent to [chanDicoms],
    last first.  A panic ends the process: [None]. *)
Fixpoint retrieve_worker (files : list string) (out : list string) (w : world)
  : option (list string * world) :=
  match files with
  | [] => Some (out, w)                       (* channel closed: break *)
  | f :: files' =>
      match downloadDicom f w with
      | (Panic, _) => None
      | (Return fdicom (Some err), w') =>
          retrieve_worker files' out (log LError "" (Some err) w')
      | (Return fdicom None, w') =>
          retrieve_worker files' (fdicom :: out) w'
      end
  end.

End Retriever.

(** ** The Collection Deduplicator: the first goroutine of [getOneDicom] *)
Module Dedup.

(** What one round of the [select] loop can take. *)
Inductive event :=
| Stdout (line : string)   (* case line := <-iquestCmdC.Stdout *)
| Stderr (line : string)   (* case line := <-iquestCmdC.Stderr *)
| Exited (st : Status)     (* case st := <-s *)
| Default (empty : bool).  (* default; [empty]: both streams have length 0 *)

Record state := State {
  collMap : gmap string bool;   (* the Seen-Set *)
  m : Z;
  chanColls : list string;      (* the names sent on chanColls, last first *)
  closed : bool;                (* the loop has ended and chanColls is closed *)
  errors : list log_entry       (* log.Error calls, last first *)
}.

Definition init : state := State ∅ 0 [] false [].

(** [collMap[k]]: a missing key reads as [false]. *)
Definition seen (cm : gmap string bool) (k : string) : bool :=
  default false (cm !! k).

Definition step (s : state) (ev : event) : state :=
  if closed s then s else
  match ev with
  | Stdout line =>
      if MatchString_series line then
        if negb (seen (collMap s) (filepath.Dir line)) then
          State (<[filepath.Dir line := true]> (collMap s)) (m s)
                (line :: chanColls s) (closed s) (errors s)
        else s                                              (* continue *)
      else State (collMap s) (m s) (line :: chanColls s) (closed s) (errors s)
  | Stderr line =>
      State (collMap s) (m s) (chanColls s) (closed s)
            (Log LError line None :: errors s)
  | Exited st =>
      State (collMap s) 1 (chanColls s) (closed s)
            (if negb (Exit st =? 0) then Log LError "" (ErrCmd <$> Error st) :: errors s
             else errors s)
  | Default empty =>
      if (m s =? 1) && empty
      then State (collMap s) (m s) (chanColls s) true (errors s)  (* break Loop *)
      else s
  end.

Definition run (evs : list event) : state := foldl step init evs.

(** The names read from the standard output of the query. *)
Definition stdout_lines (evs : list event) : list string :=
  omap (λ ev, match ev with Stdout l => Some l | _ => None end) evs.

(** The names forwarded, in the order they were sent. *)
Definition forwarded (s : state) : list string := rev (chanColls s).

End Dedup.

(** ** The File Selector: the body of a worker of the first pool *)
Module Selector.

(** The loop over [s.Stdout], the rows of the listing of one collection;
    the result is what is sent on [chanFiles], in order. *)
Fixpoint select_files (rows : list string) : list string :=
  match rows with
  | [] => []
  | l :: rows' =>
      if strings.Contains l "CAT_NO_ROWS_FOUND" then select_files rows'
      else if isZipFile l then l :: select_files rows'
      else [l]                                              (* break *)
  end.

End Selector.

(** ** A worker pool with its closer goroutine *)
Module Pool.
Section pool.

Context {Item Res Store : Type}.

(** One round of a worker's loop for an item: the results it sends and the
    new shared state, or [None] when it panics. *)
Variable work : Item → Store → option (list Res * Store).

(** The number of workers ([MAX_DOWNLOAD_W]) and the capacities of the
    input and output channels. *)
Variable nworker : nat.
Variable cap_in cap_out : nat.

(** Where a worker stands in its code. *)
Inductive wstate :=
| Idle                      (* at the receive from the input channel *)
| Busy (pending : list Res)  (* in the loop body, these results still to send *)
| Leaving                   (* at [chanSync <- '0'], after the [break] *)
| Gone.                     (* the goroutine has ended *)

Record state := State {
  input : list Item;          (* buffer of the input channel, oldest first *)
  input_closed : bool;
  workers : list wstate;
  shared : Store;
  i : nat;                  (* the counter of [waitWorkers] *)
  sync_closed : bool;       (* [close( *chanSync)] has run *)
  output : list Res;         (* buffer of the output channel, oldest first *)
  output_closed : bool;
  crashed : bool;           (* a worker has panicked *)
  (* history, not part of the program *)
  fed : list Item;            (* every item sent on the input channel *)
  taken : list (Item * list Res);  (* every item received, with its results *)
  sent : list Res;           (* every result sent on the output channel *)
  tokens : list nat         (* the workers whose token was received *)
}.

Definition init (σ : Store) : state :=
  State [] false (replicate nworker Idle) σ 0 false [] false false [] [] [] [].

Inductive action :=
| Feed (x : Item)       (* the producer sends [x] on the input channel *)
| CloseInput          (* the producer closes the input channel *)
| Receive (k : nat)   (* worker [k] receives an item or sees the channel closed *)
| Send (k : nat)      (* worker [k] sends its next result on the output channel *)
| Signal (k : nat)    (* the token of worker [k] passes to [waitWorkers] *)
| CloseSync           (* [waitWorkers] leaves its loop and closes chanSync *)
| CloseOutput         (* the closer closes the output channel *)
| Drain.              (* the reader of the output channel receives a result *)

Definition set_worker (k : nat) (ws : wstate) (s : state) : list wstate :=
  <[k := ws]> (workers s).

(** One step of the system; [None] when the action is blocked. *)
Definition step (a : action) (s : state) : option state :=
  if crashed s then None else
  match a with
  | Feed x =>
      if negb (input_closed s) && bool_decide (length (input s) < cap_in)%nat
      then Some (State (input s ++ [x]) (input_closed s) (workers s) (shared s)
                   (i s) (sync_closed s) (output s) (output_closed s) false
                   (fed s ++ [x]) (taken s) (sent s) (tokens s))
      else None
  | CloseInput =>
      if input_closed s then None
      else Some (State (input s) true (workers s) (shared s)
                   (i s) (sync_closed s) (output s) (output_closed s) false
                   (fed s) (taken s) (sent s) (tokens s))
  | Receive k =>
      match workers s !! k, input s with
      | Some Idle, x :: rest =>
          match work x (shared s) with
          | Some (outs, σ) =>
              Some (State rest (input_closed s)
                      (set_worker k (match outs with [] => Idle | _ => Busy outs end) s)
                      σ (i s) (sync_closed s) (output s) (output_closed s) false
                      (fed s) (taken s ++ [(x, outs)]) (sent s) (tokens s))
          | None =>
              Some (State rest (input_closed s) (workers s) (shared s)
                      (i s) (sync_closed s) (output s) (output_closed s) true
                      (fed s) (taken s) (sent s) (tokens s))
          end
      | Some Idle, [] =>
          if input_closed s
          then Some (State [] true (set_worker k Leaving s) (shared s)
                       (i s) (sync_closed s) (output s) (output_closed s) false
                       (fed s) (taken s) (sent s) (tokens s))
          else None
      | _, _ => None
      end
  | Send k =>
      match workers s !! k with
      | Some (Busy (o :: rest)) =>
          if output_closed s
          then (* a send on a closed channel panics *)
               Some (State (input s) (input_closed s) (workers s) (shared s)
                       (i s) (sync_closed s) (output s) true true
                       (fed s) (taken s) (sent s) (tokens s))
          else if bool_decide (length (output s) < cap_out)%nat
          then Some (State (input s) (input_closed s)
                       (set_worker k (match rest with [] => Idle | _ => Busy rest end) s)
                       (shared s) (i s) (sync_closed s) (output s ++ [o])
                       false false
                       (fed s) (taken s) (sent s ++ [o]) (tokens s))
          else None
      | _ => None
      end
  | Signal k =>
      match workers s !! k with
      | Some Leaving =>
          if bool_decide (i s < nworker)%nat && negb (sync_closed s)
          then Some (State (input s) (input_closed s) (set_worker k Gone s)
                       (shared s) (S (i s)) (sync_closed s) (output s)
                       (output_closed s) false
                       (fed s) (taken s) (sent s) (tokens s ++ [k]))
          else None
      | _ => None
      end
  | CloseSync =>
      if bool_decide (i s < nworker)%nat || sync_closed s then None
      else Some (State (input s) (input_closed s) (workers s) (shared s)
                   (i s) true (output s) (output_closed s) false
                   (fed s) (taken s) (sent s) (tokens s))
  | CloseOutput =>
      if sync_closed s && negb (output_closed s)
      then Some (State (input s) (input_closed s) (workers s) (shared s)
                   (i s) true (output s) true false
                   (fed s) (taken s) (sent s) (tokens s))
      else None
  | Drain =>
      match output s with
      | _ :: rest =>
          Some (State (input s) (input_closed s) (workers s) (shared s)
                  (i s) (sync_closed s) rest (output_closed s) false
                  (fed s) (taken s) (sent s) (tokens s))
      | [] => None
      end
  end.

(** A schedule is a list of actions; a run follows it step by step. *)
Fixpoint run (sched : list action) (s : state) : option state :=
  match sched with
  | [] => Some s
  | a :: sched' =>
      match step a s with
      | Some s' => run sched' s'
      | None => None
      end
  end.

(** The results a worker still has to send. *)
Definition pending (ws : wstate) : list Res :=
  match ws with Busy p => p | _ => [] end.

Definition pending_all (wss : list wstate) : list Res :=
  concat (pending <$> wss).

(** What holds in every state a run reaches. *)
Record inv (s : state) : Prop := Inv {
  inv_workers : length (workers s) = nworker;
  inv_tokens : ∀ k, k ∈ tokens s ↔ workers s !! k = Some Gone;
  inv_once : NoDup (tokens s);
  inv_count : i s = length (tokens s);
  inv_sync : sync_closed s = true → i s = nworker;
  inv_output : output_closed s = true → sync_closed s = true;
  inv_drained : ∀ k, workers s !! k = Some Leaving ∨ workers s !! k = Some Gone →
                     input_closed s = true ∧ input s = [];
  inv_fed : crashed s = false → fed s = (fst <$> taken s) ++ input s;
  inv_sent : sent s ++ pending_all (workers s) ≡ₚ concat (snd <$> taken s);
  inv_crashed : crashed s = true → ∃ k ws, workers s !! k = Some ws ∧ ws ≠ Gone
}.

End pool.
End Pool.

(** One round of the loop of a retrieval worker, as the [work] of the
    second pool: the error of [downloadDicom] is logged and nothing is sent;
    otherwise the path is sent on chanDicoms. *)
Definition retrieve_item (opts_date opts_ddir : string)
    (iget : string → string → os.fs → Status * os.fs)
    (read_tgz : string → option tar.stream) (f : string) (w : world)
  : option (list string * world) :=
  match downloadDicom opts_date opts_ddir iget read_tgz f w with
  | (Panic, _) => None
  | (Return _ (Some err), w') => Some ([], log LError "" (Some err) w')
  | (Return fdicom None, w') => Some ([fdicom], w')
  end.

(** ** Definitions used to state the properties *)

(** The longest prefix of [l] whose elements satisfy [f], and the rest. *)
Fixpoint take_while {A} (f : A → bool) (l : list A) : list A :=
  match l with
  | [] => []
  | x :: l' => if f x then x :: take_while f l' else []
  end.

Fixpoint drop_while {A} (f : A → bool) (l : list A) : list A :=
  match l with
  | [] => []
  | x :: l' => if f x then drop_while f l' else l
  end.

(** A row of a listing that carries the no-rows-found marker. *)
Definition sentinel (l : string) : bool := strings.Contains l "CAT_NO_ROWS_FOUND".

(** A path element: no separator in it. *)
Definition no_separator (b : string) : bool :=
  forallb (λ c, negb (filepath.IsPathSeparator c)) (bytes_of b).

(** The Session Key in the words of the specification: the
    parent-of-parent directory of a name. *)
Definition spec_session_key (name : string) : string :=
  filepath.Dir (filepath.Dir name).

(** The claim on the Session Key as the specification states it: the key
    that enters the Seen-Set for a series name is its parent-of-parent
    directory. *)
Definition session_key_as_stated : Prop :=
  ∀ line, MatchString_series line = true →
    Dedup.collMap (Dedup.step Dedup.init (Dedup.Stdout line)) =
    {[ spec_session_key line := true ]}.

(** The claim on the Deduplicator as the specification states it, with
    the Session Key of the specification: of the series names with a given
    parent-of-parent directory at most one is forwarded. *)
Definition dedup_at_most_once_as_stated : Prop :=
  ∀ (evs : list Dedup.event) (key : string),
    (length (filter (λ n, MatchString_series n = true ∧ spec_session_key n = key)
               (Dedup.forwarded (Dedup.run evs))) ≤ 1)%nat.

(** The claim on the path mapping as the specification states it, for
    every date string: what follows the first occurrence of the date in
    the remote name is mapped under the local root and the date (an ".IMA"
    path moved up one directory), and the result is the local path handed
    to [iget], or its directory the one named in the error. *)
Definition path_mapping_as_stated : Prop :=
  ∀ (opts_date opts_ddir : string)
    (iget : string → string → os.fs → Status * os.fs)
    (read_tgz : string → option tar.stream) (path : string) (w : world),
    strings.Contains path opts_date = true →
    ∃ pre rest,
      path = pre +:+ opts_date +:+ rest ∧
      strings.Index path opts_date = len pre ∧
      let l := filepath.Join [opts_ddir; opts_date; rest] in
      let loc :=
        if isImaFile l
        then filepath.Join [filepath.Dir (filepath.Dir l); filepath.Base l]
        else l in
      match os.MkdirAll (filepath.Dir loc) (w_fs w) with
      | (None, _) =>
          w_cmds (snd (downloadDicom opts_date opts_ddir iget read_tgz path w)) =
          ["iget"; "-f"; path; loc] :: w_cmds w
      | (Some _, _) =>
          fst (downloadDicom opts_date opts_ddir iget read_tgz path w) =
          Return "" (Some (ErrCannotCreateDir (filepath.Dir loc)))
      end.

(** [downloadDicom] has resolved the remote name [path] to the local path
    [loc] of an archive (neither ".zip" nor ".IMA"), made its directory and
    fetched the object; [m] is the file system when the archive is opened. *)
Definition fetched (opts_date opts_ddir : string)
    (iget : string → string → os.fs → Status * os.fs)
    (path loc : string) (w : world) (m : os.fs) : Prop :=
  ∃ rest m1 st,
    0 ≤ strings.Index path opts_date
    ∧ slice_from path (strings.Index path opts_date + 8) = Some rest
    ∧ loc = filepath.Join [opts_ddir; opts_date; rest]
    ∧ isImaFile loc = false ∧ isZipFile loc = false
    ∧ os.MkdirAll (filepath.Dir loc) (w_fs w) = (None, m1)
    ∧ iget path loc m1 = (st, m) ∧ Exit st = 0.

(** The world in which [downloadDicom] then opens the archive. *)
Definition fetched_world (path loc : string) (w : world) (m : os.fs) : world :=
  World m (["iget"; "-f"; path; loc] :: w_cmds w)
    (Log LDebug (path +:+ " -> " +:+ loc +:+ newline) None :: w_log w).

(** The companion file of a directory. *)
Definition cmd_sh (dir : string) : string := filepath.Join [dir; "cmd.sh"].

(** What holds after every run of the loop: the keys of the forwarded
    series names are in the Seen-Set and pairwise different. *)
Definition dedup_inv (s : Dedup.state) : Prop :=
  (∀ n, n ∈ Dedup.chanColls s → MatchString_series n = true →
        Dedup.seen (Dedup.collMap s) (filepath.Dir n) = true)
  ∧ NoDup (filepath.Dir <$>
           filter (λ n, MatchString_series n = true) (Dedup.chanColls s)).

(** A regular file exists at the path. *)
Definition is_file (m : os.fs) (p : string) : Prop :=
  ∃ d perm, m !! p = Some (os.File d perm).

(** Sample data for the examples: a reader of archives given by a table
    from file contents to streams, and archives with the entries
    [dir, A, B], with only directories, and with a damaged end. *)
Definition read_table (t : gmap string tar.stream) (data : string)
  : option tar.stream := t !! data.

Definition sample_dir : tar.entry := tar.Entry tar.TypeDir "001-localizer/" 493 "" false.
Definition sample_A (name : string) : tar.entry :=
  tar.Entry tar.TypeReg name 420 "DICM-first-slice" false.
Definition sample_B : tar.entry :=
  tar.Entry tar.TypeReg "001-localizer/00002.IMA" 420 "DICM-second-slice" false.

Definition sample_archives : gmap string tar.stream :=
  {[ "tgz-three" := ([sample_dir; sample_A "001-localizer/00001.IMA"; sample_B], tar.EOF);
     "tgz-self" := ([sample_dir; sample_A "001-localizer/a.tar.gz"; sample_B], tar.EOF);
     "tgz-dirs" := ([sample_dir; sample_dir], tar.EOF);
     "tgz-damaged" := ([sample_dir], tar.Damaged) ]}.

Definition sample_read_tgz : string → option tar.stream := read_table sample_archives.

Definition sample_world (data : string) : world :=
  World {[ "/d" := os.Directory; "/d/a.tar.gz" := os.File data 420 ]} [] [].

(** A sample [iget]: every remote object has the given content. *)
Definition sample_iget (data : string) (path loc : string) (m : os.fs)
  : Status * os.fs :=
  ({| Exit := 0; Error := None |}, <[loc := os.File data 420]> m).

Definition sample_remote : string :=
  "/rdm/di/dccn/DAC_3055010.01_490/raw/sub-01/20240101/001-localizer/a.tar.gz".
Definition sample_loc : string := "/data/20240101/001-localizer/a.tar.gz".

(** Sample runs for the examples: names read by the Deduplicator, and a
    schedule of the retrieval pool that takes one remote name to the end. *)
Definition sample_events : list Dedup.event :=
  [Dedup.Stdout "/raw/sub-01/ses-mri01/001-localizer";
   Dedup.Stdout "/raw/sub-01/ses-mri01";
   Dedup.Stdout "/raw/sub-01/ses-mri01/002-t1";
   Dedup.Stderr "warning";
   Dedup.Stdout "/raw/sub-02/ses-mri01/001-localizer"].

Definition sample_schedule : list (@Pool.action string) :=
  [Pool.Feed sample_remote; Pool.CloseInput;
   Pool.Receive 0; Pool.Send 0; Pool.Receive 0;
   Pool.Receive 1; Pool.Receive 2; Pool.Receive 3;
   Pool.Signal 2; Pool.Signal 0; Pool.Signal 3; Pool.Signal 1;
   Pool.CloseSync; Pool.CloseOutput; Pool.Drain].

(** ** The extractors of the package *)

(** The implementations of the interface [Extractor]. *)
Inductive extractor :=
| DicomExtractorTgz
| DicomExtractorZip
| DicomExtractorIgnore.

(** [GetDicomExtractor] returns the extractor for the path; the selection
    is made on the suffix of the path. *)
Definition GetDicomExtractor (path : string) : extractor :=
  if strings.HasSuffix path ".tar.gz" then DicomExtractorTgz
  else if strings.HasSuffix path ".zip" then DicomExtractorZip
  else DicomExtractorIgnore.

(** The method [Extract] of the interface. *)
Definition Extractor_Extract (read_tgz : string → option tar.stream)
    (x : extractor) (pathArchive : string) (w : world) : result * world :=
  match x with
  | DicomExtractorTgz => Extract read_tgz pathArchive w
  | DicomExtractorZip => (Return pathArchive None, w)
  | DicomExtractorIgnore => (Return pathArchive None, w)
  end.

(** ** More definitions used to state properties *)

(** Of the series names keep the first of each key (those whose key is in
    [keys] are dropped); keep every other name. *)
Fixpoint keep_first (keys : list string) (lines : list string) : list string :=
  match lines with
  | [] => []
  | l :: rest =>
      if MatchString_series l then
        if bool_decide (filepath.Dir l ∈ keys) then keep_first keys rest
        else l :: keep_first (filepath.Dir l :: keys) rest
      else l :: keep_first keys rest
  end.

(** The key set of the names sent on chanColls. *)
Definition forwarded_keys (s : Dedup.state) : list string :=
  filepath.Dir <$> filter (λ n, MatchString_series n = true) (Dedup.chanColls s).

(** The local path that [downloadDicom] computes from what follows the
    date in the remote name. *)
Definition local_path (opts_date opts_ddir rest : string) : string :=
  let l := filepath.Join [opts_ddir; opts_date; rest] in
  if isImaFile l
  then filepath.Join [filepath.Dir (filepath.Dir l); filepath.Base l]
  else l.

(** [downloadDicom] resolves the remote name [path] to the local path
    [loc]; [m] is the result of making the directory of [loc]. *)
Definition resolved (opts_date opts_ddir : string) (path loc : string)
    (w : world) (m : option error * os.fs) : Prop :=
  ∃ rest,
    0 ≤ strings.Index path opts_date
    ∧ slice_from path (strings.Index path opts_date + 8) = Some rest
    ∧ loc = local_path opts_date opts_ddir rest
    ∧ os.MkdirAll (filepath.Dir loc) (w_fs w) = m.

(** An absolute path given by its elements. *)
Definition abs_path (es : list string) : string :=
  string_of ("/"%char :: filepath.join_sep (bytes_of <$> es)).

(** An element that [Clean] keeps as it is: not empty, no separator in it,
    neither "." nor "..". *)
Definition real_elem (e : string) : bool :=
  negb (bool_decide (e = "")) && negb (bool_decide (e = "."))
  && negb (bool_decide (e = "..")) && no_separator e.

(** The same on bytes: no separator, and an element that [Clean] keeps. *)
Definition nosep (e : list ascii) : Prop :=
  forallb (λ c, negb (filepath.IsPathSeparator c)) e = true.

Definition realb (e : list ascii) : Prop :=
  e ≠ [] ∧ e ≠ filepath.dot ∧ e ≠ filepath.dotdot ∧ nosep e.

(** A state from which the pool can be driven to its end: the invariant
    holds, no worker has panicked, the input channel is closed, and no
    worker stands in its loop body with nothing to send. *)
Definition pool_ready {Item Res Store : Type} (nworker : nat)
    (s : @Pool.state Item Res Store) : Prop :=
  Pool.inv nworker s
  ∧ Pool.crashed s = false
  ∧ Pool.input_closed s = true
  ∧ ∀ k, Pool.workers s !! k ≠ Some (Pool.Busy []).

(** ** More sample data for the examples *)

(** A run of the Deduplicator to its end: the query exits with status 0
    and a later round finds both streams empty. *)
Definition sample_events_closed : list Dedup.event :=
  sample_events
  ++ [Dedup.Default true; Dedup.Exited {| Exit := 0; Error := None |};
      Dedup.Default false; Dedup.Default true].

(** A reader that knows one archive only, with the entries [dir, A, B]. *)
Definition sample_read_sound : string → option tar.stream :=
  read_table
    {[ "tgz-three" := ([sample_dir; sample_A "001-localizer/00001.IMA"; sample_B], tar.EOF) ]}.

(** The work of the retrieval pool in the examples. *)
Definition sample_work : string → world → option (list string * world) :=
  retrieve_item "20240101" "/data" (sample_iget "tgz-three") sample_read_sound.

(** A schedule that stops in the middle: two names are fed, a worker has
    taken the first and holds its result. *)
Definition sample_schedule_part : list (@Pool.action string) :=
  [Pool.Feed sample_remote; Pool.Feed sample_remote; Pool.Receive 2].

(** An [iget] that fails: it exits with status 1, by itself. *)
Definition sample_iget_fail (path loc : string) (m : os.fs) : Status * os.fs :=
  ({| Exit := 1; Error := None |}, m).

(** A file system in which the local root is a regular file. *)
Definition sample_fs_blocked : os.fs := {[ "/data" := os.File "" 420 ]}.

(** Remote names of a zip file and of a single ".IMA" file, and their
    local paths. *)
Definition sample_remote_zip : string :=
  "/rdm/di/dccn/DAC_3055010.01_490/raw/sub-01/20240101/all.zip".
Definition sample_loc_zip : string := "/data/20240101/all.zip".
Definition sample_remote_ima : string :=
  "/rdm/di/dccn/DAC_3055010.01_490/raw/sub-01/20240101/001-localizer/00001.IMA".
Definition sample_loc_ima : string := "/data/20240101/00001.IMA".

(** More archives: a link before the first regular file (which has the
    mode 0777) and a damaged end after it, and a first regular file whose
    bytes break off. *)
Definition sample_link : tar.entry :=
  tar.Entry "2"%char "001-localizer/latest" 511 "" false.
Definition sample_A_open : tar.entry :=
  tar.Entry tar.TypeReg "001-localizer/00001.IMA" 511 (* 0777 *) "DICM-first-slice" false.
Definition sample_A_broken : tar.entry :=
  tar.Entry tar.TypeReg "001-localizer/00001.IMA" 420 "DICM-fir" true.

Definition sample_archives_more : gmap string tar.stream :=
  {[ "tgz-link" :=
       ([sample_dir; sample_link; sample_A_open; sample_B], tar.Damaged);
     "tgz-broken" := ([sample_dir; sample_A_broken; sample_B], tar.EOF) ]}.

Definition sample_read_more : string → option tar.stream :=
  read_table sample_archives_more.

(** A directory in which a longer file stands at the output path, with
    the mode 0600, and one in which that file is read-only (0400). *)
Definition sample_world_stale (data : string) : world :=
  World {[ "/d" := os.Directory;
           "/d/a.tar.gz" := os.File data 420;
           "/d/00001.IMA" := os.File "OLD-CONTENT-THAT-IS-LONGER" 384 ]} [] [].

Definition sample_world_locked (data : string) : world :=
  World {[ "/d" := os.Directory;
           "/d/a.tar.gz" := os.File data 420;
           "/d/00001.IMA" := os.File "OLD-CONTENT-THAT-IS-LONGER" 256 ]} [] [].

(** * Properties *)

(** ** Byte strings *)

Lemma string_of_bytes_of s : string_of (bytes_of s) = s.
Proof. apply string_of_list_ascii_of_string. Qed.

Lemma bytes_of_string_of l : bytes_of (string_of l) = l.
Proof. apply list_ascii_of_string_of_list_ascii. Qed.

Lemma bytes_of_app s t : bytes_of (s +:+ t) = bytes_of s ++ bytes_of t.
Proof. induction s as [|c s IH]; [done |]. simpl. by rewrite <- IH. Qed.

Lemma string_of_app l k : string_of (l ++ k) = string_of l +:+ string_of k.
Proof. induction l as [|c l IH]; [done |]. simpl. by rewrite IH. Qed.

Lemma length_bytes_of s : length (bytes_of s) = String.length s.
Proof. induction s as [|c s IH]; simpl; [done | by rewrite IH]. Qed.

Lemma bytes_of_inj s t : bytes_of s = bytes_of t → s = t.
Proof.
  intros H. rewrite <- (string_of_bytes_of s), <- (string_of_bytes_of t).
  by rewrite H.
Qed.

Lemma string_app_cons c (s t : string) : String c s +:+ t = String c (s +:+ t).
Proof. reflexivity. Qed.

Lemma string_app_nil_l (t : string) : "" +:+ t = t.
Proof. reflexivity. Qed.

Lemma string_app_assoc (s t u : string) : (s +:+ t) +:+ u = s +:+ t +:+ u.
Proof.
  induction s as [|c s IH]; [done |].
  by rewrite !string_app_cons, IH.
Qed.

Lemma string_app_nil_r (s : string) : s +:+ "" = s.
Proof. induction s as [|c s IH]; [done | by rewrite string_app_cons, IH]. Qed.

Lemma string_app_length (s t : string) :
  String.length (s +:+ t) = (String.length s + String.length t)%nat.
Proof.
  induction s as [|c s IH]; [done |].
  rewrite string_app_cons. simpl. by rewrite IH.
Qed.

(** ** Package [strings] *)

Lemma HasPrefix_app p r : strings.HasPrefix (p +:+ r) p = true.
Proof.
  induction p as [|c p IH]; [done |].
  rewrite string_app_cons. simpl. by rewrite Ascii.eqb_refl, IH.
Qed.

Lemma HasPrefix_inv s p : strings.HasPrefix s p = true → ∃ r, s = p +:+ r.
Proof.
  revert s. induction p as [|c p IH]; intros s H.
  - by exists s.
  - destruct s as [|b s]; simpl in H; [done |].
    apply andb_prop in H as [Hc Hp]. apply Ascii.eqb_eq in Hc as ->.
    destruct (IH _ Hp) as [r ->]. by exists r.
Qed.

Lemma Index_lower s sub : -1 ≤ strings.Index s sub.
Proof.
  induction s as [|c s IH]; simpl.
  - destruct (strings.HasPrefix "" sub); lia.
  - destruct (strings.HasPrefix (String c s) sub); [lia |].
    destruct (Z.ltb_spec (strings.Index s sub) 0); lia.
Qed.

(** A found index is the place of an occurrence. *)
Lemma Index_found s sub :
  0 ≤ strings.Index s sub →
  ∃ pre rest, s = pre +:+ sub +:+ rest ∧ strings.Index s sub = len pre.
Proof.
  induction s as [|c s IH]; simpl.
  - destruct (strings.HasPrefix "" sub) eqn:Hp; [| lia].
    intros _. apply HasPrefix_inv in Hp as [r ->]. by exists "", r.
  - destruct (strings.HasPrefix (String c s) sub) eqn:Hp.
    + intros _. apply HasPrefix_inv in Hp as [r ->]. by exists "", r.
    + destruct (Z.ltb_spec (strings.Index s sub) 0) as [Hlt|Hge]; [lia |].
      intros _. destruct (IH Hge) as (pre & rest & -> & Hi).
      exists (String c pre), rest. split; [done |].
      rewrite Hi. unfold len. simpl String.length. lia.
Qed.

(** An occurrence is found. *)
Lemma Index_occurs pre sub rest : 0 ≤ strings.Index (pre +:+ sub +:+ rest) sub.
Proof.
  induction pre as [|c pre IH].
  - rewrite string_app_nil_l. pose proof (HasPrefix_app sub rest) as Hp.
    destruct (sub +:+ rest); simpl in *; rewrite Hp; lia.
  - rewrite string_app_cons. simpl.
    destruct (strings.HasPrefix _ sub); [lia |].
    destruct (Z.ltb_spec (strings.Index (pre +:+ sub +:+ rest) sub) 0); lia.
Qed.

Lemma slice_from_app pre rest : slice_from (pre +:+ rest) (len pre) = Some rest.
Proof.
  unfold slice_from, len.
  rewrite string_app_length.
  destruct (Z.ltb_spec (Z.of_nat (String.length pre)) 0); [lia |].
  destruct (Z.ltb_spec (Z.of_nat (String.length pre + String.length rest))
              (Z.of_nat (String.length pre))); [lia |].
  simpl. rewrite Nat2Z.id, bytes_of_app, <- length_bytes_of, drop_app_length.
  by rewrite string_of_bytes_of.
Qed.

(** ** Package [path/filepath]: the extension *)

Lemma Ext_loop_inv r tail :
  filepath.Ext_loop r tail ≠ [] →
  ∃ pre r', r = pre ++ "."%char :: r' ∧
            filepath.Ext_loop r tail = "."%char :: rev pre ++ tail.
Proof.
  revert tail. induction r as [|c r IH]; intros tail; simpl; [done |].
  destruct (filepath.IsPathSeparator c); [done |].
  destruct (Ascii.eqb_spec c ".") as [-> | Hc].
  - intros _. by exists [], r.
  - intros H. destruct (IH _ H) as (pre & r' & -> & Heq).
    exists (c :: pre), r'. split; [done |].
    rewrite Heq. simpl. by rewrite <- app_assoc.
Qed.

(** [filepath.Ext(p)] is ".zip" exactly when [p] ends in ".zip". *)
Lemma isZipFile_suffix l : isZipFile l = strings.HasSuffix l ".zip".
Proof.
  unfold isZipFile, strings.HasSuffix, filepath.Ext.
  apply eq_true_iff_eq. rewrite bool_decide_eq_true. split.
  - intros H. apply (f_equal bytes_of) in H. rewrite bytes_of_string_of in H.
    destruct (Ext_loop_inv (rev (bytes_of l)) []) as (pre & r' & Hr & Heq).
    { by rewrite H. }
    rewrite H, app_nil_r in Heq. simpl in Heq.
    assert (pre = rev (bytes_of "zip")) as ->.
    { rewrite <- (rev_involutive pre). f_equal. by simplify_eq. }
    rewrite Hr. done.
  - intros H. apply HasPrefix_inv in H as [r Hr].
    apply (f_equal bytes_of) in Hr.
    rewrite bytes_of_string_of, bytes_of_app in Hr. rewrite Hr. done.
Qed.

(** ** The File Selector *)

Lemma select_files_filter rows :
  Selector.select_files rows =
  Selector.select_files (filter (λ l, sentinel l = false) rows).
Proof.
  induction rows as [|l rows IH]; [done |].
  rewrite filter_cons. simpl.
  destruct (decide (sentinel l = false)) as [Hs|Hs]; unfold sentinel in Hs.
  - simpl. rewrite Hs. destruct (isZipFile l); [by rewrite IH | done].
  - apply not_false_is_true in Hs. by rewrite Hs.
Qed.

Lemma select_files_results (results : list string) :
  Forall (λ l, sentinel l = false) results →
  Selector.select_files results =
  take_while isZipFile results ++ take 1 (drop_while isZipFile results).
Proof.
  induction 1 as [|l results Hl _ IH]; [done |].
  simpl. unfold sentinel in Hl. rewrite Hl.
  destruct (isZipFile l); simpl; [by rewrite IH | done].
Qed.

Lemma take_while_ext {A} (f g : A → bool) l :
  (∀ x, f x = g x) → take_while f l = take_while g l.
Proof. intros E. induction l as [|x l IH]; simpl; [done |]. by rewrite E, IH. Qed.

Lemma drop_while_ext {A} (f g : A → bool) l :
  (∀ x, f x = g x) → drop_while f l = drop_while g l.
Proof. intros E. induction l as [|x l IH]; simpl; [done |]. by rewrite E, IH. Qed.

(** C2.  The rows of a listing that carry the no-rows-found marker are
    skipped.  Of the other rows (the results), those that end in ".zip" are
    forwarded up to the first result of another kind, which is forwarded
    too and ends the enumeration: what is sent on chanFiles is the run of
    zip results before the first non-zip result, followed by that result.
    A listing with no results (empty, or marker rows only) forwards
    nothing. *)
Theorem select_files_asymmetry (rows : list string) :
  let results := filter (λ l, sentinel l = false) rows in
  let zip := λ l, strings.HasSuffix l ".zip" in
  Selector.select_files rows =
    take_while zip results ++ take 1 (drop_while zip results)
  ∧ Selector.select_files [] = []
  ∧ Selector.select_files (filter (λ l, sentinel l = true) rows) = [].
Proof.
  intros results zip. split; [| split; [done |]].
  - rewrite select_files_filter, select_files_results.
    + unfold zip.
      by rewrite (take_while_ext _ _ _ isZipFile_suffix),
                 (drop_while_ext _ _ _ isZipFile_suffix).
    + apply Forall_forall. intros l Hl. by apply list_elem_of_filter in Hl as [? _].
  - induction rows as [|l rows IH]; [done |].
    rewrite filter_cons. destruct (decide (sentinel l = true)) as [Hs|Hs]; [| done].
    simpl. unfold sentinel in Hs. by rewrite Hs.
Qed.

(** ** The Collection Deduplicator *)

Lemma seen_insert cm k k' :
  Dedup.seen (<[k := true]> cm) k' = bool_decide (k = k') || Dedup.seen cm k'.
Proof.
  unfold Dedup.seen. destruct (decide (k = k')) as [->|Hne].
  - by rewrite lookup_insert_eq, bool_decide_eq_true_2.
  - by rewrite lookup_insert_ne, bool_decide_eq_false_2.
Qed.

Lemma run_snoc evs ev : Dedup.run (evs ++ [ev]) = Dedup.step (Dedup.run evs) ev.
Proof. unfold Dedup.run. by rewrite foldl_app. Qed.

Lemma stdout_lines_snoc evs ev :
  Dedup.stdout_lines (evs ++ [ev]) =
  Dedup.stdout_lines evs ++
    match ev with Dedup.Stdout l => [l] | _ => [] end.
Proof. unfold Dedup.stdout_lines. rewrite omap_app. by destruct ev. Qed.

Lemma dedup_inv_step s ev : dedup_inv s → dedup_inv (Dedup.step s ev).
Proof.
  intros [Hseen Hnd]. unfold Dedup.step.
  destruct (Dedup.closed s); [done |].
  destruct ev as [line|line|st|empty]; simpl; try done.
  - destruct (MatchString_series line) eqn:Hm.
    + destruct (Dedup.seen (Dedup.collMap s) (filepath.Dir line)) eqn:Hs;
        simpl; [done |].
      split; simpl.
      * intros n Hn Hmn. rewrite seen_insert.
        apply elem_of_cons in Hn as [-> | Hn].
        -- by rewrite bool_decide_eq_true_2.
        -- rewrite (Hseen n Hn Hmn). by rewrite orb_true_r.
      * rewrite filter_cons_True by done. rewrite fmap_cons.
        apply NoDup_cons. split; [| done].
        intros Hin. apply list_elem_of_fmap in Hin as (n & Hd & Hn).
        apply list_elem_of_filter in Hn as [Hmn Hn].
        specialize (Hseen n Hn Hmn). congruence.
    + split; simpl.
      * intros n Hn Hmn. apply elem_of_cons in Hn as [-> | Hn]; [congruence |].
        by apply Hseen.
      * rewrite filter_cons_False; [done | congruence].
  - by destruct ((Dedup.m s =? 1) && empty).
Qed.

Lemma dedup_inv_run evs : dedup_inv (Dedup.run evs).
Proof.
  induction evs as [|ev evs IH] using rev_ind.
  - split; [by intros n Hn; apply elem_of_nil in Hn | constructor].
  - rewrite run_snoc. by apply dedup_inv_step.
Qed.

Lemma NoDup_key_once {A K} `{EqDecision K} (f : A → K) (P : A → Prop)
    `{∀ x, Decision (P x)} (l : list A) (k : K) :
  NoDup (f <$> filter P l) →
  (length (filter (λ x, P x ∧ f x = k) l) ≤ 1)%nat.
Proof.
  induction l as [|x l IH]; [simpl; lia |].
  rewrite !filter_cons. destruct (decide (P x)) as [HP|HP].
  - rewrite fmap_cons. intros [Hx Hnd]%NoDup_cons.
    destruct (decide (P x ∧ f x = k)) as [[_ Hk]|Hk]; [| by apply IH].
    simpl. destruct (filter (λ x, P x ∧ f x = k) l) as [|y l'] eqn:Hf; [simpl; lia |].
    exfalso. apply Hx.
    assert (y ∈ filter (λ x, P x ∧ f x = k) l) as Hy by (rewrite Hf; left).
    apply list_elem_of_filter in Hy as [[HPy Hky] Hy].
    apply list_elem_of_fmap. exists y. split; [congruence |].
    by apply list_elem_of_filter.
  - intros Hnd. rewrite decide_False by tauto. by apply IH.
Qed.

Lemma forwarded_sublist evs :
  sublist (Dedup.forwarded (Dedup.run evs)) (Dedup.stdout_lines evs).
Proof.
  induction evs as [|ev evs IH] using rev_ind; [constructor |].
  rewrite run_snoc, stdout_lines_snoc. unfold Dedup.step, Dedup.forwarded in *.
  destruct (Dedup.closed (Dedup.run evs)).
  { by apply sublist_inserts_r. }
  destruct ev as [line|line|st|empty]; simpl;
    rewrite ?app_nil_r; try done.
  - destruct (MatchString_series line);
      [destruct (negb _) |]; simpl;
      try (by apply sublist_app); by apply sublist_inserts_r.
  - by destruct ((Dedup.m _ =? 1) && empty).
Qed.

Lemma forwarded_unmatched evs :
  Dedup.closed (Dedup.run evs) = false →
  filter (λ n, MatchString_series n = false) (Dedup.forwarded (Dedup.run evs)) =
  filter (λ n, MatchString_series n = false) (Dedup.stdout_lines evs).
Proof.
  induction evs as [|ev evs IH] using rev_ind; [done |].
  rewrite run_snoc, stdout_lines_snoc. unfold Dedup.step, Dedup.forwarded in *.
  destruct (Dedup.closed (Dedup.run evs)) eqn:Hc; [simpl; intros; congruence |].
  specialize (IH eq_refl). rewrite filter_app, <- IH.
  destruct ev as [line|line|st|empty]; simpl; rewrite ?app_nil_r; try done.
  - intros _. destruct (MatchString_series line) eqn:Hm.
    + rewrite filter_cons_False, filter_nil, app_nil_r by congruence.
      destruct (negb _); simpl; [| done].
      by rewrite filter_app, filter_cons_False, filter_nil, app_nil_r by congruence.
    + simpl. by rewrite filter_app.
  - destruct ((Dedup.m _ =? 1) && empty); simpl; [done |]. by rewrite Hc.
Qed.

(** C1, as amended.  Whatever the loop of the Deduplicator receives and in
    whatever order, of the series names with a given dedup key (the key the
    loop looks up, [filepath.Dir] of the name: its parent directory) at
    most one is sent on chanColls;
    what is sent are names that were received, unchanged and in their
    order; a series name whose key is already in the Seen-Set changes
    nothing (no output, no error logged); and while the loop runs, every
    name that does not match the series pattern is sent on. *)
Theorem dedup_at_most_once (evs : list Dedup.event) :
  let s := Dedup.run evs in
  (∀ key,
     (length (filter (λ n, MatchString_series n = true ∧ filepath.Dir n = key)
                (Dedup.forwarded s)) ≤ 1)%nat)
  ∧ sublist (Dedup.forwarded s) (Dedup.stdout_lines evs)
  ∧ (∀ s0 line,
       MatchString_series line = true →
       Dedup.seen (Dedup.collMap s0) (filepath.Dir line) = true →
       Dedup.step s0 (Dedup.Stdout line) = s0)
  ∧ (Dedup.closed s = false →
     filter (λ n, MatchString_series n = false) (Dedup.forwarded s) =
     filter (λ n, MatchString_series n = false) (Dedup.stdout_lines evs)).
Proof.
  intros s. repeat split.
  - intros key. apply NoDup_key_once.
    destruct (dedup_inv_run evs) as [_ Hnd]. unfold Dedup.forwarded.
    eapply NoDup_Permutation_proper; [| exact Hnd].
    apply fmap_Permutation. rewrite <- (filter_Permutation _ _ _ (Permutation_rev _)).
    done.
  - apply forwarded_sublist.
  - intros s0 line Hm Hs. unfold Dedup.step. rewrite Hm, Hs.
    by destruct (Dedup.closed s0).
  - apply forwarded_unmatched.
Qed.

(** C1, as stated, fails: with the Session Key of the specification (the
    parent of the parent directory) two series names of one key are both
    forwarded, the first series of two sessions of one subject. *)
Lemma dedup_at_most_once_counterexample :
  Dedup.forwarded
    (Dedup.run [Dedup.Stdout "/raw/sub-01/ses-mri01/001-localizer";
                Dedup.Stdout "/raw/sub-01/ses-mri02/001-localizer"]) =
    ["/raw/sub-01/ses-mri01/001-localizer"; "/raw/sub-01/ses-mri02/001-localizer"]
  ∧ spec_session_key "/raw/sub-01/ses-mri01/001-localizer" = "/raw/sub-01"
  ∧ spec_session_key "/raw/sub-01/ses-mri02/001-localizer" = "/raw/sub-01"
  ∧ ¬ dedup_at_most_once_as_stated.
Proof.
  assert (Dedup.forwarded
            (Dedup.run [Dedup.Stdout "/raw/sub-01/ses-mri01/001-localizer";
                        Dedup.Stdout "/raw/sub-01/ses-mri02/001-localizer"]) =
          ["/raw/sub-01/ses-mri01/001-localizer";
           "/raw/sub-01/ses-mri02/001-localizer"]) as E
    by (vm_compute; reflexivity).
  split; [exact E |].
  split; [vm_compute; reflexivity |]. split; [vm_compute; reflexivity |].
  intros H.
  specialize (H [Dedup.Stdout "/raw/sub-01/ses-mri01/001-localizer";
                 Dedup.Stdout "/raw/sub-01/ses-mri02/001-localizer"] "/raw/sub-01").
  rewrite E in H. clear E.
  rewrite !filter_cons, filter_nil in H.
  rewrite !decide_True in H by (split; vm_compute; reflexivity).
  simpl in H. lia.
Qed.

(** ** Package [path/filepath]: the directory of a path *)

Lemma elements_nonempty l : filepath.elements l ≠ [].
Proof.
  destruct l as [|c l]; simpl; [done |].
  destruct (filepath.IsPathSeparator c); [done |].
  by destruct (filepath.elements l).
Qed.

Lemma elements_snoc_sep l :
  filepath.elements (l ++ ["/"%char]) = filepath.elements l ++ [[]].
Proof.
  induction l as [|c l IH]; [done |].
  simpl. rewrite IH. destruct (filepath.IsPathSeparator c); [done |].
  pose proof (elements_nonempty l). by destruct (filepath.elements l).
Qed.

(** A trailing separator does not change the cleaned path. *)
Lemma clean_bytes_snoc_sep l :
  l ≠ [] → filepath.clean_bytes (l ++ ["/"%char]) = filepath.clean_bytes l.
Proof.
  destruct l as [|c l]; [done |]. intros _.
  unfold filepath.clean_bytes. rewrite <- app_comm_cons.
  by rewrite (app_comm_cons l _ c), elements_snoc_sep, foldl_app.
Qed.

Lemma back_to_separator_app b r :
  forallb (λ c, negb (filepath.IsPathSeparator c)) b = true →
  filepath.back_to_separator (b ++ "/"%char :: r) = "/"%char :: r.
Proof.
  induction b as [|c b IH]; simpl; [done |].
  intros [Hc Hb]%andb_prop. apply negb_true_iff in Hc. rewrite Hc. by apply IH.
Qed.

Lemma forallb_rev {A} (f : A → bool) l : forallb f (rev l) = forallb f l.
Proof.
  induction l as [|x l IH]; [done |].
  simpl. rewrite forallb_app, IH. simpl. destruct (f x), (forallb f l); done.
Qed.

(** The directory of [d/b] is [d], cleaned. *)
Lemma Dir_app d b :
  d ≠ "" → no_separator b = true →
  filepath.Dir (d +:+ "/" +:+ b) = filepath.Clean d.
Proof.
  intros Hd Hb. unfold filepath.Dir, filepath.Clean, no_separator in *.
  rewrite !bytes_of_app. change (bytes_of "/") with ["/"%char].
  rewrite rev_app_distr. simpl. rewrite <- app_assoc. simpl.
  rewrite back_to_separator_app by (by rewrite forallb_rev).
  simpl. rewrite rev_involutive. rewrite clean_bytes_snoc_sep; [done |].
  destruct d; [done | by simpl].
Qed.

(** C6, as amended.  For a series name [d/b] the key that the
    Deduplicator looks up in the Seen-Set and enters there is the parent
    directory [d] of the name, cleaned ([filepath.Dir] of the name): the
    name is dropped when that key has been seen, and forwarded with that
    key entered otherwise. *)
Theorem session_key_parent (d b : string) (s : Dedup.state) :
  d ≠ "" → no_separator b = true →
  MatchString_series (d +:+ "/" +:+ b) = true →
  Dedup.closed s = false →
  Dedup.step s (Dedup.Stdout (d +:+ "/" +:+ b)) =
    if Dedup.seen (Dedup.collMap s) (filepath.Clean d) then s
    else Dedup.State (<[filepath.Clean d := true]> (Dedup.collMap s)) (Dedup.m s)
           ((d +:+ "/" +:+ b) :: Dedup.chanColls s) false (Dedup.errors s).
Proof.
  intros Hd Hb Hm Hc. unfold Dedup.step. rewrite Hc, Hm, Dir_app by done.
  by destruct (Dedup.seen _ _).
Qed.

Lemma session_key_parent_witness :
  Dedup.step Dedup.init (Dedup.Stdout ("/raw/sub-01/ses-mri01" +:+ "/" +:+ "001-localizer")) =
  Dedup.State {[ "/raw/sub-01/ses-mri01" := true ]} 0
    ["/raw/sub-01/ses-mri01/001-localizer"] false [].
Proof.
  rewrite (session_key_parent "/raw/sub-01/ses-mri01" "001-localizer" Dedup.init);
    [reflexivity | discriminate | reflexivity | reflexivity | reflexivity].
Defined.

(** C6, as stated, fails: the key entered for a series name is its parent
    directory, not the parent of its parent. *)
Lemma session_key_counterexample : ¬ session_key_as_stated.
Proof.
  intros H. specialize (H "/raw/sub-01/ses-mri01/001-localizer" eq_refl).
  apply (f_equal (λ cm, cm !! "/raw/sub-01")) in H.
  vm_compute in H. discriminate.
Qed.

(** ** The Retriever: resolving the local path *)

Section retriever_facts.

Variable opts_date opts_ddir : string.
Variable iget : string → string → os.fs → Status * os.fs.
Variable read_tgz : string → option tar.stream.

Local Abbreviation download := (downloadDicom opts_date opts_ddir iget read_tgz).

(** The two helpers act on the file system only. *)
Lemma copyReaderToPath_frame h p mode w e w' :
  copyReaderToPath h p mode w = (e, w') →
  w_cmds w' = w_cmds w ∧ w_log w' = w_log w.
Proof.
  unfold copyReaderToPath. destruct (os.OpenFile _ _ _); [by intros [= <- <-] |].
  by destruct (tar.Broken h); intros [= <- <-].
Qed.

Lemma makeDownloadCmd_frame src dst w e w' :
  makeDownloadCmd src dst w = (e, w') →
  w_cmds w' = w_cmds w ∧ w_log w' = w_log w.
Proof.
  unfold makeDownloadCmd. by destruct (os.OpenFile _ _ _); intros [= <- <-].
Qed.

(** The errors of [copyReaderToPath] come from [os] or from the broken stream. *)
Lemma copyReaderToPath_error h p mode w err w' :
  copyReaderToPath h p mode w = (Some err, w') →
  err = ErrRead ∨ ∃ op q e, err = ErrPath op q e.
Proof.
  unfold copyReaderToPath, os.OpenFile.
  destruct (w_fs w !! p) as [[d pm|]|];
    try destruct (os.may_rdwr pm); try destruct (os.is_dir _ _);
    try destruct (tar.Broken h); intros [= <- <-]; eauto.
Qed.

Lemma downloadDicom_loop_cmds path loc dir entries e w :
  w_cmds (snd (downloadDicom_loop path loc dir entries e w)) = w_cmds w.
Proof.
  induction entries as [|h entries IH]; simpl.
  - by destruct e.
  - destruct (decide (tar.Typeflag h = tar.TypeDir)); [done |].
    destruct (decide (tar.Typeflag h = tar.TypeReg)); [| done].
    destruct (copyReaderToPath _ _ _ _) as [[err|] w1] eqn:Hc;
      apply copyReaderToPath_frame in Hc as [Hc _]; simpl; [done |].
    destruct (makeDownloadCmd _ _ _) as [[err|] w2] eqn:Hm;
      apply makeDownloadCmd_frame in Hm as [Hm _]; simpl in *; congruence.
Qed.

Lemma downloadDicom_loop_error path loc dir entries e w s p :
  fst (downloadDicom_loop path loc dir entries e w) ≠
  Return s (Some (ErrUnknownPath p)).
Proof.
  induction entries as [|h entries IH]; simpl.
  - by destruct e.
  - destruct (decide (tar.Typeflag h = tar.TypeDir)); [done |].
    destruct (decide (tar.Typeflag h = tar.TypeReg)); [| done].
    destruct (copyReaderToPath _ _ _ _) as [[err|] w1] eqn:Hc; simpl; [| done].
    apply copyReaderToPath_error in Hc as [-> | (? & ? & ? & ->)]; done.
Qed.

Lemma Contains_Index s sub :
  strings.Contains s sub = false ↔ (strings.Index s sub <? 0) = true.
Proof.
  unfold strings.Contains.
  destruct (Z.leb_spec 0 (strings.Index s sub)), (Z.ltb_spec (strings.Index s sub) 0);
    split; intros; try done; lia.
Qed.

(** C8.  [downloadDicom] fails with the unknown-path error exactly when the
    date string does not occur in the remote name; it then returns the
    empty path and leaves the world as it was: no directory made, no
    command run. *)
Theorem path_resolution_failure (path : string) (w : world) :
  ((∃ s p, fst (download path w) = Return s (Some (ErrUnknownPath p)))
     ↔ strings.Contains path opts_date = false)
  ∧ (strings.Contains path opts_date = false →
     download path w = (Return "" (Some (ErrUnknownPath path)), w)).
Proof.
  assert (strings.Contains path opts_date = false →
          download path w = (Return "" (Some (ErrUnknownPath path)), w)) as Hfail.
  { intros H%Contains_Index. unfold downloadDicom. by rewrite H. }
  split; [| done]. split.
  - intros (s & p & H). destruct (strings.Contains path opts_date) eqn:Hc; [| done].
    exfalso. revert H. unfold downloadDicom.
    assert ((strings.Index path opts_date <? 0) = false) as ->.
    { apply not_true_is_false. rewrite <- Contains_Index. congruence. }
    destruct (slice_from _ _) as [rest|]; [| done].
    destruct (os.MkdirAll _ _) as [[err|] m1]; [done |].
    destruct (iget _ _ _) as [st m2].
    destruct (negb (Exit st =? 0)); [by destruct (Error st) |].
    destruct (isZipFile _); [done |].
    destruct (isImaFile (if isImaFile _ then _ else _)); [done |].
    destruct (os.Open _ _) as [err|f] eqn:Ho.
    { unfold os.Open in Ho. by destruct (_ !! _) as [[]|]; simplify_eq. }
    destruct (f ≫= read_tgz) as [[entries e]|]; [| done].
    destruct (downloadDicom_loop _ _ _ _ _ _) as [r w'] eqn:Hl.
    simpl. intros ->.
    by eapply (downloadDicom_loop_error _ _ _ _ _ _ s p); rewrite Hl.
  - intros H. exists "", path. by rewrite Hfail.
Qed.

(** The local path [loc] that [downloadDicom] computes from what follows
    the date in the remote name. *)
Lemma downloadDicom_iget path w :
  len opts_date = 8 →
  strings.Contains path opts_date = true →
  ∃ pre rest,
    path = pre +:+ opts_date +:+ rest ∧
    strings.Index path opts_date = len pre ∧
    let l := filepath.Join [opts_ddir; opts_date; rest] in
    let loc :=
      if isImaFile l
      then filepath.Join [filepath.Dir (filepath.Dir l); filepath.Base l]
      else l in
    match os.MkdirAll (filepath.Dir loc) (w_fs w) with
    | (None, _) =>
        w_cmds (snd (download path w)) = ["iget"; "-f"; path; loc] :: w_cmds w
    | (Some _, _) =>
        fst (download path w) =
        Return "" (Some (ErrCannotCreateDir (filepath.Dir loc)))
    end.
Proof.
  intros Hlen Hc.
  assert (0 ≤ strings.Index path opts_date) as Hi.
  { unfold strings.Contains in Hc. by apply Z.leb_le. }
  destruct (Index_found _ _ Hi) as (pre & rest & Hpath & Hidx).
  exists pre, rest. split; [done |]. split; [done |].
  unfold downloadDicom.
  destruct (Z.ltb_spec (strings.Index path opts_date) 0) as [? | _]; [lia |].
  assert (slice_from path (strings.Index path opts_date + 8) = Some rest) as ->.
  { rewrite Hidx, Hpath, <- Hlen, <- string_app_assoc.
    replace (len pre + len opts_date) with (len (pre +:+ opts_date)).
    - apply slice_from_app.
    - unfold len. rewrite string_app_length. lia. }
  cbv zeta. destruct (os.MkdirAll _ _) as [[err|] m1]; [done |].
  destruct (iget _ _ _) as [st m2].
  destruct (negb (Exit st =? 0)); [done |].
  destruct (isZipFile _); [done |].
  destruct (isImaFile (if isImaFile _ then _ else _)).
  { destruct (makeDownloadCmd _ _ _) as [[err|] w2] eqn:Hm;
      apply makeDownloadCmd_frame in Hm as [Hm _];
      cbn [snd log w_cmds]; by rewrite Hm. }
  destruct (os.Open _ _) as [err|f]; [done |].
  destruct (f ≫= read_tgz) as [[entries e]|]; [| done].
  destruct (downloadDicom_loop _ _ _ _ _ _) as [r w'] eqn:Hl.
  cbn [snd set_fs w_cmds].
  apply (f_equal snd) in Hl. cbn [snd] in Hl. subst w'.
  by rewrite downloadDicom_loop_cmds.
Qed.

End retriever_facts.

(** C5, as amended.  When the date string has eight bytes (the format
    YYYYmmdd of the option [-t]) and occurs in the remote name, [downloadDicom] maps what follows its first occurrence
    under the local root and the date; a path with extension ".IMA" is
    moved up one directory; the result is the local path handed to [iget]
    (or, when its directory cannot be made, the directory named in the
    error).  For the date 20240101, the root /data and a remote name that
    ends in /20240101/seriesX/001-foo/file.IMA the local path is
    /data/20240101/seriesX/file.IMA. *)
Theorem path_mapping (opts_date opts_ddir : string)
    (iget : string → string → os.fs → Status * os.fs)
    (read_tgz : string → option tar.stream) (path : string) (w : world) :
  len opts_date = 8 →
  strings.Contains path opts_date = true →
  (∃ pre rest,
    path = pre +:+ opts_date +:+ rest ∧
    strings.Index path opts_date = len pre ∧
    let l := filepath.Join [opts_ddir; opts_date; rest] in
    let loc :=
      if isImaFile l
      then filepath.Join [filepath.Dir (filepath.Dir l); filepath.Base l]
      else l in
    match os.MkdirAll (filepath.Dir loc) (w_fs w) with
    | (None, _) =>
        w_cmds (snd (downloadDicom opts_date opts_ddir iget read_tgz path w)) =
        ["iget"; "-f"; path; loc] :: w_cmds w
    | (Some _, _) =>
        fst (downloadDicom opts_date opts_ddir iget read_tgz path w) =
        Return "" (Some (ErrCannotCreateDir (filepath.Dir loc)))
    end)
  ∧ (let remote := "/rdm/di/dccn/DAC_3055010.01_490/raw/20240101/seriesX/001-foo/file.IMA" in
     w_cmds (snd (downloadDicom "20240101" "/data" iget read_tgz remote (World ∅ [] []))) =
     [["iget"; "-f"; remote; "/data/20240101/seriesX/file.IMA"]]).
Proof.
  intros Hlen Hc. split; [by apply downloadDicom_iget |].
  intros remote.
  destruct (downloadDicom_iget "20240101" "/data" iget read_tgz remote
              (World ∅ [] []) eq_refl eq_refl) as (pre & rest & Hp & Hi & H).
  assert (rest = "/seriesX/001-foo/file.IMA") as ->.
  { pose proof (slice_from_app pre ("20240101" +:+ rest)) as Hs.
    rewrite <- Hp, <- Hi in Hs. vm_compute in Hs.
    injection Hs as Hs. symmetry. exact Hs. }
  cbv zeta in H.
  vm_compute (filepath.Join _) in H.
  exact H.
Qed.

(** C5, as stated, fails: [downloadDicom] takes what follows the eighth
    byte from the start of the date, whatever the length of the date.  For
    the date 2024 and the remote name /raw/2024/abcdefgh/a.zip the local
    path is /data/2024/defgh/a.zip and not /data/2024/abcdefgh/a.zip. *)
Lemma path_mapping_counterexample :
  w_cmds (snd (downloadDicom "2024" "/data" (sample_iget "PK-zip-data")
                 sample_read_tgz "/raw/2024/abcdefgh/a.zip" (World ∅ [] []))) =
    [["iget"; "-f"; "/raw/2024/abcdefgh/a.zip"; "/data/2024/defgh/a.zip"]]
  ∧ ¬ path_mapping_as_stated.
Proof.
  split; [vm_compute; reflexivity |]. intros H.
  destruct (H "2024" "/data" (sample_iget "PK-zip-data") sample_read_tgz
              "/raw/2024/abcdefgh/a.zip" (World ∅ [] []) eq_refl)
    as (pre & rest & Hp & Hi & Hloc).
  assert (pre = "/raw/" ∧ rest = "/abcdefgh/a.zip") as [-> ->].
  { assert (strings.Index "/raw/2024/abcdefgh/a.zip" "2024" = 5) as E
      by (vm_compute; reflexivity).
    rewrite E in Hi. clear E.
    assert (String.length pre = 5%nat) as Hl by (unfold len in Hi; lia).
    destruct pre as [|c1 [|c2 [|c3 [|c4 [|c5 [|c6 pre]]]]]]; try discriminate Hl.
    rewrite !string_app_cons, string_app_nil_l in Hp.
    injection Hp as <- <- <- <- <- Hp.
    rewrite string_app_nil_l in Hp. by subst rest. }
  cbv zeta in Hloc.
  vm_compute in Hloc. discriminate.
Qed.

(** ** The file system *)

Lemma Remove_file m p : is_file m p → os.Remove p m = delete p m.
Proof. intros (d & perm & H). unfold os.Remove. by rewrite H. Qed.

Lemma Remove_lookup m p : is_file m p → os.Remove p m !! p = None.
Proof. intros H. rewrite Remove_file by done. apply lookup_delete_eq. Qed.

Lemma OpenFile_is_file p perm m m' q :
  os.OpenFile p perm m = inr m' → is_file m q → is_file m' q.
Proof.
  unfold os.OpenFile. intros H (d & pm & Hq).
  destruct (m !! p) as [[d0 pm0|]|] eqn:Hp; simplify_eq.
  - destruct (os.may_rdwr pm0); simplify_eq. by exists d, pm.
  - destruct (os.is_dir _ _); simplify_eq.
    exists d, pm. rewrite lookup_insert_ne; [done | congruence].
Qed.

Lemma write_is_file p d m q : is_file m q → is_file (os.write p d m) q.
Proof.
  unfold os.write. intros (d' & pm & Hq).
  destruct (m !! p) as [[old perm|]|] eqn:Hp; [| by exists d', pm..].
  destruct (decide (p = q)) as [->|Hne].
  - eexists _, _. apply lookup_insert_eq.
  - exists d', pm. by rewrite lookup_insert_ne.
Qed.

(** Creating a file that does not exist yet and writing it. *)
Lemma OpenFile_write_fresh p perm d m :
  m !! p = None → os.is_dir m (filepath.Dir p) = true →
  ∃ m', os.OpenFile p perm m = inr m' ∧
        os.write p d m' = <[p := os.File d (os.create_mode perm)]> m.
Proof.
  intros Hp Hd. unfold os.OpenFile. rewrite Hp, Hd. eexists. split; [done |].
  unfold os.write. rewrite lookup_insert_eq, insert_insert_eq.
  simpl. by rewrite drop_nil, string_app_nil_r.
Qed.

Lemma OpenFile_write_other p perm d m m' q :
  os.OpenFile p perm m = inr m' → q ≠ p → os.write p d m' !! q = m !! q.
Proof.
  unfold os.OpenFile, os.write. intros H Hq.
  destruct (m !! p) as [[old pm|]|] eqn:Hp; simplify_eq.
  - destruct (os.may_rdwr pm); simplify_eq.
    rewrite Hp. by rewrite lookup_insert_ne.
  - destruct (os.is_dir _ _); simplify_eq.
    rewrite lookup_insert_eq. by rewrite !lookup_insert_ne.
Qed.

Lemma copyReaderToPath_fresh h p mode w :
  w_fs w !! p = None → os.is_dir (w_fs w) (filepath.Dir p) = true →
  tar.Broken h = false →
  copyReaderToPath h p mode w =
  (None, set_fs (<[p := os.File (tar.Body h) (os.create_mode mode)]> (w_fs w)) w).
Proof.
  intros Hp Hd Hb. unfold copyReaderToPath.
  destruct (OpenFile_write_fresh p mode (tar.Body h) _ Hp Hd) as (m' & -> & ->).
  by rewrite Hb.
Qed.

Lemma copyReaderToPath_is_file h p mode w e w' q :
  copyReaderToPath h p mode w = (e, w') →
  is_file (w_fs w) q → is_file (w_fs w') q.
Proof.
  unfold copyReaderToPath. destruct (os.OpenFile _ _ _) as [err|m'] eqn:Ho.
  - by intros [= <- <-].
  - intros H Hq. eapply OpenFile_is_file in Hq; [| done].
    apply (write_is_file p (tar.Body h)) in Hq.
    by destruct (tar.Broken h); simplify_eq.
Qed.

Lemma makeDownloadCmd_is_file src dst w e w' q :
  makeDownloadCmd src dst w = (e, w') →
  is_file (w_fs w) q → is_file (w_fs w') q.
Proof.
  unfold makeDownloadCmd. destruct (os.OpenFile _ _ _) as [err|m'] eqn:Ho.
  - by intros [= <- <-].
  - intros [= <- <-] Hq. simpl. apply write_is_file.
    by eapply OpenFile_is_file.
Qed.

Lemma makeDownloadCmd_other src dst w e w' q :
  makeDownloadCmd src dst w = (e, w') →
  q ≠ cmd_sh dst → w_fs w' !! q = w_fs w !! q.
Proof.
  unfold makeDownloadCmd, cmd_sh. destruct (os.OpenFile _ _ _) as [err|m'] eqn:Ho.
  - by intros [= <- <-].
  - intros [= <- <-] Hq. simpl. by eapply OpenFile_write_other.
Qed.

Lemma Extract_loop_is_file archive dir entries e w q :
  is_file (w_fs w) q →
  is_file (w_fs (snd (Extract_loop archive dir entries e w))) q.
Proof.
  intros Hq. induction entries as [|h entries IH]; simpl.
  - by destruct e.
  - destruct (decide (tar.Typeflag h = tar.TypeDir)); [done |].
    destruct (decide (tar.Typeflag h = tar.TypeReg)); [| done].
    destruct (copyReaderToPath _ _ _ _) as [[err|] w1] eqn:Hc;
      eapply copyReaderToPath_is_file in Hc; done.
Qed.

Lemma downloadDicom_loop_is_file path loc dir entries e w q :
  is_file (w_fs w) q →
  is_file (w_fs (snd (downloadDicom_loop path loc dir entries e w))) q.
Proof.
  intros Hq. induction entries as [|h entries IH]; simpl.
  - by destruct e.
  - destruct (decide (tar.Typeflag h = tar.TypeDir)); [done |].
    destruct (decide (tar.Typeflag h = tar.TypeReg)); [| done].
    destruct (copyReaderToPath _ _ _ _) as [[err|] w1] eqn:Hc;
      eapply copyReaderToPath_is_file in Hc; try done.
    simpl. destruct (makeDownloadCmd _ _ _) as [[err|] w2] eqn:Hm;
      eapply makeDownloadCmd_is_file in Hm; done.
Qed.

(** An archive without a regular file is read to its end with nothing
    written. *)
Lemma Extract_loop_empty archive dir entries w :
  Forall (λ h, tar.Typeflag h ≠ tar.TypeReg) entries →
  Extract_loop archive dir entries tar.EOF w =
  (Return "" (Some (ErrEmptyArchive archive)), w).
Proof.
  induction 1 as [|h entries Hh _ IH]; simpl; [done |].
  destruct (decide (tar.Typeflag h = tar.TypeDir)); [done |].
  by rewrite decide_False.
Qed.

Lemma downloadDicom_loop_empty path loc dir entries w :
  Forall (λ h, tar.Typeflag h ≠ tar.TypeReg) entries →
  downloadDicom_loop path loc dir entries tar.EOF w =
  (Return "" (Some (ErrEmptyArchive loc)), w).
Proof.
  induction 1 as [|h entries Hh _ IH]; simpl; [done |].
  destruct (decide (tar.Typeflag h = tar.TypeDir)); [done |].
  by rewrite decide_False.
Qed.

(** ** The Archive Extractor *)

Section extractor_facts.

Variable opts_date opts_ddir : string.
Variable iget : string → string → os.fs → Status * os.fs.
Variable read_tgz : string → option tar.stream.

Local Abbreviation download := (downloadDicom opts_date opts_ddir iget read_tgz).
Local Abbreviation fetched_at := (fetched opts_date opts_ddir iget).

(** Once the archive is fetched, [downloadDicom] is its extraction stage. *)
Lemma downloadDicom_fetched path loc w m data perm entries e :
  fetched_at path loc w m →
  m !! loc = Some (os.File data perm) →
  read_tgz data = Some (entries, e) →
  download path w =
  let '(r, w') := downloadDicom_loop path loc (filepath.Dir loc) entries e
                    (fetched_world path loc w m) in
  (r, set_fs (os.Remove loc (w_fs w')) w').
Proof.
  intros (rest & m1 & st & Hi & Hs & Hloc & Hima & Hzip & Hmk & Hget & Hexit) Hf Hr.
  unfold downloadDicom.
  destruct (Z.ltb_spec (strings.Index path opts_date) 0) as [? | _]; [lia |].
  rewrite Hs. cbv zeta. rewrite <- Hloc, Hima, Hmk. simpl w_fs.
  rewrite Hget, Hexit. simpl negb. cbv iota. rewrite Hzip, Hima.
  unfold os.Open. simpl w_fs. rewrite Hf. simpl. by rewrite Hr.
Qed.

Lemma Extract_opened archive w data perm entries e :
  w_fs w !! archive = Some (os.File data perm) →
  read_tgz data = Some (entries, e) →
  Extract read_tgz archive w =
  let '(r, w') := Extract_loop archive (filepath.Dir archive) entries e w in
  (r, set_fs (os.Remove archive (w_fs w')) w').
Proof.
  intros Hf Hr. unfold Extract, os.Open. rewrite Hf. simpl. by rewrite Hr.
Qed.

End extractor_facts.

(** C7.  An archive that reaches its end without a regular-file entry (only
    directories, or entries of other kinds) makes the extraction return the
    empty-archive error and the empty path; no file is written: the file
    system afterwards is the one before without the archive.  This holds
    for [DicomExtractorTgz.Extract] and for the extraction in
    [downloadDicom]. *)
Theorem empty_archive (opts_date opts_ddir : string)
    (iget : string → string → os.fs → Status * os.fs)
    (read_tgz : string → option tar.stream)
    (data : string) (perm : Z) (entries : list tar.entry) :
  read_tgz data = Some (entries, tar.EOF) →
  Forall (λ h, tar.Typeflag h ≠ tar.TypeReg) entries →
  (∀ archive w,
     w_fs w !! archive = Some (os.File data perm) →
     Extract read_tgz archive w =
     (Return "" (Some (ErrEmptyArchive archive)),
      set_fs (delete archive (w_fs w)) w))
  ∧ (∀ path loc w m,
       fetched opts_date opts_ddir iget path loc w m →
       m !! loc = Some (os.File data perm) →
       downloadDicom opts_date opts_ddir iget read_tgz path w =
       (Return "" (Some (ErrEmptyArchive loc)),
        fetched_world path loc w (delete loc m))).
Proof.
  intros Hr He. split.
  - intros archive w Hf.
    rewrite (Extract_opened _ _ _ _ _ _ _ Hf Hr), Extract_loop_empty by done.
    rewrite Remove_file by (by eexists _, _). done.
  - intros path loc w m Hfe Hf.
    rewrite (downloadDicom_fetched _ _ _ _ _ _ _ _ _ _ _ _ Hfe Hf Hr).
    rewrite downloadDicom_loop_empty by done. simpl.
    rewrite Remove_file by (by eexists _, _). done.
Qed.

(** C10.  Once the archive has been opened and its gzip header read, the
    archive is gone from the file system when the extraction ends, whatever
    the outcome: a path returned, the empty-archive error, a copy error, or
    a panic on a damaged stream.  This holds for
    [DicomExtractorTgz.Extract] and for the extraction in [downloadDicom]. *)
Theorem archive_removed (opts_date opts_ddir : string)
    (iget : string → string → os.fs → Status * os.fs)
    (read_tgz : string → option tar.stream)
    (data : string) (perm : Z) (s : tar.stream) :
  read_tgz data = Some s →
  (∀ archive w,
     w_fs w !! archive = Some (os.File data perm) →
     w_fs (snd (Extract read_tgz archive w)) !! archive = None)
  ∧ (∀ path loc w m,
       fetched opts_date opts_ddir iget path loc w m →
       m !! loc = Some (os.File data perm) →
       w_fs (snd (downloadDicom opts_date opts_ddir iget read_tgz path w)) !! loc
       = None).
Proof.
  destruct s as [entries e]. intros Hr. split.
  - intros archive w Hf. rewrite (Extract_opened _ _ _ _ _ _ _ Hf Hr).
    pose proof (Extract_loop_is_file archive (filepath.Dir archive) entries e w
                  archive) as H.
    destruct (Extract_loop _ _ _ _ _) as [r w']. simpl in *.
    apply Remove_lookup, H. by eexists _, _.
  - intros path loc w m Hfe Hf.
    rewrite (downloadDicom_fetched _ _ _ _ _ _ _ _ _ _ _ _ Hfe Hf Hr).
    pose proof (downloadDicom_loop_is_file path loc (filepath.Dir loc) entries e
                  (fetched_world path loc w m) loc) as H.
    destruct (downloadDicom_loop _ _ _ _ _ _) as [r w']. simpl in *.
    apply Remove_lookup, H. by eexists _, _.
Qed.

(** The first regular file of [dir, A, B] is extracted by
    [DicomExtractorTgz.Extract] when nothing is in its place. *)
Lemma Extract_first_regular (read_tgz : string → option tar.stream)
    archive w data perm D A B e :
  w_fs w !! archive = Some (os.File data perm) →
  read_tgz data = Some ([D; A; B], e) →
  tar.Typeflag D = tar.TypeDir → tar.Typeflag A = tar.TypeReg →
  tar.Broken A = false →
  let out := filepath.Join [filepath.Dir archive; filepath.Base (tar.Name A)] in
  w_fs w !! out = None → os.is_dir (w_fs w) (filepath.Dir out) = true →
  Extract read_tgz archive w =
  (Return out None,
   World (<[out := os.File (tar.Body A) (os.create_mode (os.FileMode (tar.Mode A)))]>
            (delete archive (w_fs w)))
         (w_cmds w)
         (Log LDebug ("DICOM file extracted: " +:+ out) None :: w_log w)).
Proof.
  intros Hf Hr HD HA Hb out Hout Hdir.
  rewrite (Extract_opened _ _ _ _ _ _ _ Hf Hr). simpl.
  rewrite decide_True by done.
  assert (tar.TypeReg ≠ tar.TypeDir) as Hne by done.
  rewrite decide_False by congruence. rewrite decide_True by done.
  fold out. rewrite copyReaderToPath_fresh by done. simpl.
  assert (out ≠ archive) as Hoa by congruence.
  rewrite Remove_file.
  - unfold set_fs, log. simpl. by rewrite delete_insert_ne.
  - exists data, perm. by rewrite lookup_insert_ne.
Qed.

(** The same in [downloadDicom], which also writes the companion file. *)
Lemma downloadDicom_first_regular opts_date opts_ddir
    (iget : string → string → os.fs → Status * os.fs)
    (read_tgz : string → option tar.stream)
    path loc w m data perm D A B e :
  fetched opts_date opts_ddir iget path loc w m →
  m !! loc = Some (os.File data perm) →
  read_tgz data = Some ([D; A; B], e) →
  tar.Typeflag D = tar.TypeDir → tar.Typeflag A = tar.TypeReg →
  tar.Broken A = false →
  let dir := filepath.Dir loc in
  let out := filepath.Join [dir; filepath.Base (tar.Name A)] in
  m !! out = None → os.is_dir m (filepath.Dir out) = true →
  out ≠ cmd_sh dir →
  let r := downloadDicom opts_date opts_ddir iget read_tgz path w in
  fst r = Return out None
  ∧ w_fs (snd r) !! out = Some (os.File (tar.Body A) (os.create_mode (os.FileMode (tar.Mode A))))
  ∧ w_fs (snd r) !! loc = None
  ∧ ∀ p, p ≠ out → p ≠ loc → p ≠ cmd_sh dir → w_fs (snd r) !! p = m !! p.
Proof.
  intros Hfe Hf Hr HD HA Hb dir out Hout Hdir Hcmd r. unfold r.
  rewrite (downloadDicom_fetched _ _ _ _ _ _ _ _ _ _ _ _ Hfe Hf Hr). simpl.
  rewrite decide_True by done.
  assert (tar.TypeReg ≠ tar.TypeDir) as Hne by done.
  rewrite decide_False by congruence. rewrite decide_True by done.
  fold dir out. rewrite copyReaderToPath_fresh by done.
  assert (out ≠ loc) as Hol by congruence.
  set (w1 := log _ _ _ _).
  assert (w_fs w1 = <[out := os.File (tar.Body A) (os.create_mode (os.FileMode (tar.Mode A)))]> m)
    as Hw1 by done.
  destruct (makeDownloadCmd (filepath.Dir path) dir w1) as [e' w2] eqn:Hm.
  assert (w_fs (match e' with
                | Some err => log LWarn "cannot write command: " (Some err) w2
                | None => w2 end) = w_fs w2) as Hw2 by (by destruct e').
  assert (is_file (w_fs w2) loc) as Hloc.
  { eapply makeDownloadCmd_is_file; [done |]. rewrite Hw1.
    exists data, perm. by rewrite lookup_insert_ne. }
  assert (∀ q, q ≠ cmd_sh dir → w_fs w2 !! q = w_fs w1 !! q) as Hother.
  { intros q Hq. by eapply makeDownloadCmd_other. }
  destruct e'; simpl in *; rewrite Remove_file by done;
    (split; [done |]; split; [| split]).
  all: try apply lookup_delete_eq.
  all: try (rewrite lookup_delete_ne, Hother, Hw1 by done; apply lookup_insert_eq).
  all: intros p Hp1 Hp2 Hp3;
    rewrite lookup_delete_ne, Hother, Hw1 by done; by apply lookup_insert_ne.
Qed.

(** The round trip at a free output path.  For an archive with the
    entries [dir, A, B], A a regular file that can be read, and with
    nothing yet at the path of A's base name in the directory of the
    archive: the directory entry is skipped, A's content is written to
    that path, with the permission bits of A's mode that the mask leaves,
    the archive is removed, the path is returned, and B is not extracted.
    [DicomExtractorTgz.Extract] changes nothing else; the extraction in
    [downloadDicom] changes nothing else but the companion file cmd.sh. *)
Lemma extract_roundtrip (opts_date opts_ddir : string)
    (iget : string → string → os.fs → Status * os.fs)
    (read_tgz : string → option tar.stream)
    (data : string) (perm : Z) (D A B : tar.entry) (e : tar.ending) :
  read_tgz data = Some ([D; A; B], e) →
  tar.Typeflag D = tar.TypeDir → tar.Typeflag A = tar.TypeReg →
  tar.Broken A = false →
  (∀ archive w,
     w_fs w !! archive = Some (os.File data perm) →
     let out := filepath.Join [filepath.Dir archive; filepath.Base (tar.Name A)] in
     w_fs w !! out = None → os.is_dir (w_fs w) (filepath.Dir out) = true →
     Extract read_tgz archive w =
     (Return out None,
      World (<[out := os.File (tar.Body A) (os.create_mode (os.FileMode (tar.Mode A)))]>
               (delete archive (w_fs w)))
            (w_cmds w)
            (Log LDebug ("DICOM file extracted: " +:+ out) None :: w_log w)))
  ∧ (∀ path loc w m,
       fetched opts_date opts_ddir iget path loc w m →
       m !! loc = Some (os.File data perm) →
       let dir := filepath.Dir loc in
       let out := filepath.Join [dir; filepath.Base (tar.Name A)] in
       m !! out = None → os.is_dir m (filepath.Dir out) = true →
       out ≠ cmd_sh dir →
       let r := downloadDicom opts_date opts_ddir iget read_tgz path w in
       fst r = Return out None
       ∧ w_fs (snd r) !! out =
         Some (os.File (tar.Body A) (os.create_mode (os.FileMode (tar.Mode A))))
       ∧ w_fs (snd r) !! loc = None
       ∧ ∀ p, p ≠ out → p ≠ loc → p ≠ cmd_sh dir → w_fs (snd r) !! p = m !! p).
Proof.
  intros Hr HD HA Hb. split.
  - intros archive w Hf out. by eapply Extract_first_regular.
  - intros path loc w m Hfe Hf dir out. by eapply downloadDicom_first_regular.
Qed.

(** C3.  At an archive whose first regular file A has the base name of
    the archive itself, the extraction ends without an error and returns
    the path of A's base name in the directory of the archive, and no file
    is there: A was written over the archive, and the deferred removal of
    the archive has removed it.  So it is in [DicomExtractorTgz.Extract]
    and in [downloadDicom], whose comment promises the path of the saved
    file. *)
Theorem extract_returns_removed_path :
  Extract sample_read_tgz "/d/a.tar.gz" (sample_world "tgz-self") =
    (Return "/d/a.tar.gz" None,
     World {[ "/d" := os.Directory ]} []
       [Log LDebug "DICOM file extracted: /d/a.tar.gz" None])
  ∧ fst (downloadDicom "20240101" "/data" (sample_iget "tgz-self")
           sample_read_tgz sample_remote (World ∅ [] [])) =
    Return sample_loc None
  ∧ w_fs (snd (downloadDicom "20240101" "/data" (sample_iget "tgz-self")
                 sample_read_tgz sample_remote (World ∅ [] []))) !! sample_loc =
    None.
Proof.
  split; [| split].
  - vm_compute. reflexivity.
  - vm_compute. reflexivity.
  - vm_compute. reflexivity.
Qed.

(** ** The worker pool *)

Section pool_facts.

Context {Item Res Store : Type}.
Variable work : Item → Store → option (list Res * Store).
Variable nworker cap_in cap_out : nat.

Local Abbreviation step := (Pool.step work nworker cap_in cap_out).
Local Abbreviation run := (Pool.run work nworker cap_in cap_out).
Local Abbreviation inv := (@Pool.inv Item Res Store nworker).
Local Abbreviation wstate := (@Pool.wstate Res).

Lemma pending_settle (outs : list Res) :
  Pool.pending (match outs with [] => Pool.Idle | _ => Pool.Busy outs end) = outs.
Proof. by destruct outs. Qed.

Lemma settle_not_gone (outs : list Res) :
  match outs with [] => Pool.Idle | _ => Pool.Busy outs end ≠ Pool.Gone
  ∧ match outs with [] => Pool.Idle | _ => Pool.Busy outs end ≠ Pool.Leaving.
Proof. by destruct outs. Qed.

(** Replacing the state of one worker replaces its pending results. *)
Lemma pending_all_insert (wss : list wstate) k old new :
  wss !! k = Some old →
  Pool.pending_all (<[k := new]> wss) ++ Pool.pending old
  ≡ₚ Pool.pending_all wss ++ Pool.pending new.
Proof.
  intros Hk. unfold Pool.pending_all.
  rewrite <- (take_drop_middle wss k old Hk) at 2.
  rewrite insert_take_drop by (by eapply lookup_lt_Some).
  rewrite !fmap_app, !fmap_cons, !concat_app. simpl.
  rewrite <- !app_assoc.
  apply Permutation_app_head.
  rewrite (Permutation_app_comm (Pool.pending new)), <- app_assoc.
  rewrite (Permutation_app_comm (Pool.pending old) (_ ++ _)), <- app_assoc.
  apply Permutation_app_head, Permutation_app_comm.
Qed.

Lemma lookup_set_worker (wss : list wstate) k new k' old :
  wss !! k = Some old →
  <[k := new]> wss !! k' = if decide (k = k') then Some new else wss !! k'.
Proof.
  intros Hk. destruct (decide (k = k')) as [<-|Hne].
  - apply list_lookup_insert_eq. by eapply lookup_lt_Some.
  - by apply list_lookup_insert_ne.
Qed.

(** A list of distinct numbers below [n] that is [n] long has them all. *)
Lemma tokens_complete (l : list nat) n :
  NoDup l → (∀ k, k ∈ l → (k < n)%nat) → length l = n →
  ∀ k, (k < n)%nat → k ∈ l.
Proof.
  intros Hnd Hlt Hlen k Hk.
  assert (l ≡ₚ seq 0 n) as Hp.
  { apply submseteq_length_Permutation.
    - apply NoDup_submseteq; [done |].
      intros x Hx. apply elem_of_seq. specialize (Hlt x Hx). lia.
    - rewrite length_seq. lia. }
  rewrite Hp. apply elem_of_seq. lia.
Qed.

Lemma inv_init σ : inv (Pool.init nworker σ).
Proof.
  split; simpl; try done.
  - by rewrite length_replicate.
  - intros k. split; [by intros H%elem_of_nil |].
    intros H%lookup_replicate. by destruct H.
  - constructor.
  - intros k [H|H]; apply lookup_replicate in H; by destruct H.
  - unfold Pool.pending_all. induction nworker; simpl; [done | by apply IHn].
Qed.

Lemma inv_step a s s' : step a s = Some s' → inv s → inv s'.
Proof.
  intros Hstep [Hw Htok Honce Hcount Hsync Hout Hdr Hfed Hsent Hcrash].
  unfold Pool.step in Hstep.
  destruct (Pool.crashed s) eqn:Hcr; [done |].
  specialize (Hfed eq_refl). clear Hcrash.
  destruct a as [x| |k|k|k| | |].
  - (* Feed *)
    destruct (Pool.input_closed s) eqn:Hic; [done |]. simpl in Hstep.
    case_bool_decide; simplify_eq.
    split; simpl; try done.
    + intros k Hk. destruct (Hdr k Hk). congruence.
    + intros _. by rewrite Hfed, app_assoc.
  - (* CloseInput *)
    destruct (Pool.input_closed s) eqn:Hic; simplify_eq.
    split; simpl; try done.
    intros k Hk. destruct (Hdr k Hk). congruence.
  - (* Receive *)
    destruct (Pool.workers s !! k) as [[| | |]|] eqn:Hk; try done.
    destruct (Pool.input s) as [|x rest] eqn:Hin.
    + (* the channel is closed and empty *)
      destruct (Pool.input_closed s) eqn:Hic; simplify_eq.
      split; simpl; unfold Pool.set_worker; try done.
      * by rewrite length_insert.
      * intros k'. rewrite (lookup_set_worker _ _ _ _ _ Hk), Htok.
        case_decide; [subst; split; congruence | done].
      * rewrite <- Hsent.
        pose proof (pending_all_insert _ _ _ Pool.Leaving Hk) as Hp.
        simpl in Hp. by rewrite !app_nil_r in Hp; rewrite Hp.
    + destruct (work x (Pool.shared s)) as [[outs σ]|] eqn:Hwork; simplify_eq.
      * split; simpl; unfold Pool.set_worker; try done.
        -- by rewrite length_insert.
        -- intros k'. rewrite (lookup_set_worker _ _ _ _ _ Hk), Htok.
           pose proof (settle_not_gone outs) as [? ?].
           case_decide; [subst; split; congruence | done].
        -- intros k'. rewrite (lookup_set_worker _ _ _ _ _ Hk).
           pose proof (settle_not_gone outs) as [? ?].
           case_decide; [intros [?|?]; congruence |].
           intros Hl. destruct (Hdr k' Hl). congruence.
        -- intros _. rewrite Hfed, fmap_app. simpl. by rewrite <- app_assoc.
        -- rewrite fmap_app, concat_app. simpl. rewrite app_nil_r, <- Hsent.
           pose proof (pending_all_insert _ _ _
             (match outs with [] => Pool.Idle | _ => Pool.Busy outs end) Hk) as Hp.
           rewrite pending_settle in Hp. simpl in Hp. rewrite app_nil_r in Hp.
           by rewrite Hp, app_assoc.
      * split; simpl; try done.
        -- intros k' H. destruct (Hdr k' H). congruence.
        -- intros _. exists k, Pool.Idle. done.
  - (* Send *)
    destruct (Pool.workers s !! k) as [[|[|o rest]| |]|] eqn:Hk; try done.
    destruct (Pool.output_closed s) eqn:Hoc; simplify_eq.
    { split; simpl; try done. intros _. by exists k, (Pool.Busy (o :: rest)). }
    case_bool_decide; simplify_eq.
    split; simpl; unfold Pool.set_worker; try done.
    + by rewrite length_insert.
    + intros k'. rewrite (lookup_set_worker _ _ _ _ _ Hk), Htok.
      pose proof (settle_not_gone rest) as [? ?].
      case_decide; [subst; split; congruence | done].
    + intros k'. rewrite (lookup_set_worker _ _ _ _ _ Hk).
      pose proof (settle_not_gone rest) as [? ?].
      case_decide; [intros [?|?]; congruence | apply Hdr].
    + rewrite <- Hsent.
      pose proof (pending_all_insert _ _ _
        (match rest with [] => Pool.Idle | _ => Pool.Busy rest end) Hk) as Hp.
      rewrite pending_settle in Hp. simpl in Hp.
      rewrite <- app_assoc.
      apply Permutation_app_head.
      apply (Permutation_app_inv_r rest).
      rewrite <- app_assoc. simpl.
      by rewrite <- Hp, <- Permutation_middle.
  - (* Signal *)
    destruct (Pool.workers s !! k) as [[| | |]|] eqn:Hk; try done.
    case_bool_decide; [| done].
    destruct (Pool.sync_closed s) eqn:Hsc; simpl in Hstep; simplify_eq.
    assert (k ∉ Pool.tokens s) as Hnk by (rewrite Htok; congruence).
    split; simpl; unfold Pool.set_worker; try done.
    + by rewrite length_insert.
    + intros k'. rewrite (lookup_set_worker _ _ _ _ _ Hk), elem_of_app, Htok.
      rewrite list_elem_of_singleton.
      case_decide; [subst; split; eauto | split; [intros [?|?] |]; eauto; congruence].
    + apply NoDup_app. split; [done |]. split; [| apply NoDup_singleton].
      intros k' Hk' ->%list_elem_of_singleton. done.
    + rewrite length_app. simpl. lia.
    + intros k'. rewrite (lookup_set_worker _ _ _ _ _ Hk).
      case_decide; [subst; intros _; apply (Hdr k'); eauto | apply Hdr].
    + rewrite <- Hsent.
      pose proof (pending_all_insert _ _ _ Pool.Gone Hk) as Hp.
      simpl in Hp. by rewrite !app_nil_r in Hp; rewrite Hp.
  - (* CloseSync *)
    case_bool_decide; [done |].
    destruct (Pool.sync_closed s) eqn:Hsc; simpl in Hstep; simplify_eq.
    split; simpl; try done.
    + intros _. apply Nat.le_antisymm; [| lia].
      assert (Pool.tokens s ⊆+ seq 0%nat (length (Pool.workers s))) as Hsub.
      { apply NoDup_submseteq; [done |].
        intros x Hx%Htok%lookup_lt_Some. apply elem_of_seq. lia. }
      apply submseteq_length in Hsub. rewrite length_seq in Hsub. lia.
  - (* CloseOutput *)
    destruct (Pool.sync_closed s) eqn:Hsc; [| done].
    destruct (Pool.output_closed s) eqn:Hoc; simpl in Hstep; simplify_eq.
    split; simpl; done.
  - (* Drain *)
    destruct (Pool.output s) as [|o rest] eqn:Ho; simplify_eq.
    split; simpl; done.
Qed.

Lemma inv_run sched s s' : run sched s = Some s' → inv s → inv s'.
Proof.
  revert s. induction sched as [|a sched IH]; intros s; simpl.
  - by intros [= ->].
  - destruct (step a s) as [s1|] eqn:Hs; [| done].
    intros Hr Hi. apply (IH s1 Hr). by eapply inv_step.
Qed.

End pool_facts.

(** C4.  In every state that a pool of [nworker] workers reaches, under any
    schedule: the tokens received on the private channel come from
    different workers, each of them gone after having seen its input
    channel closed and drained; and when the output channel is closed,
    [waitWorkers] has counted [nworker] tokens, one from every worker,
    every worker has ended, no worker has panicked, every result of the
    items received has been sent on the output channel, and (there being a
    worker) the input channel is closed and every item sent on it has been
    received. *)
Theorem completion_signaling {Item Res Store : Type}
    (work : Item → Store → option (list Res * Store))
    (nworker cap_in cap_out : nat) (sched : list Pool.action) (σ : Store)
    (s : Pool.state) :
  Pool.run work nworker cap_in cap_out sched (Pool.init nworker σ) = Some s →
  (NoDup (Pool.tokens s)
   ∧ ∀ k, k ∈ Pool.tokens s →
          (k < nworker)%nat ∧ Pool.workers s !! k = Some Pool.Gone
          ∧ Pool.input_closed s = true ∧ Pool.input s = [])
  ∧ (Pool.output_closed s = true →
     Pool.i s = nworker
     ∧ length (Pool.tokens s) = nworker
     ∧ (∀ k, (k < nworker)%nat → k ∈ Pool.tokens s)
     ∧ Forall (λ ws, ws = Pool.Gone) (Pool.workers s)
     ∧ Pool.crashed s = false
     ∧ Pool.sent s ≡ₚ concat (snd <$> Pool.taken s)
     ∧ ((0 < nworker)%nat →
        Pool.input_closed s = true ∧ Pool.input s = []
        ∧ Pool.fed s = fst <$> Pool.taken s)).
Proof.
  intros Hrun.
  pose proof (inv_run work nworker cap_in cap_out _ _ _ Hrun (inv_init nworker σ))
    as [Hw Htok Honce Hcount Hsync Hout Hdr Hfed Hsent Hcrash].
  assert (∀ k, k ∈ Pool.tokens s → (k < nworker)%nat) as Hlt.
  { intros k Hk. apply Htok, lookup_lt_Some in Hk. lia. }
  split.
  - split; [done |]. intros k Hk. split; [by apply Hlt |].
    split; [by apply Htok |]. apply (Hdr k). right. by apply Htok.
  - intros Hclosed. specialize (Hsync (Hout Hclosed)).
    assert (∀ k, (k < nworker)%nat → k ∈ Pool.tokens s) as Hall.
    { apply tokens_complete; [done | done | lia]. }
    assert (Forall (λ ws, ws = Pool.Gone) (Pool.workers s)) as Hgone.
    { apply Forall_lookup. intros k ws Hk.
      assert (k ∈ Pool.tokens s) as Hin.
      { apply Hall. apply lookup_lt_Some in Hk. lia. }
      apply Htok in Hin. congruence. }
    assert (Pool.crashed s = false) as Hnc.
    { destruct (Pool.crashed s); [| done].
      destruct (Hcrash eq_refl) as (k & ws & Hk & Hne).
      by eapply Forall_lookup_1 in Hgone. }
    split; [done |]. split; [lia |]. split; [done |]. split; [done |].
    split; [done |]. split.
    + rewrite <- Hsent.
      assert (Pool.pending_all (Pool.workers s) = []) as ->; [| by rewrite app_nil_r].
      unfold Pool.pending_all. clear -Hgone.
      induction Hgone as [|ws wss -> _ IH]; [done | by simpl].
    + intros Hpos.
      destruct (Hdr 0%nat) as [Hic Hin].
      { right. apply Htok, Hall. lia. }
      split; [done |]. split; [done |].
      by rewrite (Hfed Hnc), Hin, app_nil_r.
Qed.

(** ** The retrieval workers *)

Section worker_facts.

Variable opts_date opts_ddir : string.
Variable iget : string → string → os.fs → Status * os.fs.
Variable read_tgz : string → option tar.stream.

Local Abbreviation download := (downloadDicom opts_date opts_ddir iget read_tgz).
Local Abbreviation worker := (retrieve_worker opts_date opts_ddir iget read_tgz).
Local Abbreviation item := (retrieve_item opts_date opts_ddir iget read_tgz).

(** The loop of a worker runs its rounds one after the other. *)
Lemma retrieve_worker_app pre post out w :
  worker (pre ++ post) out w =
  match worker pre out w with
  | Some (out1, w1) => worker post out1 w1
  | None => None
  end.
Proof.
  revert out w. induction pre as [|f pre IH]; intros out w; simpl; [done |].
  destruct (download f w) as [[s [e|]|] w']; by rewrite ?IH.
Qed.

Lemma retrieve_worker_error f post out w s e w' :
  download f w = (Return s (Some e), w') →
  worker (f :: post) out w = worker post out (log LError "" (Some e) w').
Proof. intros H. simpl. by rewrite H. Qed.

(** The loop ends early only by a panic of [downloadDicom]. *)
Lemma retrieve_worker_panic files out w :
  worker files out w = None ↔
  ∃ pre f post out1 w1,
    files = pre ++ f :: post ∧ worker pre out w = Some (out1, w1)
    ∧ fst (download f w1) = Panic.
Proof.
  split.
  - revert out w. induction files as [|f files IH]; intros out w; simpl; [done |].
    destruct (download f w) as [[s [e|]|] w'] eqn:Hd.
    + intros (pre & g & post & out1 & w1 & -> & Hpre & Hp)%IH.
      exists (f :: pre), g, post, out1, w1. simpl. by rewrite Hd.
    + intros (pre & g & post & out1 & w1 & -> & Hpre & Hp)%IH.
      exists (f :: pre), g, post, out1, w1. simpl. by rewrite Hd.
    + intros _. exists [], f, files, out, w. by rewrite Hd.
  - intros (pre & f & post & out1 & w1 & -> & Hpre & Hp).
    rewrite retrieve_worker_app, Hpre. simpl.
    by destruct (download f w1) as [[s [e|]|] w']; simplify_eq/=.
Qed.

(** In the pool, a round that ends in an error leaves the worker at its
    receive and the pool running. *)
Lemma retrieve_item_error_step nworker cap_in cap_out k f rest
    (st : @Pool.state string string world) s e w' :
  Pool.workers st !! k = Some Pool.Idle →
  Pool.input st = f :: rest →
  Pool.crashed st = false →
  download f (Pool.shared st) = (Return s (Some e), w') →
  Pool.step item nworker cap_in cap_out (Pool.Receive k) st =
  Some (Pool.State rest (Pool.input_closed st) (Pool.workers st)
          (log LError "" (Some e) w') (Pool.i st) (Pool.sync_closed st)
          (Pool.output st) (Pool.output_closed st) false
          (Pool.fed st) (Pool.taken st ++ [(f, [])]) (Pool.sent st)
          (Pool.tokens st)).
Proof.
  intros Hk Hin Hcr Hd. unfold Pool.step, retrieve_item, Pool.set_worker.
  rewrite Hcr, Hk, Hin, Hd. by rewrite list_insert_id.
Qed.

End worker_facts.

(** C9.  When [downloadDicom] returns an error for a file name, the worker
    sends nothing on chanDicoms for it, logs the error and goes on with the
    names that follow; the loop of a worker ends before the channel is
    closed only when [downloadDicom] panics; and in the pool the worker is
    back at its receive, the other workers and the channels untouched. *)
Theorem item_error_isolation (opts_date opts_ddir : string)
    (iget : string → string → os.fs → Status * os.fs)
    (read_tgz : string → option tar.stream) :
  (∀ pre f post out w out1 w1 s e w2,
     retrieve_worker opts_date opts_ddir iget read_tgz pre out w = Some (out1, w1) →
     downloadDicom opts_date opts_ddir iget read_tgz f w1 = (Return s (Some e), w2) →
     retrieve_worker opts_date opts_ddir iget read_tgz (pre ++ f :: post) out w =
     retrieve_worker opts_date opts_ddir iget read_tgz post out1
       (log LError "" (Some e) w2))
  ∧ (∀ files out w,
       retrieve_worker opts_date opts_ddir iget read_tgz files out w = None ↔
       ∃ pre f post out1 w1,
         files = pre ++ f :: post
         ∧ retrieve_worker opts_date opts_ddir iget read_tgz pre out w = Some (out1, w1)
         ∧ fst (downloadDicom opts_date opts_ddir iget read_tgz f w1) = Panic)
  ∧ (∀ nworker cap_in cap_out k f rest (st : @Pool.state string string world) s e w',
       Pool.workers st !! k = Some Pool.Idle →
       Pool.input st = f :: rest →
       Pool.crashed st = false →
       downloadDicom opts_date opts_ddir iget read_tgz f (Pool.shared st) =
         (Return s (Some e), w') →
       Pool.step (retrieve_item opts_date opts_ddir iget read_tgz)
         nworker cap_in cap_out (Pool.Receive k) st =
       Some (Pool.State rest (Pool.input_closed st) (Pool.workers st)
               (log LError "" (Some e) w') (Pool.i st) (Pool.sync_closed st)
               (Pool.output st) (Pool.output_closed st) false
               (Pool.fed st) (Pool.taken st ++ [(f, [])]) (Pool.sent st)
               (Pool.tokens st))).
Proof.
  split; [| split].
  - intros pre f post out w out1 w1 s e w2 Hpre Hd.
    rewrite retrieve_worker_app, Hpre. by eapply retrieve_worker_error.
  - apply retrieve_worker_panic.
  - intros. by eapply retrieve_item_error_step.
Qed.

(** ** Examples: the theorems at sample inputs *)

Lemma dedup_at_most_once_witness :
  Dedup.step (Dedup.run sample_events)
    (Dedup.Stdout "/raw/sub-01/ses-mri01/003-bold") = Dedup.run sample_events
  ∧ filter (λ n, MatchString_series n = false)
      (Dedup.forwarded (Dedup.run sample_events)) =
    filter (λ n, MatchString_series n = false) (Dedup.stdout_lines sample_events).
Proof.
  split.
  - apply (dedup_at_most_once sample_events); reflexivity.
  - apply (dedup_at_most_once sample_events). reflexivity.
Defined.

Lemma path_mapping_witness :
  len "20240101" = 8
  ∧ strings.Contains sample_remote "20240101" = true
  ∧ ∃ pre rest,
      sample_remote = pre +:+ "20240101" +:+ rest
      ∧ strings.Index sample_remote "20240101" = len pre
      ∧ w_cmds (snd (downloadDicom "20240101" "/data" (sample_iget "tgz-three")
                       sample_read_tgz sample_remote (World ∅ [] []))) =
        ["iget"; "-f"; sample_remote;
         filepath.Join ["/data"; "20240101"; rest]] :: [].
Proof.
  split; [reflexivity |]. split; [reflexivity |].
  destruct (path_mapping "20240101" "/data" (sample_iget "tgz-three")
              sample_read_tgz sample_remote (World ∅ [] []) eq_refl eq_refl)
    as [(pre & rest & Hp & Hi & H) _].
  exists pre, rest. split; [exact Hp |]. split; [exact Hi |].
  assert (rest = "/001-localizer/a.tar.gz") as ->.
  { pose proof (slice_from_app pre ("20240101" +:+ rest)) as Hs.
    rewrite <- Hp, <- Hi in Hs. vm_compute in Hs.
    injection Hs as Hs. symmetry. exact Hs. }
  exact H.
Defined.

Lemma path_resolution_failure_witness :
  strings.Contains "/rdm/di/dccn/raw/19991231/001-localizer/a.tar.gz" "20240101" = false
  ∧ downloadDicom "20240101" "/data" (sample_iget "tgz-three") sample_read_tgz
      "/rdm/di/dccn/raw/19991231/001-localizer/a.tar.gz" (World ∅ [] []) =
    (Return "" (Some (ErrUnknownPath "/rdm/di/dccn/raw/19991231/001-localizer/a.tar.gz")),
     World ∅ [] []).
Proof.
  split; [reflexivity |].
  apply (path_resolution_failure "20240101" "/data" (sample_iget "tgz-three")
           sample_read_tgz). reflexivity.
Defined.

(** The archive of the sample remote name is fetched to the sample path. *)
Lemma sample_fetched data :
  fetched "20240101" "/data" (sample_iget data) sample_remote sample_loc
    (World ∅ [] [])
    (<[sample_loc := os.File data 420]>
       (os.MkdirAll "/data/20240101/001-localizer" ∅).2).
Proof.
  exists "/001-localizer/a.tar.gz", (os.MkdirAll "/data/20240101/001-localizer" ∅).2,
    {| Exit := 0; Error := None |}.
  repeat split; try reflexivity. vm_compute. discriminate.
Defined.

Lemma extract_roundtrip_witness :
  Extract sample_read_tgz "/d/a.tar.gz" (sample_world "tgz-three") =
    (Return "/d/00001.IMA" None,
     World {[ "/d" := os.Directory;
              "/d/00001.IMA" := os.File "DICM-first-slice" 420 ]} []
       [Log LDebug "DICOM file extracted: /d/00001.IMA" None])
  ∧ fst (downloadDicom "20240101" "/data" (sample_iget "tgz-three")
           sample_read_tgz sample_remote (World ∅ [] [])) =
    Return "/data/20240101/001-localizer/00001.IMA" None.
Proof.
  pose proof (extract_roundtrip "20240101" "/data" (sample_iget "tgz-three")
                sample_read_tgz "tgz-three" 420 sample_dir
                (sample_A "001-localizer/00001.IMA") sample_B tar.EOF
                eq_refl eq_refl eq_refl eq_refl) as [HE HD].
  split.
  - rewrite (HE "/d/a.tar.gz" (sample_world "tgz-three")); reflexivity.
  - apply (HD sample_remote sample_loc (World ∅ [] []) _
             (sample_fetched "tgz-three")); try reflexivity.
    vm_compute. discriminate.
Defined.

Lemma empty_archive_witness :
  Extract sample_read_tgz "/d/a.tar.gz" (sample_world "tgz-dirs") =
    (Return "" (Some (ErrEmptyArchive "/d/a.tar.gz")),
     World {[ "/d" := os.Directory ]} [] [])
  ∧ fst (downloadDicom "20240101" "/data" (sample_iget "tgz-dirs")
           sample_read_tgz sample_remote (World ∅ [] [])) =
    Return "" (Some (ErrEmptyArchive sample_loc)).
Proof.
  assert (Forall (λ h, tar.Typeflag h ≠ tar.TypeReg) [sample_dir; sample_dir]) as Hd.
  { repeat constructor; vm_compute; discriminate. }
  pose proof (empty_archive "20240101" "/data" (sample_iget "tgz-dirs")
                sample_read_tgz "tgz-dirs" 420 [sample_dir; sample_dir]
                eq_refl Hd) as [HE HD].
  split.
  - rewrite (HE "/d/a.tar.gz" (sample_world "tgz-dirs")); reflexivity.
  - rewrite (HD sample_remote sample_loc (World ∅ [] []) _
               (sample_fetched "tgz-dirs")); reflexivity.
Defined.

Lemma archive_removed_witness :
  w_fs (snd (Extract sample_read_tgz "/d/a.tar.gz" (sample_world "tgz-damaged")))
    !! "/d/a.tar.gz" = None
  ∧ w_fs (snd (downloadDicom "20240101" "/data" (sample_iget "tgz-damaged")
                 sample_read_tgz sample_remote (World ∅ [] []))) !! sample_loc = None.
Proof.
  pose proof (archive_removed "20240101" "/data" (sample_iget "tgz-damaged")
                sample_read_tgz "tgz-damaged" 420 ([sample_dir], tar.Damaged)
                eq_refl) as [HE HD].
  split.
  - apply (HE "/d/a.tar.gz" (sample_world "tgz-damaged")). reflexivity.
  - apply (HD sample_remote sample_loc (World ∅ [] []) _
             (sample_fetched "tgz-damaged")). reflexivity.
Defined.

Lemma item_error_isolation_witness :
  retrieve_worker "20240101" "/data" (sample_iget "tgz-three") sample_read_tgz
    ([] ++ "/rdm/di/dccn/raw/19991231/a.tar.gz" :: [sample_remote])
    [] (World ∅ [] []) =
  retrieve_worker "20240101" "/data" (sample_iget "tgz-three") sample_read_tgz
    [sample_remote] []
    (log LError "" (Some (ErrUnknownPath "/rdm/di/dccn/raw/19991231/a.tar.gz"))
       (World ∅ [] [])).
Proof.
  apply (proj1 (item_error_isolation "20240101" "/data" (sample_iget "tgz-three")
                  sample_read_tgz) [] _ [sample_remote] [] (World ∅ [] []) []
           (World ∅ [] []) "" _ (World ∅ [] [])); reflexivity.
Defined.

Lemma completion_signaling_witness :
  match Pool.run (retrieve_item "20240101" "/data" (sample_iget "tgz-three")
                    sample_read_tgz)
          MAX_DOWNLOAD_W (2 * MAX_DOWNLOAD_W) MAX_DOWNLOAD_W
          sample_schedule (Pool.init MAX_DOWNLOAD_W (World ∅ [] [])) with
  | Some s =>
      Pool.output_closed s = true ∧ Pool.i s = MAX_DOWNLOAD_W
      ∧ Pool.fed s = fst <$> Pool.taken s
  | None => False
  end.
Proof.
  pose proof (completion_signaling
                (retrieve_item "20240101" "/data" (sample_iget "tgz-three")
                   sample_read_tgz)
                MAX_DOWNLOAD_W (2 * MAX_DOWNLOAD_W) MAX_DOWNLOAD_W
                sample_schedule (World ∅ [] [])) as H.
  destruct (Pool.run _ _ _ _ _ _) as [s|] eqn:Hrun.
  - assert (Pool.output_closed s = true) as Hc.
    { apply (f_equal (λ o, match o with
                           | Some s => Pool.output_closed s
                           | None => false end)) in Hrun.
      vm_compute in Hrun. symmetry. exact Hrun. }
    destruct (H s eq_refl) as [_ Hclosed].
    destruct (Hclosed Hc) as (Hi & _ & _ & _ & _ & _ & Hfed).
    split; [exact Hc |]. split; [exact Hi |].
    apply Hfed. unfold MAX_DOWNLOAD_W. lia.
  - vm_compute in Hrun. discriminate.
Defined.

(** * Further properties *)

(** ** The Collection Deduplicator: what is forwarded, and when it ends *)

Lemma dedup_closed_stuck s evs :
  Dedup.closed s = true → foldl Dedup.step s evs = s.
Proof.
  intros Hc. induction evs as [|ev evs IH]; [done |].
  simpl. unfold Dedup.step at 2. by rewrite Hc.
Qed.

Lemma dedup_step_Stdout_open s line :
  Dedup.closed s = false →
  Dedup.closed (Dedup.step s (Dedup.Stdout line)) = false.
Proof.
  intros Hc. unfold Dedup.step. rewrite Hc.
  destruct (MatchString_series line); [destruct (negb _) |]; done.
Qed.

Lemma dedup_keep_first evs s keys :
  Dedup.closed (foldl Dedup.step s evs) = false →
  (∀ k, Dedup.seen (Dedup.collMap s) k = true ↔ k ∈ keys) →
  Dedup.chanColls (foldl Dedup.step s evs) =
  rev (keep_first keys (Dedup.stdout_lines evs)) ++ Dedup.chanColls s.
Proof.
  revert s keys. induction evs as [|ev evs IH]; intros s keys Hopen Hkeys; [done |].
  destruct (Dedup.closed s) eqn:Hc.
  { by rewrite dedup_closed_stuck, Hc in Hopen. }
  simpl in Hopen. simpl foldl.
  destruct ev as [line|line|st|empty].
  - change (Dedup.stdout_lines (Dedup.Stdout line :: evs))
      with (line :: Dedup.stdout_lines evs).
    simpl keep_first. revert Hopen. unfold Dedup.step at 2 4. rewrite Hc.
    destruct (MatchString_series line) eqn:Hm.
    + destruct (Dedup.seen (Dedup.collMap s) (filepath.Dir line)) eqn:Hs; simpl negb; cbv iota.
      * intros Hopen. rewrite bool_decide_eq_true_2 by (by apply Hkeys).
        by apply IH.
      * intros Hopen. rewrite bool_decide_eq_false_2.
        2: { rewrite <- Hkeys. congruence. }
        rewrite (IH _ (filepath.Dir line :: keys) Hopen).
        -- simpl. by rewrite <- app_assoc.
        -- intros k. simpl. rewrite seen_insert, elem_of_cons, orb_true_iff.
           rewrite bool_decide_eq_true, Hkeys.
           split; (intros [H|H]; [left; by symmetry | by right]).
    + intros Hopen. rewrite (IH _ keys Hopen); [| done].
      simpl. by rewrite <- app_assoc.
  - change (Dedup.stdout_lines (Dedup.Stderr line :: evs))
      with (Dedup.stdout_lines evs).
    revert Hopen. unfold Dedup.step at 2 4. rewrite Hc. intros Hopen.
    by rewrite (IH _ keys Hopen).
  - change (Dedup.stdout_lines (Dedup.Exited st :: evs))
      with (Dedup.stdout_lines evs).
    revert Hopen. unfold Dedup.step at 2 4. rewrite Hc. intros Hopen.
    by rewrite (IH _ keys Hopen).
  - change (Dedup.stdout_lines (Dedup.Default empty :: evs))
      with (Dedup.stdout_lines evs).
    revert Hopen. unfold Dedup.step at 2 4. rewrite Hc.
    destruct ((Dedup.m s =? 1) && empty) eqn:Hb.
    + intros Hopen. by rewrite dedup_closed_stuck in Hopen.
    + intros Hopen. by rewrite (IH _ keys Hopen).
Qed.

(** X1.  While the loop runs, what it has sent on chanColls is, in order, every
    name that does not match the series pattern and, of the series names,
    the first received of each key. *)
Theorem dedup_first_wins (evs : list Dedup.event) :
  Dedup.closed (Dedup.run evs) = false →
  Dedup.forwarded (Dedup.run evs) = keep_first [] (Dedup.stdout_lines evs).
Proof.
  intros Hopen. unfold Dedup.forwarded, Dedup.run in *.
  rewrite (dedup_keep_first evs Dedup.init [] Hopen).
  - by rewrite app_nil_r, rev_involutive.
  - intros k. split; [done | by intros H%elem_of_nil].
Qed.

Lemma dedup_seen_set_step s ev :
  Dedup.collMap s = gset_to_gmap true (list_to_set (forwarded_keys s)) →
  Dedup.collMap (Dedup.step s ev) =
  gset_to_gmap true (list_to_set (forwarded_keys (Dedup.step s ev))).
Proof.
  intros H. unfold Dedup.step. destruct (Dedup.closed s); [done |].
  destruct ev as [line|line|st|empty]; try done.
  - destruct (MatchString_series line) eqn:Hm.
    + destruct (negb _); [| done]. unfold forwarded_keys. simpl.
      rewrite filter_cons_True by done. rewrite fmap_cons, list_to_set_cons.
      rewrite H. unfold forwarded_keys.
      by rewrite <- gset_to_gmap_union_singleton.
    + unfold forwarded_keys. simpl. rewrite filter_cons_False; [done | congruence].
  - by destruct ((Dedup.m s =? 1) && empty).
Qed.

(** X2.  The Seen-Set holds exactly the keys of the series names sent on
    chanColls, each with the value [true]. *)
Theorem dedup_seen_set (evs : list Dedup.event) :
  Dedup.collMap (Dedup.run evs) =
  gset_to_gmap true (list_to_set (forwarded_keys (Dedup.run evs))).
Proof.
  induction evs as [|ev evs IH] using rev_ind.
  - unfold forwarded_keys. simpl. by rewrite gset_to_gmap_empty.
  - rewrite run_snoc. by apply dedup_seen_set_step.
Qed.

Lemma dedup_m_exited evs :
  Dedup.m (Dedup.run evs) = 1 → ∃ pre st post, evs = pre ++ Dedup.Exited st :: post.
Proof.
  induction evs as [|ev evs IH] using rev_ind; [done |].
  rewrite run_snoc. intros Hm.
  destruct (decide (Dedup.m (Dedup.run evs) = 1)) as [H1|H1].
  - apply IH in H1 as (pre & st & post & ->).
    exists pre, st, (post ++ [ev]). by rewrite <- app_assoc.
  - revert Hm. unfold Dedup.step. destruct (Dedup.closed _); [done |].
    destruct ev as [line|line|st|empty]; simpl; try done.
    + by destruct (MatchString_series line); [destruct (negb _) |].
    + intros _. by exists evs, st, [].
    + by destruct (_ && empty).
Qed.

Lemma dedup_closed_after evs :
  Dedup.closed (Dedup.run evs) = true →
  ∃ pre st mid post,
    evs = pre ++ Dedup.Exited st :: mid ++ Dedup.Default true :: post.
Proof.
  induction evs as [|ev evs IH] using rev_ind; [done |].
  rewrite run_snoc. intros Hc.
  destruct (Dedup.closed (Dedup.run evs)) eqn:Hc0.
  - destruct (IH eq_refl) as (pre & st & mid & post & ->).
    exists pre, st, mid, (post ++ [ev]).
    by rewrite <- !app_assoc, <- !app_comm_cons, <- !app_assoc.
  - revert Hc. unfold Dedup.step. rewrite Hc0.
    destruct ev as [line|line|st|empty]; simpl; try congruence.
    + destruct (MatchString_series line); [destruct (negb _) |]; simpl; congruence.
    + destruct (Z.eqb_spec (Dedup.m (Dedup.run evs)) 1) as [Hm|Hm];
        destruct empty; simpl; try congruence.
      intros _. apply dedup_m_exited in Hm as (pre & st & post & ->).
      exists pre, st, post, []. by rewrite <- app_assoc.
Qed.

Lemma dedup_m_stays s evs :
  Dedup.m s = 1 → Dedup.m (foldl Dedup.step s evs) = 1.
Proof.
  revert s. induction evs as [|ev evs IH]; intros s Hm; [done |].
  simpl. apply IH. unfold Dedup.step. destruct (Dedup.closed s); [done |].
  destruct ev as [line|line|st|empty]; simpl; try done.
  - by destruct (MatchString_series line); [destruct (negb _) |].
  - by destruct (_ && empty).
Qed.

Lemma dedup_closes s st mid post :
  Dedup.closed
    (foldl Dedup.step s (Dedup.Exited st :: mid ++ Dedup.Default true :: post)) = true.
Proof.
  simpl. rewrite foldl_app. simpl.
  set (s1 := Dedup.step s (Dedup.Exited st)).
  assert (Dedup.closed s1 = true ∨ Dedup.m s1 = 1) as [Hc|Hm].
  { unfold s1, Dedup.step. destruct (Dedup.closed s) eqn:Hc; [by left | by right]. }
  - rewrite (dedup_closed_stuck s1 mid Hc).
    assert (Dedup.step s1 (Dedup.Default true) = s1) as ->.
    { unfold Dedup.step. by rewrite Hc. }
    by rewrite (dedup_closed_stuck s1 post Hc).
  - apply (dedup_m_stays _ mid) in Hm.
    set (s2 := foldl Dedup.step s1 mid) in *.
    assert (Dedup.closed (Dedup.step s2 (Dedup.Default true)) = true) as Hc.
    { unfold Dedup.step. destruct (Dedup.closed s2) eqn:Hc; [done |].
      by rewrite Hm. }
    by rewrite dedup_closed_stuck.
Qed.

(** X3.  The loop ends, and chanColls is closed, exactly when the exit status of
    the query has been received and, later, a round found both output
    streams empty; from then on nothing is received or sent any more. *)
Theorem dedup_close_protocol (evs : list Dedup.event) :
  (Dedup.closed (Dedup.run evs) = true ↔
   ∃ pre st mid post,
     evs = pre ++ Dedup.Exited st :: mid ++ Dedup.Default true :: post)
  ∧ (Dedup.closed (Dedup.run evs) = true →
     ∀ more, Dedup.run (evs ++ more) = Dedup.run evs).
Proof.
  split; [split |].
  - apply dedup_closed_after.
  - intros (pre & st & mid & post & ->). unfold Dedup.run.
    rewrite foldl_app. apply dedup_closes.
  - intros Hc more. unfold Dedup.run in *. rewrite foldl_app.
    by apply dedup_closed_stuck.
Qed.

(** ** The worker pool: what the protocol excludes, and what it conserves *)

Section pool_more.

Context {Item Res Store : Type}.
Variable work : Item → Store → option (list Res * Store).
Variable nworker cap_in cap_out : nat.

Local Abbreviation step := (Pool.step work nworker cap_in cap_out).
Local Abbreviation run := (Pool.run work nworker cap_in cap_out).
Local Abbreviation inv := (@Pool.inv Item Res Store nworker).

(** Once [waitWorkers] has closed chanSync, every worker has ended. *)
Lemma inv_sync_all_gone (s : Pool.state) :
  inv s → Pool.sync_closed s = true →
  Forall (λ ws, ws = Pool.Gone) (Pool.workers s).
Proof.
  intros [Hw Htok Honce Hcount Hsync Hout Hdr Hfed Hsent Hcrash] Hsc.
  specialize (Hsync Hsc).
  assert (∀ k, (k < nworker)%nat → k ∈ Pool.tokens s) as Hall.
  { apply tokens_complete; [done | | lia].
    intros k Hk. apply Htok, lookup_lt_Some in Hk. lia. }
  apply Forall_lookup. intros k ws Hk.
  assert (k ∈ Pool.tokens s) as Hin.
  { apply Hall. apply lookup_lt_Some in Hk. lia. }
  apply Htok in Hin. congruence.
Qed.

Lemma step_no_crash a (s s' : Pool.state) :
  (∀ x σ, work x σ ≠ None) →
  inv s → step a s = Some s' → Pool.crashed s' = false.
Proof.
  intros Htotal Hinv. unfold Pool.step.
  destruct (Pool.crashed s) eqn:Hcr; [done |].
  destruct a as [x| |k|k|k| | |].
  - destruct (_ && _); by intros [= <-].
  - destruct (Pool.input_closed s); by intros [= <-].
  - destruct (Pool.workers s !! k) as [[| | |]|]; try done.
    destruct (Pool.input s) as [|x rest].
    + destruct (Pool.input_closed s); by intros [= <-].
    + destruct (work x (Pool.shared s)) as [[outs σ]|] eqn:Hw; [by intros [= <-] |].
      by apply Htotal in Hw.
  - destruct (Pool.workers s !! k) as [[|[|o rest]| |]|] eqn:Hk; try done.
    destruct (Pool.output_closed s) eqn:Hoc.
    + (* the output channel is closed: no worker is left to send *)
      pose proof (inv_sync_all_gone s Hinv (Pool.inv_output _ s Hinv Hoc)) as Hg.
      eapply Forall_lookup_1 in Hg; [| exact Hk]. done.
    + case_bool_decide; by intros [= <-].
  - destruct (Pool.workers s !! k) as [[| | |]|]; try done.
    destruct (_ && _); by intros [= <-].
  - destruct (_ || _); by intros [= <-].
  - destruct (_ && _); by intros [= <-].
  - destruct (Pool.output s); by intros [= <-].
Qed.

Lemma run_no_crash sched (s s' : Pool.state) :
  (∀ x σ, work x σ ≠ None) →
  inv s → Pool.crashed s = false → run sched s = Some s' →
  Pool.crashed s' = false.
Proof.
  intros Htotal. revert s. induction sched as [|a sched IH]; intros s Hinv Hcr; simpl.
  - by intros [= <-].
  - destruct (step a s) as [s1|] eqn:Hs; [| done].
    apply IH; [by eapply inv_step | by eapply step_no_crash].
Qed.

End pool_more.

(** X4.  Under every schedule, the protocol itself never makes a worker panic:
    once chanSync is closed every worker has ended (none is left to send a
    token on the closed channel), and when no round of the workers panics,
    no state is crashed (no worker sends on the closed output channel). *)
Theorem pool_no_send_on_closed {Item Res Store : Type}
    (work : Item → Store → option (list Res * Store))
    (nworker cap_in cap_out : nat) (sched : list Pool.action) (σ : Store)
    (s : Pool.state) :
  Pool.run work nworker cap_in cap_out sched (Pool.init nworker σ) = Some s →
  (Pool.sync_closed s = true → Forall (λ ws, ws = Pool.Gone) (Pool.workers s))
  ∧ ((∀ x σ', work x σ' ≠ None) → Pool.crashed s = false).
Proof.
  intros Hrun.
  pose proof (inv_run work nworker cap_in cap_out _ _ _ Hrun (inv_init nworker σ))
    as Hinv.
  split.
  - by apply (inv_sync_all_gone nworker).
  - intros Htotal.
    by eapply (run_no_crash work nworker cap_in cap_out sched _ s Htotal
                 (inv_init nworker σ)).
Qed.

(** X5.  Under every schedule, as long as no worker has panicked: the items sent
    on the input channel are, in order, those received followed by those
    still buffered (none lost, none received twice); and the results of the
    items received are those sent on the output channel together with
    those the workers still hold. *)
Theorem pool_conservation {Item Res Store : Type}
    (work : Item → Store → option (list Res * Store))
    (nworker cap_in cap_out : nat) (sched : list Pool.action) (σ : Store)
    (s : Pool.state) :
  Pool.run work nworker cap_in cap_out sched (Pool.init nworker σ) = Some s →
  (Pool.crashed s = false →
   Pool.fed s = (fst <$> Pool.taken s) ++ Pool.input s)
  ∧ Pool.sent s ++ Pool.pending_all (Pool.workers s)
    ≡ₚ concat (snd <$> Pool.taken s).
Proof.
  intros Hrun.
  by destruct (inv_run work nworker cap_in cap_out _ _ _ Hrun (inv_init nworker σ)).
Qed.

(** ** Package [path/filepath]: cleaned absolute paths *)

Lemma elements_nosep e : nosep e → filepath.elements e = [e].
Proof.
  unfold nosep. induction e as [|c e IH]; simpl; [done |].
  intros [Hc He]%andb_prop. apply negb_true_iff in Hc. rewrite Hc.
  by rewrite (IH He).
Qed.

Lemma elements_app_sep l r :
  filepath.elements (l ++ "/"%char :: r) = filepath.elements l ++ filepath.elements r.
Proof.
  induction l as [|c l IH]; [done |].
  simpl. rewrite IH. destruct (filepath.IsPathSeparator c); [done |].
  pose proof (elements_nonempty l). by destruct (filepath.elements l).
Qed.

Lemma elements_all_nosep l : Forall nosep (filepath.elements l).
Proof.
  induction l as [|c l IH]; simpl; [by repeat constructor |].
  destruct (filepath.IsPathSeparator c) eqn:Hc; [by constructor |].
  destruct (filepath.elements l) as [|e es]; [by repeat constructor; unfold nosep; simpl; rewrite Hc |].
  apply Forall_cons in IH as [He Hes]. constructor; [| done].
  unfold nosep in *. simpl. by rewrite Hc.
Qed.

Lemma join_sep_snoc es e :
  es ≠ [] → filepath.join_sep (es ++ [e]) = filepath.join_sep es ++ "/"%char :: e.
Proof.
  induction es as [|x es IH]; [done |]. intros _.
  destruct es as [|y es]; [done |].
  change (filepath.join_sep ((x :: y :: es) ++ [e]))
    with (x ++ "/"%char :: filepath.join_sep ((y :: es) ++ [e])).
  rewrite IH by done.
  change (filepath.join_sep (x :: y :: es))
    with (x ++ "/"%char :: filepath.join_sep (y :: es)).
  by rewrite <- app_assoc.
Qed.

Lemma join_elements es :
  es ≠ [] → Forall nosep es → filepath.elements (filepath.join_sep es) = es.
Proof.
  induction es as [|x es IH]; [done |]. intros _ [Hx Hes]%Forall_cons.
  destruct es as [|y es]; [by apply elements_nosep |].
  change (filepath.join_sep (x :: y :: es))
    with (x ++ "/"%char :: filepath.join_sep (y :: es)).
  rewrite elements_app_sep, elements_nosep, IH by done. done.
Qed.

Lemma clean_elem_real rooted out e :
  realb e → filepath.clean_elem rooted out e = e :: out.
Proof.
  intros (H1 & H2 & H3 & _). unfold filepath.clean_elem.
  by rewrite !decide_False.
Qed.

Lemma foldl_clean_real rooted out es :
  Forall realb es → foldl (filepath.clean_elem rooted) out es = rev es ++ out.
Proof.
  revert out. induction es as [|e es IH]; intros out; [done |].
  intros [He Hes]%Forall_cons. simpl.
  rewrite clean_elem_real, IH by done. by rewrite <- app_assoc.
Qed.

(** At the root, the loop of [Clean] keeps real elements only. *)
Lemma foldl_clean_rooted_real out es :
  Forall realb out → Forall nosep es →
  Forall realb (foldl (filepath.clean_elem true) out es).
Proof.
  revert out. induction es as [|e es IH]; intros out Hout; [done |].
  intros [He Hes]%Forall_cons. simpl. apply IH; [| done].
  unfold filepath.clean_elem.
  destruct (decide (e = [])); [done |].
  destruct (decide (e = filepath.dot)); [done |].
  destruct (decide (e = filepath.dotdot)).
  - destruct out as [|top out']; [done |].
    apply Forall_cons in Hout as [Htop Hout'].
    by destruct (decide (top = filepath.dotdot)); [constructor |].
  - by constructor.
Qed.

Lemma realb_nosep es : Forall realb es → Forall nosep es.
Proof. intros H. eapply Forall_impl; [exact H |]. by intros e (_ & _ & _ & ?). Qed.

(** A rooted path of real elements is clean. *)
Lemma clean_bytes_abs es :
  Forall realb es →
  filepath.clean_bytes ("/"%char :: filepath.join_sep es) =
  "/"%char :: filepath.join_sep es.
Proof.
  intros Hes. unfold filepath.clean_bytes. simpl.
  change (filepath.IsPathSeparator "/") with true. cbv iota.
  f_equal. destruct es as [|e es'].
  - done.
  - rewrite join_elements by (done || by apply realb_nosep).
    change (filepath.clean_elem true [] []) with (@nil (list ascii)).
    by rewrite foldl_clean_real, app_nil_r, rev_involutive.
Qed.

(** Cleaning a rooted path gives a rooted path of real elements. *)
Lemma clean_bytes_rooted p :
  ∃ es, Forall realb es ∧
        filepath.clean_bytes ("/"%char :: p) = "/"%char :: filepath.join_sep es.
Proof.
  exists (rev (foldl (filepath.clean_elem true) [] (filepath.elements ("/"%char :: p)))).
  split; [| done].
  apply Forall_rev, foldl_clean_rooted_real; [done | apply elements_all_nosep].
Qed.

(** Appending a real element to a rooted clean path. *)
Lemma clean_bytes_abs_snoc es f :
  Forall realb es → realb f →
  filepath.clean_bytes (("/"%char :: filepath.join_sep es) ++ "/"%char :: f) =
  "/"%char :: filepath.join_sep (es ++ [f]).
Proof.
  intros Hes Hf.
  destruct es as [|e es'].
  - simpl. unfold filepath.clean_bytes. simpl.
    change (filepath.IsPathSeparator "/") with true. cbv iota.
    rewrite elements_nosep by apply Hf. simpl.
    unfold filepath.clean_elem at 2 3. rewrite !decide_True by done.
    by rewrite clean_elem_real.
  - rewrite <- app_comm_cons, <- join_sep_snoc by done.
    apply clean_bytes_abs. apply Forall_app. split; [done | by constructor].
Qed.

Lemma back_to_separator_last l f :
  nosep f →
  rev (filepath.back_to_separator (rev (l ++ "/"%char :: f))) = l ++ ["/"%char].
Proof.
  intros Hf. rewrite rev_app_distr. simpl. rewrite <- app_assoc. simpl.
  rewrite back_to_separator_app by (by unfold nosep in Hf; rewrite forallb_rev).
  simpl. by rewrite rev_involutive.
Qed.

Lemma dir_bytes_abs es f :
  Forall realb es → realb f →
  filepath.clean_bytes
    (rev (filepath.back_to_separator
            (rev ("/"%char :: filepath.join_sep (es ++ [f]))))) =
  "/"%char :: filepath.join_sep es.
Proof.
  intros Hes Hf. destruct es as [|e es'].
  - change ("/"%char :: filepath.join_sep ([] ++ [f])) with ([] ++ "/"%char :: f).
    rewrite (back_to_separator_last [] f) by apply Hf. done.
  - rewrite join_sep_snoc by done.
    rewrite (app_comm_cons _ _ "/"%char).
    rewrite back_to_separator_last by apply Hf.
    rewrite clean_bytes_snoc_sep by done.
    by apply clean_bytes_abs.
Qed.

Lemma last_element_app f r :
  nosep f → filepath.last_element (rev f ++ "/"%char :: r) = rev f.
Proof.
  unfold nosep. rewrite <- forallb_rev. generalize (rev f). clear f.
  intros f. induction f as [|c f IH]; simpl; [done |].
  intros [Hc Hf]%andb_prop. apply negb_true_iff in Hc. rewrite Hc.
  by rewrite IH.
Qed.

Lemma strip_separators_real f r :
  realb f → filepath.strip_separators (rev f ++ r) = rev f ++ r.
Proof.
  intros (Hne & _ & _ & Hf). unfold nosep in Hf. rewrite <- forallb_rev in Hf.
  assert (rev f ≠ []) as Hr.
  { intros H. apply Hne. by rewrite <- (rev_involutive f), H. }
  destruct (rev f) as [|c f']; [done |]. simpl in *.
  apply andb_prop in Hf as [Hc _]. apply negb_true_iff in Hc. by rewrite Hc.
Qed.

Lemma base_bytes_abs es f :
  realb f →
  rev (filepath.last_element
         (filepath.strip_separators
            (rev ("/"%char :: filepath.join_sep (es ++ [f]))))) = f.
Proof.
  intros Hf.
  assert (∃ l, "/"%char :: filepath.join_sep (es ++ [f]) = l ++ "/"%char :: f)
    as [l ->].
  { destruct es as [|e es']; [by exists [] |].
    rewrite join_sep_snoc by done. eexists. by rewrite app_comm_cons. }
  rewrite rev_app_distr. simpl. rewrite <- app_assoc. simpl.
  rewrite strip_separators_real by done.
  rewrite last_element_app by apply Hf. apply rev_involutive.
Qed.

Lemma real_elem_realb e : real_elem e = true → realb (bytes_of e).
Proof.
  unfold real_elem, realb, no_separator, nosep.
  rewrite !andb_true_iff, !negb_true_iff, !bool_decide_eq_false.
  intros [[[H1 H2] H3] H4]. repeat split; [..| done].
  - intros H. apply H1. by apply bytes_of_inj.
  - intros H. apply H2. by apply bytes_of_inj.
  - intros H. apply H3. by apply bytes_of_inj.
Qed.

Lemma realb_real_elem e : realb e → real_elem (string_of e) = true.
Proof.
  unfold real_elem, realb, no_separator, nosep.
  rewrite !andb_true_iff, !negb_true_iff, !bool_decide_eq_false, bytes_of_string_of.
  intros (H1 & H2 & H3 & H4). repeat split; [..| done].
  - intros H. apply H1. by rewrite <- (bytes_of_string_of e), H.
  - intros H. apply H2. by rewrite <- (bytes_of_string_of e), H.
  - intros H. apply H3. by rewrite <- (bytes_of_string_of e), H.
Qed.

Lemma Forall_real_bytes es :
  Forall (λ e, real_elem e = true) es → Forall realb (bytes_of <$> es).
Proof. intros H. apply Forall_fmap. eapply Forall_impl; [exact H |]. apply real_elem_realb. Qed.

Lemma bytes_of_abs_path es :
  bytes_of (abs_path es) = "/"%char :: filepath.join_sep (bytes_of <$> es).
Proof. apply bytes_of_string_of. Qed.

Lemma Clean_abs_path es :
  Forall (λ e, real_elem e = true) es → filepath.Clean (abs_path es) = abs_path es.
Proof.
  intros H. unfold filepath.Clean. rewrite bytes_of_abs_path.
  by rewrite clean_bytes_abs by (by apply Forall_real_bytes).
Qed.

Lemma Dir_abs_path es f :
  Forall (λ e, real_elem e = true) (es ++ [f]) →
  filepath.Dir (abs_path (es ++ [f])) = abs_path es.
Proof.
  intros [Hes Hf]%Forall_app. rewrite Forall_singleton in Hf.
  unfold filepath.Dir. rewrite bytes_of_abs_path, fmap_app.
  change (bytes_of <$> [f]) with [bytes_of f].
  rewrite dir_bytes_abs; [done | by apply Forall_real_bytes | by apply real_elem_realb].
Qed.

Lemma Base_abs_path es f :
  real_elem f = true → filepath.Base (abs_path (es ++ [f])) = f.
Proof.
  intros Hf. unfold filepath.Base.
  change (abs_path (es ++ [f]))
    with (String "/"%char (string_of (filepath.join_sep (bytes_of <$> es ++ [f])))) at 1.
  cbv iota. rewrite bytes_of_abs_path, fmap_app.
  change (bytes_of <$> [f]) with [bytes_of f].
  rewrite base_bytes_abs by (by apply real_elem_realb).
  pose proof (real_elem_realb f Hf) as (Hne & _).
  destruct (bytes_of f) eqn:Hb; [done |]. by rewrite <- Hb, string_of_bytes_of.
Qed.

Lemma Join_abs_path es f :
  Forall (λ e, real_elem e = true) (es ++ [f]) →
  filepath.Join [abs_path es; f] = abs_path (es ++ [f]).
Proof.
  intros [Hes Hf]%Forall_app. rewrite Forall_singleton in Hf.
  unfold filepath.Join. rewrite decide_False by done.
  change (filepath.join_sep (bytes_of <$> [abs_path es; f]))
    with (bytes_of (abs_path es) ++ "/"%char :: bytes_of f).
  rewrite bytes_of_abs_path.
  rewrite clean_bytes_abs_snoc;
    [| by apply Forall_real_bytes | by apply real_elem_realb].
  unfold abs_path. by rewrite fmap_app.
Qed.

(** Joining onto an absolute first element gives a clean absolute path. *)
Lemma Join_rooted d more :
  strings.HasPrefix d "/" = true →
  ∃ es, Forall (λ e, real_elem e = true) es ∧ filepath.Join (d :: more) = abs_path es.
Proof.
  intros Hd. apply HasPrefix_inv in Hd as [r ->].
  unfold filepath.Join. rewrite decide_False by done.
  assert (∃ p, filepath.join_sep (bytes_of <$> ("/" +:+ r) :: more) = "/"%char :: p)
    as [p ->].
  { rewrite fmap_cons, bytes_of_app. change (bytes_of "/") with ["/"%char].
    destruct (bytes_of <$> more); simpl; eauto. }
  destruct (clean_bytes_rooted p) as (es & Hes & ->).
  exists (string_of <$> es). split.
  - apply Forall_fmap. eapply Forall_impl; [exact Hes |]. apply realb_real_elem.
  - unfold abs_path. rewrite <- list_fmap_compose.
    assert (bytes_of ∘ string_of <$> es = es) as ->; [| done].
    clear. induction es as [|e es IH]; [done |].
    rewrite fmap_cons, IH. simpl. by rewrite bytes_of_string_of.
Qed.

Lemma Ext_loop_app r r' tail :
  filepath.Ext_loop (r ++ "/"%char :: r') tail = filepath.Ext_loop r tail.
Proof.
  revert tail. induction r as [|c r IH]; intros tail; simpl; [done |].
  destruct (filepath.IsPathSeparator c); [done |].
  destruct (Ascii.eqb c "."); [done | apply IH].
Qed.

(** The extension of a path is that of its last element. *)
Lemma Ext_last l f : filepath.Ext (string_of (l ++ "/"%char :: bytes_of f)) = filepath.Ext f.
Proof.
  unfold filepath.Ext. rewrite bytes_of_string_of, rev_app_distr.
  change (rev ("/"%char :: bytes_of f)) with (rev (bytes_of f) ++ ["/"%char]).
  rewrite <- app_assoc.
  change (["/"%char] ++ rev l) with ("/"%char :: rev l).
  by rewrite Ext_loop_app.
Qed.

Lemma clean_bytes_snoc_real l e :
  l ≠ [] → realb e →
  filepath.clean_bytes (l ++ "/"%char :: e) = e
  ∨ ∃ q, filepath.clean_bytes (l ++ "/"%char :: e) = q ++ "/"%char :: e.
Proof.
  intros Hl He. destruct l as [|c l]; [done |].
  unfold filepath.clean_bytes. rewrite <- app_comm_cons. cbv zeta.
  rewrite (app_comm_cons l _ c), elements_app_sep, foldl_app.
  rewrite (elements_nosep e) by apply He. cbn [foldl].
  rewrite clean_elem_real by done.
  generalize (foldl (filepath.clean_elem (filepath.IsPathSeparator c)) []
                (filepath.elements (c :: l))).
  intros st. cbn [rev].
  destruct (rev st) as [|x xs] eqn:Hst.
  - change (filepath.join_sep ([] ++ [e])) with e.
    destruct (filepath.IsPathSeparator c).
    + right. by exists [].
    + left. destruct He as (Hne & _). by destruct e.
  - rewrite join_sep_snoc by done.
    destruct (filepath.IsPathSeparator c).
    + right. eexists ("/"%char :: _). by rewrite <- app_comm_cons.
    + right. destruct (filepath.join_sep (x :: xs) ++ "/"%char :: e) eqn:Hj.
      * by destruct (filepath.join_sep (x :: xs)).
      * rewrite <- Hj. by eexists.
Qed.

(** The companion file has the extension ".sh". *)
Lemma Ext_cmd_sh dir : filepath.Ext (cmd_sh dir) = ".sh".
Proof.
  unfold cmd_sh, filepath.Join.
  destruct (decide (dir = "")) as [->|Hd]; [done |].
  change (filepath.join_sep (bytes_of <$> [dir; "cmd.sh"]))
    with (bytes_of dir ++ "/"%char :: bytes_of "cmd.sh").
  assert (bytes_of dir ≠ []) as Hne.
  { intros H. apply Hd. by apply bytes_of_inj. }
  assert (realb (bytes_of "cmd.sh")) as Hreal by (by repeat split).
  destruct (clean_bytes_snoc_real (bytes_of dir) (bytes_of "cmd.sh") Hne Hreal)
    as [-> | [q ->]]; [done |].
  by rewrite Ext_last.
Qed.

(** X7.  For an absolute local root the path computed from the remote name is a
    clean absolute path; when its extension is ".IMA" and it is
    [.../s/f], the element [s] (the series directory) is left out: the
    local path is [.../f], in the directory [...]. *)
Theorem local_path_session (opts_date opts_ddir rest : string) :
  strings.HasPrefix opts_ddir "/" = true →
  ∃ es,
    Forall (λ e, real_elem e = true) es
    ∧ filepath.Join [opts_ddir; opts_date; rest] = abs_path es
    ∧ (isImaFile (abs_path es) = false →
       local_path opts_date opts_ddir rest = abs_path es)
    ∧ (isImaFile (abs_path es) = true →
       ∀ es' s f, es = es' ++ [s; f] →
         local_path opts_date opts_ddir rest = abs_path (es' ++ [f])
         ∧ filepath.Dir (local_path opts_date opts_ddir rest) = abs_path es').
Proof.
  intros Hd. destruct (Join_rooted opts_ddir [opts_date; rest] Hd) as (es & Hes & HJ).
  exists es. split; [done |]. split; [done |]. unfold local_path. rewrite HJ.
  split; [by intros -> |].
  intros -> es' s f ->.
  assert (Forall (λ e, real_elem e = true) ((es' ++ [s]) ++ [f])) as Hes1
    by (by rewrite <- app_assoc).
  pose proof Hes1 as [[Hes' Hs]%Forall_app Hf]%Forall_app.
  rewrite Forall_singleton in Hf.
  rewrite (assoc_L (++) es' [s] [f] : es' ++ [s; f] = (es' ++ [s]) ++ [f]).
  rewrite Dir_abs_path, Dir_abs_path, Base_abs_path by (done || by apply Forall_app).
  assert (Forall (λ e, real_elem e = true) (es' ++ [f])) as Hes2
    by (apply Forall_app; split; [done | by constructor]).
  rewrite Join_abs_path by done. split; [done |]. by apply Dir_abs_path.
Qed.

(** ** The Retriever: failures, panics, and the files it keeps *)

Section retriever_more.

Variable opts_date opts_ddir : string.
Variable iget : string → string → os.fs → Status * os.fs.
Variable read_tgz : string → option tar.stream.

Local Abbreviation download := (downloadDicom opts_date opts_ddir iget read_tgz).

(** [downloadDicom] after the local path is resolved and its directory made. *)
Lemma downloadDicom_resolved path loc w m1 st m2 :
  resolved opts_date opts_ddir path loc w (None, m1) →
  iget path loc m1 = (st, m2) →
  download path w =
  let w2 := fetched_world path loc w m2 in
  if negb (Exit st =? 0) then (Return "" (ErrCmd <$> Error st), w2) else
  if isZipFile loc then (Return loc None, w2) else
  if isImaFile loc then
    (Return loc None,
     match makeDownloadCmd (filepath.Dir (filepath.Dir path)) (filepath.Dir loc) w2 with
     | (Some err, w') => log LWarn "cannot write command: " (Some err) w'
     | (None, w') => w'
     end)
  else
  match os.Open loc m2 with
  | inl err => (Return "" (Some err), w2)
  | inr f =>
      match f ≫= read_tgz with
      | None => (Return "" (Some ErrGzipHeader), w2)
      | Some (entries, e) =>
          let '(r, w') := downloadDicom_loop path loc (filepath.Dir loc) entries e w2 in
          (r, set_fs (os.Remove loc (w_fs w')) w')
      end
  end.
Proof.
  intros (rest & Hi & Hs & Hloc & Hmk) Hget. unfold downloadDicom, local_path in *.
  destruct (Z.ltb_spec (strings.Index path opts_date) 0) as [? | _]; [lia |].
  rewrite Hs. cbv zeta. rewrite <- Hloc, Hmk. cbn [w_fs set_fs log].
  rewrite Hget. done.
Qed.

Lemma downloadDicom_loop_panic path loc dir entries e w :
  fst (downloadDicom_loop path loc dir entries e w) = Panic →
  e = tar.Damaged ∧ Forall (λ h, tar.Typeflag h ≠ tar.TypeReg) entries.
Proof.
  induction entries as [|h entries IH]; simpl.
  - by destruct e.
  - destruct (decide (tar.Typeflag h = tar.TypeDir)) as [Hd|Hd].
    + intros [? ?]%IH. split; [done |]. constructor; [| done]. by rewrite Hd.
    + destruct (decide (tar.Typeflag h = tar.TypeReg)) as [Hr|Hr].
      * by destruct (copyReaderToPath _ _ _ _) as [[err|] w1].
      * intros [? ?]%IH. split; [done |]. by constructor.
Qed.

(** An occurrence found by [strings.Index] lies inside the string. *)
Lemma Index_upper s sub :
  0 ≤ strings.Index s sub → strings.Index s sub + len sub ≤ len s.
Proof.
  intros (pre & rest & -> & ->)%Index_found. unfold len.
  rewrite !string_app_length. lia.
Qed.

Lemma slice_from_None s i : 0 ≤ i → slice_from s i = None → len s < i.
Proof.
  unfold slice_from. intros Hi.
  destruct (Z.ltb_spec i 0); [lia |]. by destruct (Z.ltb_spec (len s) i).
Qed.

(** A damaged stream without a regular file makes the loop panic. *)
Lemma downloadDicom_loop_damaged path loc dir entries w :
  Forall (λ h, tar.Typeflag h ≠ tar.TypeReg) entries →
  fst (downloadDicom_loop path loc dir entries tar.Damaged w) = Panic.
Proof.
  induction 1 as [|h entries Hh _ IH]; simpl; [done |].
  destruct (decide (tar.Typeflag h = tar.TypeDir)); [done |].
  by rewrite decide_False.
Qed.

(** The out-of-range slice makes [downloadDicom] panic. *)
Lemma downloadDicom_slice path w :
  0 ≤ strings.Index path opts_date →
  len path < strings.Index path opts_date + 8 →
  download path w = (Panic, w).
Proof.
  intros Hi Hlen. unfold downloadDicom.
  destruct (Z.ltb_spec (strings.Index path opts_date) 0) as [? | _]; [lia |].
  unfold slice_from.
  destruct (Z.ltb_spec (strings.Index path opts_date + 8) 0); [lia |].
  destruct (Z.ltb_spec (len path) (strings.Index path opts_date + 8)); [done | lia].
Qed.

(** When [downloadDicom] panics. *)
Lemma downloadDicom_panic path w :
  fst (download path w) = Panic ↔
  (0 ≤ strings.Index path opts_date ∧ len path < strings.Index path opts_date + 8)
  ∨ ∃ loc m1 st m2 data perm entries,
      resolved opts_date opts_ddir path loc w (None, m1)
      ∧ iget path loc m1 = (st, m2) ∧ Exit st = 0
      ∧ isZipFile loc = false ∧ isImaFile loc = false
      ∧ m2 !! loc = Some (os.File data perm)
      ∧ read_tgz data = Some (entries, tar.Damaged)
      ∧ Forall (λ h, tar.Typeflag h ≠ tar.TypeReg) entries.
Proof.
  split.
  - intros Hp.
    destruct (Z.ltb_spec (strings.Index path opts_date) 0) as [Hneg | Hi].
    { revert Hp. unfold downloadDicom.
      by destruct (Z.ltb_spec (strings.Index path opts_date) 0); [| lia]. }
    destruct (slice_from path (strings.Index path opts_date + 8)) as [rest|] eqn:Hs.
    2: { left. split; [done |]. apply slice_from_None in Hs; lia. }
    right. remember (local_path opts_date opts_ddir rest) as loc eqn:Hloc.
    destruct (os.MkdirAll (filepath.Dir loc) (w_fs w)) as [[err|] m1] eqn:Hmk.
    { exfalso. revert Hp. unfold downloadDicom. unfold local_path in Hloc.
      destruct (Z.ltb_spec (strings.Index path opts_date) 0); [lia |].
      rewrite Hs. cbv zeta. by rewrite <- Hloc, Hmk. }
    assert (resolved opts_date opts_ddir path loc w (None, m1)) as Hres
      by (by exists rest).
    destruct (iget path loc m1) as [st m2] eqn:Hget.
    rewrite (downloadDicom_resolved _ _ _ _ _ _ Hres Hget) in Hp. cbv zeta in Hp.
    destruct (Exit st =? 0) eqn:Hex; [| done]. apply Z.eqb_eq in Hex.
    cbn [negb] in Hp.
    destruct (isZipFile loc) eqn:Hz; [done |].
    destruct (isImaFile loc) eqn:Him; [done |].
    unfold os.Open in Hp.
    destruct (m2 !! loc) as [[data perm|]|] eqn:Hl; [| done | done].
    cbn [mbind option_bind] in Hp.
    destruct (read_tgz data) as [[entries e]|] eqn:Hr; [| done].
    destruct (downloadDicom_loop _ _ _ _ _ _) as [r w'] eqn:Hloop.
    cbn [fst] in Hp. subst r.
    apply (f_equal fst) in Hloop. cbn [fst] in Hloop.
    apply downloadDicom_loop_panic in Hloop as [-> Hent].
    by exists loc, m1, st, m2, data, perm, entries.
  - intros [[Hi Hlen] | (loc & m1 & st & m2 & data & perm & entries & Hres & Hget
                         & Hex & Hz & Him & Hl & Hr & Hent)].
    + by rewrite downloadDicom_slice.
    + rewrite (downloadDicom_resolved _ _ _ _ _ _ Hres Hget). cbv zeta.
      rewrite Hex, Hz, Him. cbn [negb Z.eqb].
      unfold os.Open. rewrite Hl. cbn [mbind option_bind]. rewrite Hr.
      pose proof (downloadDicom_loop_damaged path loc (filepath.Dir loc) entries
                    (fetched_world path loc w m2) Hent) as Hloop.
      destruct (downloadDicom_loop _ _ _ _ _ _) as [r w']. by cbn [fst] in *.
Qed.

End retriever_more.

(** X8.  When the date string is found so near the end of the remote name that
    fewer than eight bytes follow its start, [downloadDicom] panics on the
    slice [path[i+8:]] before it has done anything. *)
Theorem downloadDicom_slice_panic (opts_date opts_ddir : string)
    (iget : string → string → os.fs → Status * os.fs)
    (read_tgz : string → option tar.stream) (path : string) (w : world) :
  0 ≤ strings.Index path opts_date →
  len path < strings.Index path opts_date + 8 →
  downloadDicom opts_date opts_ddir iget read_tgz path w = (Panic, w).
Proof.
  intros Hi Hlen. unfold downloadDicom.
  destruct (Z.ltb_spec (strings.Index path opts_date) 0) as [? | _]; [lia |].
  unfold slice_from.
  destruct (Z.ltb_spec (strings.Index path opts_date + 8) 0); [lia |].
  destruct (Z.ltb_spec (len path) (strings.Index path opts_date + 8)); [done | lia].
Qed.

(** X9.  [downloadDicom] panics in two cases, and in these only: the slice
    after the date is out of range; or the local path is resolved, its
    directory made, the object fetched by [iget] with status 0 to a path
    that is neither a zip nor an ".IMA" file, and the stream of the file
    that is then opened at that path breaks off, with an error other than
    the end of the archive, before a regular file is met.  With a date
    string of eight bytes the slice is always in range. *)
Theorem downloadDicom_panics_only (opts_date opts_ddir : string)
    (iget : string → string → os.fs → Status * os.fs)
    (read_tgz : string → option tar.stream) (path : string) (w : world) :
  (fst (downloadDicom opts_date opts_ddir iget read_tgz path w) = Panic ↔
   (0 ≤ strings.Index path opts_date
    ∧ len path < strings.Index path opts_date + 8)
   ∨ ∃ loc m1 st m2 data perm entries,
       resolved opts_date opts_ddir path loc w (None, m1)
       ∧ iget path loc m1 = (st, m2) ∧ Exit st = 0
       ∧ isZipFile loc = false ∧ isImaFile loc = false
       ∧ m2 !! loc = Some (os.File data perm)
       ∧ read_tgz data = Some (entries, tar.Damaged)
       ∧ Forall (λ h, tar.Typeflag h ≠ tar.TypeReg) entries)
  ∧ (len opts_date = 8 → 0 ≤ strings.Index path opts_date →
     strings.Index path opts_date + 8 ≤ len path).
Proof.
  split; [apply downloadDicom_panic |].
  intros Hlen Hi. rewrite <- Hlen. by apply Index_upper.
Qed.

(** X10.  When [iget] exits with a status other than 0, [downloadDicom] returns
    the empty path with the Go error of the command and does nothing more.
    When that error is nil (the command ran and exited by itself), the
    worker takes the call for a success and sends the empty path on
    chanDicoms. *)
Theorem transfer_failure (opts_date opts_ddir : string)
    (iget : string → string → os.fs → Status * os.fs)
    (read_tgz : string → option tar.stream)
    (path loc : string) (w : world) (m1 m2 : os.fs) (st : Status) :
  resolved opts_date opts_ddir path loc w (None, m1) →
  iget path loc m1 = (st, m2) →
  Exit st ≠ 0 →
  downloadDicom opts_date opts_ddir iget read_tgz path w =
    (Return "" (ErrCmd <$> Error st), fetched_world path loc w m2)
  ∧ retrieve_item opts_date opts_ddir iget read_tgz path w =
    match Error st with
    | Some msg =>
        Some ([], log LError "" (Some (ErrCmd msg)) (fetched_world path loc w m2))
    | None => Some ([""], fetched_world path loc w m2)
    end.
Proof.
  intros Hres Hget Hexit.
  assert (downloadDicom opts_date opts_ddir iget read_tgz path w =
          (Return "" (ErrCmd <$> Error st), fetched_world path loc w m2)) as Hd.
  { rewrite (downloadDicom_resolved _ _ _ _ _ _ _ _ _ _ Hres Hget). cbv zeta.
    destruct (Z.eqb_spec (Exit st) 0); [done | done]. }
  split; [done |]. unfold retrieve_item. rewrite Hd. by destruct (Error st).
Qed.

(** X11.  When the directory of the local path cannot be made, [downloadDicom]
    returns the cannot-create-dir error naming that directory and runs no
    command; the directories made before the failure stay. *)
Theorem mkdir_failure (opts_date opts_ddir : string)
    (iget : string → string → os.fs → Status * os.fs)
    (read_tgz : string → option tar.stream)
    (path loc : string) (w : world) (m1 : os.fs) (err : error) :
  resolved opts_date opts_ddir path loc w (Some err, m1) →
  downloadDicom opts_date opts_ddir iget read_tgz path w =
  (Return "" (Some (ErrCannotCreateDir (filepath.Dir loc))), set_fs m1 w).
Proof.
  intros (rest & Hi & Hs & Hloc & Hmk). unfold downloadDicom, local_path in *.
  destruct (Z.ltb_spec (strings.Index path opts_date) 0) as [? | _]; [lia |].
  rewrite Hs. cbv zeta. by rewrite <- Hloc, Hmk.
Qed.

(** X12.  A zip file and a single ".IMA" file are kept as they were fetched:
    [downloadDicom] returns the local path, and the file system is what
    [iget] left, but for the companion file cmd.sh that is written for an
    ".IMA" file; for a zip file nothing at all is written. *)
Theorem download_kept (opts_date opts_ddir : string)
    (iget : string → string → os.fs → Status * os.fs)
    (read_tgz : string → option tar.stream)
    (path loc : string) (w : world) (m1 m2 : os.fs) (st : Status) :
  resolved opts_date opts_ddir path loc w (None, m1) →
  iget path loc m1 = (st, m2) →
  Exit st = 0 →
  isZipFile loc = true ∨ isImaFile loc = true →
  let r := downloadDicom opts_date opts_ddir iget read_tgz path w in
  fst r = Return loc None
  ∧ w_fs (snd r) !! loc = m2 !! loc
  ∧ (∀ p, p ≠ cmd_sh (filepath.Dir loc) → w_fs (snd r) !! p = m2 !! p)
  ∧ (isZipFile loc = true → snd r = fetched_world path loc w m2).
Proof.
  intros Hres Hget Hexit Hkind r. unfold r.
  rewrite (downloadDicom_resolved _ _ _ _ _ _ _ _ _ _ Hres Hget). cbv zeta.
  rewrite Hexit. cbn [Z.eqb negb].
  destruct (isZipFile loc) eqn:Hzip; [done |].
  destruct Hkind as [? | Hima]; [done |]. rewrite Hima.
  assert (loc ≠ cmd_sh (filepath.Dir loc)) as Hne.
  { intros Heq. unfold isImaFile in Hima. apply bool_decide_eq_true in Hima.
    rewrite Heq, Ext_cmd_sh in Hima. discriminate. }
  assert (∀ p, p ≠ cmd_sh (filepath.Dir loc) →
            w_fs (match makeDownloadCmd (filepath.Dir (filepath.Dir path))
                          (filepath.Dir loc) (fetched_world path loc w m2) with
                  | (Some err, w') => log LWarn "cannot write command: " (Some err) w'
                  | (None, w') => w'
                  end) !! p = m2 !! p) as Hother.
  { intros p Hp.
    destruct (makeDownloadCmd _ _ _) as [[err|] w'] eqn:Hm;
      apply (makeDownloadCmd_other _ _ _ _ _ p) in Hm; done. }
  cbn [fst snd]. split; [done |]. split; [by apply Hother |]. done.
Qed.

(** ** The Archive Extractor: its two versions, and its edge cases *)

(** The two loops return the same and differ on the companion file only. *)
Lemma loops_agree path loc dir entries e w :
  fst (downloadDicom_loop path loc dir entries e w) =
  fst (Extract_loop loc dir entries e w)
  ∧ ∀ p, p ≠ cmd_sh dir →
      w_fs (snd (downloadDicom_loop path loc dir entries e w)) !! p =
      w_fs (snd (Extract_loop loc dir entries e w)) !! p.
Proof.
  induction entries as [|h entries IH]; simpl.
  - by destruct e.
  - destruct (decide (tar.Typeflag h = tar.TypeDir)); [done |].
    destruct (decide (tar.Typeflag h = tar.TypeReg)); [| done].
    destruct (copyReaderToPath _ _ _ _) as [[err|] w1]; [done |].
    cbn [fst snd]. split; [done |]. intros p Hp.
    destruct (makeDownloadCmd _ _ _) as [[err|] w2] eqn:Hm;
      apply (makeDownloadCmd_other _ _ _ _ _ p) in Hm; done.
Qed.

(** X13.  The extraction inside [downloadDicom] and [DicomExtractorTgz.Extract]
    agree: on the fetched archive they return the same path or error, and
    leave the same files but for the companion file cmd.sh, which only
    [downloadDicom] writes. *)
Theorem extraction_versions_agree (opts_date opts_ddir : string)
    (iget : string → string → os.fs → Status * os.fs)
    (read_tgz : string → option tar.stream)
    (path loc : string) (w : world) (m : os.fs) (data : string) (perm : Z) :
  fetched opts_date opts_ddir iget path loc w m →
  m !! loc = Some (os.File data perm) →
  let r := downloadDicom opts_date opts_ddir iget read_tgz path w in
  let r' := Extract read_tgz loc (fetched_world path loc w m) in
  fst r = fst r'
  ∧ ∀ p, p ≠ cmd_sh (filepath.Dir loc) → w_fs (snd r) !! p = w_fs (snd r') !! p.
Proof.
  intros Hfe Hf r r'. unfold r, r'.
  destruct (read_tgz data) as [[entries e]|] eqn:Hr.
  - rewrite (downloadDicom_fetched _ _ _ _ _ _ _ _ _ _ _ _ Hfe Hf Hr).
    rewrite (Extract_opened read_tgz loc (fetched_world path loc w m) data perm
               entries e Hf Hr).
    pose proof (loops_agree path loc (filepath.Dir loc) entries e
                  (fetched_world path loc w m)) as [Hfst Hfs].
    pose proof (downloadDicom_loop_is_file path loc (filepath.Dir loc) entries e
                  (fetched_world path loc w m) loc) as H1.
    pose proof (Extract_loop_is_file loc (filepath.Dir loc) entries e
                  (fetched_world path loc w m) loc) as H2.
    destruct (downloadDicom_loop _ _ _ _ _ _) as [r1 w1].
    destruct (Extract_loop _ _ _ _ _) as [r2 w2].
    cbn [fst snd set_fs w_fs] in *. split; [done |]. intros p Hp.
    rewrite !Remove_file by (apply H1 || apply H2; by eexists _, _).
    destruct (decide (p = loc)) as [->|Hne].
    + by rewrite !lookup_delete_eq.
    + rewrite !lookup_delete_ne by done. by apply Hfs.
  - destruct Hfe as (rest & m1 & st & Hi & Hs & Hloc & Hima & Hzip & Hmk & Hget & Hexit).
    assert (resolved opts_date opts_ddir path loc w (None, m1)) as Hres.
    { exists rest. unfold local_path. rewrite <- Hloc, Hima. done. }
    rewrite (downloadDicom_resolved _ _ _ _ _ _ _ _ _ _ Hres Hget). cbv zeta.
    rewrite Hexit, Hzip, Hima. cbn [Z.eqb negb].
    unfold Extract, os.Open. cbn [w_fs fetched_world]. rewrite Hf.
    cbn [mbind option_bind]. by rewrite Hr.
Qed.

Section extract_more.

Variable read_tgz : string → option tar.stream.

(** The entries before the first regular file are passed over. *)
Lemma Extract_loop_skip archive dir pre rest e w :
  Forall (λ h, tar.Typeflag h ≠ tar.TypeReg) pre →
  Extract_loop archive dir (pre ++ rest) e w = Extract_loop archive dir rest e w.
Proof.
  induction 1 as [|h pre Hh _ IH]; [done |]. simpl.
  destruct (decide (tar.Typeflag h = tar.TypeDir)); [done |].
  by rewrite decide_False.
Qed.

End extract_more.

(** X14.  When the archive cannot be opened or its gzip header cannot be read
    (no such file, a directory, not a gzip file), [Extract] returns an
    error and leaves everything as it was; the file is not removed. *)
Theorem extract_open_failure (read_tgz : string → option tar.stream)
    (archive : string) (w : world) :
  (∀ data perm, w_fs w !! archive = Some (os.File data perm) →
                read_tgz data = None) →
  ∃ err, Extract read_tgz archive w = (Return "" (Some err), w).
Proof.
  intros H. unfold Extract, os.Open.
  destruct (w_fs w !! archive) as [[data perm|]|] eqn:Hf; simpl; eauto.
  rewrite (H data perm eq_refl). eauto.
Qed.

(** X15.  [Extract] takes the first regular file of the archive whatever comes
    before it (directories, links, other entries) and after it: with the
    output path free, the file is created with the content of that entry
    and with the permission bits of its mode that the mask of the process
    leaves, the archive is removed and the path is returned. *)
Theorem extract_first_of_many (read_tgz : string → option tar.stream)
    (archive : string) (w : world) (data : string) (perm : Z)
    (pre post : list tar.entry) (A : tar.entry) (e : tar.ending) :
  w_fs w !! archive = Some (os.File data perm) →
  read_tgz data = Some (pre ++ A :: post, e) →
  Forall (λ h, tar.Typeflag h ≠ tar.TypeReg) pre →
  tar.Typeflag A = tar.TypeReg →
  tar.Broken A = false →
  let out := filepath.Join [filepath.Dir archive; filepath.Base (tar.Name A)] in
  w_fs w !! out = None → os.is_dir (w_fs w) (filepath.Dir out) = true →
  Extract read_tgz archive w =
  (Return out None,
   World (<[out := os.File (tar.Body A) (os.create_mode (os.FileMode (tar.Mode A)))]>
            (delete archive (w_fs w)))
         (w_cmds w)
         (Log LDebug ("DICOM file extracted: " +:+ out) None :: w_log w)).
Proof.
  intros Hf Hr Hpre HA Hb out Hout Hdir.
  rewrite (Extract_opened _ _ _ _ _ _ _ Hf Hr), Extract_loop_skip by done.
  cbn [Extract_loop]. assert (tar.TypeReg ≠ tar.TypeDir) as Hne by done.
  rewrite decide_False by congruence. rewrite decide_True by done.
  fold out. rewrite copyReaderToPath_fresh by done. cbn [fst snd set_fs w_fs log].
  assert (out ≠ archive) as Hoa by congruence.
  rewrite Remove_file.
  - by rewrite delete_insert_ne.
  - exists data, perm. by rewrite lookup_insert_ne.
Qed.

(** X16.  When the stream breaks inside the first regular file, [Extract]
    returns the read error and removes the archive, and the part of the
    file that was read stays behind at the output path. *)
Theorem extract_broken_copy (read_tgz : string → option tar.stream)
    (archive : string) (w : world) (data : string) (perm : Z)
    (pre post : list tar.entry) (A : tar.entry) (e : tar.ending) :
  w_fs w !! archive = Some (os.File data perm) →
  read_tgz data = Some (pre ++ A :: post, e) →
  Forall (λ h, tar.Typeflag h ≠ tar.TypeReg) pre →
  tar.Typeflag A = tar.TypeReg →
  tar.Broken A = true →
  let out := filepath.Join [filepath.Dir archive; filepath.Base (tar.Name A)] in
  w_fs w !! out = None → os.is_dir (w_fs w) (filepath.Dir out) = true →
  Extract read_tgz archive w =
  (Return "" (Some ErrRead),
   set_fs (<[out := os.File (tar.Body A) (os.create_mode (os.FileMode (tar.Mode A)))]>
             (delete archive (w_fs w))) w).
Proof.
  intros Hf Hr Hpre HA Hb out Hout Hdir.
  rewrite (Extract_opened _ _ _ _ _ _ _ Hf Hr), Extract_loop_skip by done.
  cbn [Extract_loop]. assert (tar.TypeReg ≠ tar.TypeDir) as Hne by done.
  rewrite decide_False by congruence. rewrite decide_True by done.
  fold out. unfold copyReaderToPath.
  destruct (OpenFile_write_fresh out (os.FileMode (tar.Mode A)) (tar.Body A) _ Hout Hdir)
    as (m' & -> & ->).
  rewrite Hb. cbn [fst snd set_fs w_fs].
  assert (out ≠ archive) as Hoa by congruence.
  rewrite Remove_file.
  - by rewrite delete_insert_ne.
  - exists data, perm. by rewrite lookup_insert_ne.
Qed.

(** X17.  When a file already exists at the output path and the user may
    read and write it, [Extract] writes over its beginning without
    truncating it: the bytes of the old file beyond the length of the
    extracted entry stay, and so does its permission.  When the user may
    not read and write it, [Extract] returns the permission error of
    [OpenFile] and the old file stays as it was.  The archive is removed in
    both cases. *)
Theorem extract_over_existing (read_tgz : string → option tar.stream)
    (archive : string) (w : world) (data : string) (perm : Z)
    (pre post : list tar.entry) (A : tar.entry) (e : tar.ending)
    (old : string) (operm : Z) :
  w_fs w !! archive = Some (os.File data perm) →
  read_tgz data = Some (pre ++ A :: post, e) →
  Forall (λ h, tar.Typeflag h ≠ tar.TypeReg) pre →
  tar.Typeflag A = tar.TypeReg →
  tar.Broken A = false →
  let out := filepath.Join [filepath.Dir archive; filepath.Base (tar.Name A)] in
  out ≠ archive →
  w_fs w !! out = Some (os.File old operm) →
  let r := Extract read_tgz archive w in
  (os.may_rdwr operm = true →
   fst r = Return out None
   ∧ w_fs (snd r) !! out =
     Some (os.File
             (tar.Body A +:+
                string_of (drop (String.length (tar.Body A)) (bytes_of old)))
             operm))
  ∧ (os.may_rdwr operm = false →
     fst r = Return "" (Some (ErrPath "open" out EACCES))
     ∧ w_fs (snd r) !! out = Some (os.File old operm))
  ∧ w_fs (snd r) !! archive = None.
Proof.
  intros Hf Hr Hpre HA Hb out Hoa Hout r. unfold r.
  rewrite (Extract_opened _ _ _ _ _ _ _ Hf Hr), Extract_loop_skip by done.
  cbn [Extract_loop]. assert (tar.TypeReg ≠ tar.TypeDir) as Hne by done.
  rewrite decide_False by congruence. rewrite decide_True by done.
  fold out. unfold copyReaderToPath, os.OpenFile, os.write. rewrite Hout.
  destruct (os.may_rdwr operm).
  - cbn [w_fs set_fs]. rewrite Hout, Hb.
    cbn [fst snd set_fs w_fs log].
    assert (is_file (<[out := os.File
                         (tar.Body A +:+
                            string_of (drop (String.length (tar.Body A)) (bytes_of old)))
                         operm]> (w_fs w)) archive) as Hfile.
    { exists data, perm. by rewrite lookup_insert_ne. }
    split; [| split; [done |]].
    + intros _. split; [done |]. rewrite Remove_file by done.
      rewrite lookup_delete_ne by done. apply lookup_insert_eq.
    + by apply Remove_lookup.
  - cbn [fst snd set_fs w_fs].
    assert (is_file (w_fs w) archive) as Hfile by (by exists data, perm).
    split; [done |]. split.
    + intros _. split; [done |]. rewrite Remove_file by done.
      by rewrite lookup_delete_ne.
    + by apply Remove_lookup.
Qed.

(** ** The helpers: file kinds, the companion file, the extractor interface *)

Lemma isImaFile_suffix l : isImaFile l = strings.HasSuffix l ".IMA".
Proof.
  unfold isImaFile, strings.HasSuffix, filepath.Ext.
  apply eq_true_iff_eq. rewrite bool_decide_eq_true. split.
  - intros H. apply (f_equal bytes_of) in H. rewrite bytes_of_string_of in H.
    destruct (Ext_loop_inv (rev (bytes_of l)) []) as (pre & r' & Hr & Heq).
    { by rewrite H. }
    rewrite H, app_nil_r in Heq. simpl in Heq.
    assert (pre = rev (bytes_of "IMA")) as ->.
    { rewrite <- (rev_involutive pre). f_equal. by simplify_eq. }
    rewrite Hr. done.
  - intros H. apply HasPrefix_inv in H as [r Hr].
    apply (f_equal bytes_of) in Hr.
    rewrite bytes_of_string_of, bytes_of_app in Hr. rewrite Hr. done.
Qed.

Lemma HasSuffix_exclusive l s1 s2 c1 c2 r1 r2 :
  string_of (rev (bytes_of s1)) = String c1 r1 →
  string_of (rev (bytes_of s2)) = String c2 r2 →
  c1 ≠ c2 →
  strings.HasSuffix l s1 = true → strings.HasSuffix l s2 = false.
Proof.
  unfold strings.HasSuffix. intros -> -> Hne H1.
  destruct (string_of (rev (bytes_of l))) as [|c r]; [done |].
  simpl in *. apply andb_prop in H1 as [Hc _]. apply Ascii.eqb_eq in Hc as ->.
  apply Ascii.eqb_neq in Hne. by rewrite Ascii.eqb_sym, Hne.
Qed.

(** X18.  The two tests on the kind of a file are tests on the end of the path:
    [isImaFile] holds exactly for the paths that end in ".IMA", and
    [isZipFile] for those that end in ".zip"; no path passes both. *)
Theorem file_kind_tests (path : string) :
  isImaFile path = strings.HasSuffix path ".IMA"
  ∧ isZipFile path = strings.HasSuffix path ".zip"
  ∧ isImaFile path && isZipFile path = false.
Proof.
  split; [apply isImaFile_suffix |]. split; [apply isZipFile_suffix |].
  rewrite isImaFile_suffix, isZipFile_suffix.
  destruct (strings.HasSuffix path ".IMA") eqn:H; [| done].
  by rewrite (HasSuffix_exclusive path ".IMA" ".zip" "A" "p" "MI." "iz." eq_refl eq_refl).
Qed.

(** X19.  Through the interface, only a path that ends in ".tar.gz" is opened
    and extracted; every other path is returned as it is, with nothing
    read, written or removed.  The zip extractor is chosen exactly for the
    paths that end in ".zip", and an ".IMA" file gets the extractor that
    ignores it. *)
Theorem extractor_dispatch (read_tgz : string → option tar.stream)
    (path : string) (w : world) :
  Extractor_Extract read_tgz (GetDicomExtractor path) path w =
    (if strings.HasSuffix path ".tar.gz" then Extract read_tgz path w
     else (Return path None, w))
  ∧ (GetDicomExtractor path = DicomExtractorZip ↔
     strings.HasSuffix path ".zip" = true)
  ∧ (isImaFile path = true → GetDicomExtractor path = DicomExtractorIgnore).
Proof.
  unfold GetDicomExtractor. split; [| split].
  - destruct (strings.HasSuffix path ".tar.gz"); [done |].
    by destruct (strings.HasSuffix path ".zip").
  - destruct (strings.HasSuffix path ".zip") eqn:Hz.
    + rewrite (HasSuffix_exclusive path ".zip" ".tar.gz" "p" "z" "iz." "g.rat."
                 eq_refl eq_refl) by done. done.
    + by destruct (strings.HasSuffix path ".tar.gz").
  - rewrite isImaFile_suffix. intros H.
    rewrite (HasSuffix_exclusive path ".IMA" ".tar.gz" "A" "z" "MI." "g.rat."
               eq_refl eq_refl) by done.
    by rewrite (HasSuffix_exclusive path ".IMA" ".zip" "A" "p" "MI." "iz."
                  eq_refl eq_refl).
Qed.




(** ** The worker pool: every run can be brought to its end *)

Section pool_progress.

Context {Item Res Store : Type}.
Variable work : Item → Store → option (list Res * Store).
Variable nworker cap_in cap_out : nat.
Hypothesis work_total : ∀ x σ, work x σ ≠ None.
Hypothesis cap_out_pos : (0 < cap_out)%nat.

Local Abbreviation step := (Pool.step work nworker cap_in cap_out).
Local Abbreviation run := (Pool.run work nworker cap_in cap_out).
Local Abbreviation inv := (@Pool.inv Item Res Store nworker).
Local Abbreviation ready := (@pool_ready Item Res Store nworker).

Lemma run_app sched1 sched2 (s : Pool.state) :
  run (sched1 ++ sched2) s =
  match run sched1 s with Some s1 => run sched2 s1 | None => None end.
Proof.
  revert s. induction sched1 as [|a sched1 IH]; intros s; simpl; [done |].
  by destruct (step a s).
Qed.

Lemma run_one a (s s' : Pool.state) : step a s = Some s' → run [a] s = Some s'.
Proof. intros H. simpl. by rewrite H. Qed.

Lemma no_empty_busy_step a (s s' : Pool.state) :
  step a s = Some s' →
  (∀ k, Pool.workers s !! k ≠ Some (Pool.Busy [])) →
  ∀ k, Pool.workers s' !! k ≠ Some (Pool.Busy []).
Proof.
  intros Hstep Hne. unfold Pool.step in Hstep.
  destruct (Pool.crashed s); [done |].
  destruct a as [x| |k|k|k| | |].
  - destruct (_ && _); by simplify_eq.
  - destruct (Pool.input_closed s); by simplify_eq.
  - destruct (Pool.workers s !! k) as [[| | |]|] eqn:Hk; try done.
    destruct (Pool.input s) as [|x rest].
    + destruct (Pool.input_closed s); simplify_eq. simpl. unfold Pool.set_worker.
      intros k'. rewrite (lookup_set_worker _ _ _ _ _ Hk). by case_decide.
    + destruct (work x (Pool.shared s)) as [[outs σ]|]; simplify_eq; [| done].
      simpl. unfold Pool.set_worker.
      intros k'. rewrite (lookup_set_worker _ _ _ _ _ Hk).
      case_decide; [by destruct outs | done].
  - destruct (Pool.workers s !! k) as [[|[|o rest]| |]|] eqn:Hk; try done.
    destruct (Pool.output_closed s); simplify_eq; [done |].
    case_bool_decide; simplify_eq. simpl. unfold Pool.set_worker.
    intros k'. rewrite (lookup_set_worker _ _ _ _ _ Hk).
    case_decide; [by destruct rest | done].
  - destruct (Pool.workers s !! k) as [[| | |]|] eqn:Hk; try done.
    destruct (_ && _); simplify_eq. simpl. unfold Pool.set_worker.
    intros k'. rewrite (lookup_set_worker _ _ _ _ _ Hk). by case_decide.
  - destruct (_ || _); by simplify_eq.
  - destruct (_ && _); by simplify_eq.
  - destruct (Pool.output s); by simplify_eq.
Qed.

Lemma input_closed_step a (s s' : Pool.state) :
  step a s = Some s' → Pool.input_closed s = true → Pool.input_closed s' = true.
Proof.
  intros Hstep Hc. unfold Pool.step in Hstep. rewrite ?Hc in Hstep.
  destruct (Pool.crashed s); [done |].
  destruct a as [x| |k|k|k| | |]; simpl in Hstep; try done.
  - destruct (Pool.workers s !! k) as [[| | |]|]; try done.
    destruct (Pool.input s); [by simplify_eq |].
    destruct (work _ _) as [[??]|]; by simplify_eq.
  - destruct (Pool.workers s !! k) as [[|[|o rest]| |]|]; try done.
    destruct (Pool.output_closed s); [by simplify_eq |].
    case_bool_decide; by simplify_eq.
  - destruct (Pool.workers s !! k) as [[| | |]|]; try done.
    destruct (_ && _); by simplify_eq.
  - destruct (_ || _); by simplify_eq.
  - destruct (_ && _); by simplify_eq.
  - destruct (Pool.output s); by simplify_eq.
Qed.

Lemma gone_step a (s s' : Pool.state) j :
  step a s = Some s' →
  Pool.workers s !! j = Some Pool.Gone → Pool.workers s' !! j = Some Pool.Gone.
Proof.
  intros Hstep Hj. unfold Pool.step in Hstep.
  destruct (Pool.crashed s); [done |].
  destruct a as [x| |k|k|k| | |].
  - destruct (_ && _); by simplify_eq.
  - destruct (Pool.input_closed s); by simplify_eq.
  - destruct (Pool.workers s !! k) as [[| | |]|] eqn:Hk; try done.
    destruct (Pool.input s) as [|x rest].
    + destruct (Pool.input_closed s); simplify_eq. simpl. unfold Pool.set_worker.
      rewrite (lookup_set_worker _ _ _ _ _ Hk). case_decide; [congruence | done].
    + destruct (work x (Pool.shared s)) as [[outs σ]|]; simplify_eq; [| done].
      simpl. unfold Pool.set_worker.
      rewrite (lookup_set_worker _ _ _ _ _ Hk). case_decide; [congruence | done].
  - destruct (Pool.workers s !! k) as [[|[|o rest]| |]|] eqn:Hk; try done.
    destruct (Pool.output_closed s); simplify_eq; [done |].
    case_bool_decide; simplify_eq. simpl. unfold Pool.set_worker.
    rewrite (lookup_set_worker _ _ _ _ _ Hk). case_decide; [congruence | done].
  - destruct (Pool.workers s !! k) as [[| | |]|] eqn:Hk; try done.
    destruct (_ && _); simplify_eq. simpl. unfold Pool.set_worker.
    rewrite (lookup_set_worker _ _ _ _ _ Hk). by case_decide.
  - destruct (_ || _); by simplify_eq.
  - destruct (_ && _); by simplify_eq.
  - destruct (Pool.output s); by simplify_eq.
Qed.

Lemma ready_step a (s s' : Pool.state) : ready s → step a s = Some s' → ready s'.
Proof.
  intros (Hinv & Hcr & Hic & Hne) Hstep. split; [| split; [| split]].
  - by eapply inv_step.
  - by eapply step_no_crash.
  - by eapply input_closed_step.
  - by eapply no_empty_busy_step.
Qed.

Lemma ready_run sched (s s' : Pool.state) : ready s → run sched s = Some s' → ready s'.
Proof.
  revert s. induction sched as [|a sched IH]; intros s Hr; simpl.
  - by intros [= <-].
  - destruct (step a s) as [s1|] eqn:Hs; [| done]. apply IH. by eapply ready_step.
Qed.

Lemma gone_run sched (s s' : Pool.state) j :
  run sched s = Some s' →
  Pool.workers s !! j = Some Pool.Gone → Pool.workers s' !! j = Some Pool.Gone.
Proof.
  revert s. induction sched as [|a sched IH]; intros s; simpl.
  - by intros [= <-].
  - destruct (step a s) as [s1|] eqn:Hs; [| done].
    intros Hr Hj. apply (IH s1 Hr). by eapply gone_step.
Qed.

(** The reader can always empty the output channel. *)
Lemma drain_all (s : Pool.state) :
  Pool.crashed s = false →
  ∃ sched s',
    run sched s = Some s' ∧ Pool.output s' = []
    ∧ Pool.workers s' = Pool.workers s ∧ Pool.input s' = Pool.input s
    ∧ Pool.output_closed s' = Pool.output_closed s.
Proof.
  remember (Pool.output s) as out eqn:Ho. revert s Ho.
  induction out as [|o out IH]; intros s Ho Hcr.
  - by exists [], s.
  - destruct (IH (Pool.State (Pool.input s) (Pool.input_closed s) (Pool.workers s)
                    (Pool.shared s) (Pool.i s) (Pool.sync_closed s) out
                    (Pool.output_closed s) false (Pool.fed s) (Pool.taken s)
                    (Pool.sent s) (Pool.tokens s)) eq_refl eq_refl)
      as (sched & s' & Hrun & ? & ? & ? & ?).
    exists (Pool.Drain :: sched), s'. split; [| done].
    simpl. unfold Pool.step. by rewrite Hcr, <- Ho.
Qed.

Lemma ready_output_open (s : Pool.state) k ws :
  ready s → Pool.workers s !! k = Some ws → ws ≠ Pool.Gone →
  Pool.output_closed s = false ∧ Pool.sync_closed s = false
  ∧ (Pool.i s < nworker)%nat.
Proof.
  intros (Hinv & _) Hk Hws.
  assert (Pool.sync_closed s = false) as Hsc.
  { destruct (Pool.sync_closed s) eqn:Hsc; [| done].
    pose proof (inv_sync_all_gone nworker s Hinv Hsc) as Hg.
    eapply Forall_lookup_1 in Hg; [| exact Hk]. done. }
  split; [| split; [done |]].
  - destruct (Pool.output_closed s) eqn:Hoc; [| done].
    apply (Pool.inv_output _ s Hinv) in Hoc. congruence.
  - destruct Hinv as [Hw Htok Honce Hcount _ _ _ _ _ _].
    assert (k ∉ Pool.tokens s) as Hnk by (rewrite Htok; congruence).
    assert (k :: Pool.tokens s ⊆+ seq 0%nat nworker) as Hsub.
    { apply NoDup_submseteq; [by constructor |].
      intros x [-> | Hx]%elem_of_cons; apply elem_of_seq.
      - apply lookup_lt_Some in Hk. lia.
      - apply Htok, lookup_lt_Some in Hx. lia. }
    apply submseteq_length in Hsub. rewrite length_seq in Hsub. simpl in Hsub. lia.
Qed.

(** A worker in its loop body can send all it holds. *)
Lemma flush_worker k p (s : Pool.state) :
  ready s → Pool.workers s !! k = Some (Pool.Busy p) →
  ∃ sched s',
    run sched s = Some s' ∧ Pool.workers s' !! k = Some Pool.Idle
    ∧ Pool.input s' = Pool.input s.
Proof.
  remember (length p) as n eqn:Hn. revert p s Hn.
  induction n as [n IH] using lt_wf_ind. intros p s Hn Hr Hk.
  destruct p as [|o rest].
  { destruct Hr as (_ & _ & _ & Hne). by destruct (Hne k). }
  destruct (drain_all s) as (sched1 & s1 & Hrun1 & Hout1 & Hw1 & Hin1 & Hoc1).
  { apply Hr. }
  pose proof (ready_run _ _ _ Hr Hrun1) as Hr1.
  rewrite <- Hw1 in Hk.
  destruct (ready_output_open s1 k _ Hr1 Hk) as (Hoc & _ & _); [done |].
  set (s2 := Pool.State (Pool.input s1) (Pool.input_closed s1)
               (Pool.set_worker k (match rest with [] => Pool.Idle | _ => Pool.Busy rest end) s1)
               (Pool.shared s1) (Pool.i s1) (Pool.sync_closed s1) (Pool.output s1 ++ [o])
               false false (Pool.fed s1) (Pool.taken s1) (Pool.sent s1 ++ [o])
               (Pool.tokens s1)).
  assert (step (Pool.Send k) s1 = Some s2) as Hstep.
  { unfold Pool.step. pose proof Hr1 as (_ & -> & _). rewrite Hk, Hoc.
    rewrite bool_decide_eq_true_2 by (rewrite Hout1; simpl; lia). done. }
  pose proof (ready_step _ _ _ Hr1 Hstep) as Hr2.
  assert (Pool.workers s2 !! k =
          Some (match rest with [] => Pool.Idle | _ => Pool.Busy rest end)) as Hk2.
  { simpl. unfold Pool.set_worker. rewrite (lookup_set_worker _ _ _ _ _ Hk).
    by rewrite decide_True. }
  destruct rest as [|o' rest'].
  - exists (sched1 ++ [Pool.Send k]), s2.
    rewrite run_app, Hrun1. split; [by apply run_one |]. split; [done |].
    simpl. congruence.
  - destruct (IH (length (o' :: rest')) ltac:(simpl in *; lia) (o' :: rest') s2
                eq_refl Hr2 Hk2) as (sched3 & s3 & Hrun3 & Hk3 & Hin3).
    exists (sched1 ++ Pool.Send k :: sched3), s3.
    rewrite run_app, Hrun1. simpl. rewrite Hstep.
    split; [done |]. split; [done |]. rewrite Hin3. simpl. congruence.
Qed.

(** A worker at its receive can be taken to its end. *)
Lemma finish_idle k (s : Pool.state) :
  ready s → Pool.workers s !! k = Some Pool.Idle →
  ∃ sched s', run sched s = Some s' ∧ Pool.workers s' !! k = Some Pool.Gone.
Proof.
  remember (length (Pool.input s)) as n eqn:Hn. revert s Hn.
  induction n as [n IH] using lt_wf_ind. intros s Hn Hr Hk.
  pose proof Hr as (Hinv & Hcr & Hic & Hne).
  destruct (Pool.input s) as [|x rest] eqn:Hin.
  - (* the channel is closed and empty: break, send the token *)
    set (s1 := Pool.State [] true (Pool.set_worker k Pool.Leaving s) (Pool.shared s)
                 (Pool.i s) (Pool.sync_closed s) (Pool.output s) (Pool.output_closed s)
                 false (Pool.fed s) (Pool.taken s) (Pool.sent s) (Pool.tokens s)).
    assert (step (Pool.Receive k) s = Some s1) as Hstep1.
    { unfold Pool.step. by rewrite Hcr, Hk, Hin, Hic. }
    pose proof (ready_step _ _ _ Hr Hstep1) as Hr1.
    assert (Pool.workers s1 !! k = Some Pool.Leaving) as Hk1.
    { simpl. unfold Pool.set_worker. rewrite (lookup_set_worker _ _ _ _ _ Hk).
      by rewrite decide_True. }
    destruct (ready_output_open s1 k _ Hr1 Hk1) as (_ & Hsc & Hi); [done |].
    eexists [Pool.Receive k; Pool.Signal k], _. split.
    + simpl. rewrite Hstep1. unfold Pool.step at 1.
      pose proof Hr1 as (_ & -> & _). rewrite Hk1, Hsc.
      rewrite bool_decide_eq_true_2 by done. reflexivity.
    + simpl. unfold Pool.set_worker. rewrite (lookup_set_worker _ _ _ _ _ Hk1).
      by rewrite decide_True.
  - destruct (work x (Pool.shared s)) as [[outs σ]|] eqn:Hwork;
      [| by apply work_total in Hwork].
    set (s1 := Pool.State rest (Pool.input_closed s)
                 (Pool.set_worker k (match outs with [] => Pool.Idle | _ => Pool.Busy outs end) s)
                 σ (Pool.i s) (Pool.sync_closed s) (Pool.output s) (Pool.output_closed s)
                 false (Pool.fed s) (Pool.taken s ++ [(x, outs)]) (Pool.sent s)
                 (Pool.tokens s)).
    assert (step (Pool.Receive k) s = Some s1) as Hstep1.
    { unfold Pool.step. by rewrite Hcr, Hk, Hin, Hwork. }
    pose proof (ready_step _ _ _ Hr Hstep1) as Hr1.
    assert (Pool.workers s1 !! k =
            Some (match outs with [] => Pool.Idle | _ => Pool.Busy outs end)) as Hk1.
    { simpl. unfold Pool.set_worker. rewrite (lookup_set_worker _ _ _ _ _ Hk).
      by rewrite decide_True. }
    assert (∃ sched2 s2, run sched2 s1 = Some s2
                         ∧ Pool.workers s2 !! k = Some Pool.Idle
                         ∧ Pool.input s2 = rest) as (sched2 & s2 & Hrun2 & Hk2 & Hin2).
    { destruct outs as [|o outs'].
      - by exists [], s1.
      - by apply (flush_worker k (o :: outs')). }
    pose proof (ready_run _ _ _ Hr1 Hrun2) as Hr2.
    destruct (IH (length rest) ltac:(simpl in Hn; lia) s2 ltac:(by rewrite Hin2) Hr2 Hk2)
      as (sched3 & s3 & Hrun3 & Hk3).
    exists (Pool.Receive k :: sched2 ++ sched3), s3. split; [| done].
    simpl. rewrite Hstep1, run_app, Hrun2. done.
Qed.

(** Any worker can be taken to its end. *)
Lemma finish_worker k (s : Pool.state) :
  ready s → (k < nworker)%nat →
  ∃ sched s', run sched s = Some s' ∧ Pool.workers s' !! k = Some Pool.Gone.
Proof.
  intros Hr Hk.
  destruct (Pool.workers s !! k) as [ws|] eqn:Hws.
  2: { apply lookup_ge_None in Hws. destruct Hr as ([Hw _ _ _ _ _ _ _ _ _] & _). lia. }
  destruct ws as [|p| |].
  - by apply finish_idle.
  - destruct (flush_worker k p s Hr Hws) as (sched1 & s1 & Hrun1 & Hk1 & _).
    destruct (finish_idle k s1 (ready_run _ _ _ Hr Hrun1) Hk1)
      as (sched2 & s2 & Hrun2 & Hk2).
    exists (sched1 ++ sched2), s2. by rewrite run_app, Hrun1.
  - destruct (ready_output_open s k _ Hr Hws) as (_ & Hsc & Hi); [done |].
    eexists [Pool.Signal k], _. split.
    + simpl. unfold Pool.step at 1. pose proof Hr as (_ & -> & _).
      rewrite Hws, Hsc. rewrite bool_decide_eq_true_2 by done. reflexivity.
    + simpl. unfold Pool.set_worker. rewrite (lookup_set_worker _ _ _ _ _ Hws).
      by rewrite decide_True.
  - by exists [], s.
Qed.

(** All workers can be taken to their end, one after the other. *)
Lemma finish_workers n (s : Pool.state) :
  ready s → (n ≤ nworker)%nat →
  ∃ sched s', run sched s = Some s'
              ∧ ∀ k, (k < n)%nat → Pool.workers s' !! k = Some Pool.Gone.
Proof.
  intros Hr. induction n as [|n IH]; intros Hn.
  - exists [], s. split; [done |]. intros k Hk. lia.
  - destruct IH as (sched1 & s1 & Hrun1 & Hg1); [lia |].
    destruct (finish_worker n s1 (ready_run _ _ _ Hr Hrun1)) as (sched2 & s2 & Hrun2 & Hk2);
      [lia |].
    exists (sched1 ++ sched2), s2. rewrite run_app, Hrun1. split; [done |].
    intros k Hk. destruct (decide (k = n)) as [->|Hne]; [done |].
    apply (gone_run _ _ _ _ Hrun2). apply Hg1. lia.
Qed.

(** With every worker gone, the closer can close and the reader can drain. *)
Lemma finish_closer (s : Pool.state) :
  ready s → (∀ k, (k < nworker)%nat → Pool.workers s !! k = Some Pool.Gone) →
  ∃ sched s', run sched s = Some s'
              ∧ Pool.output_closed s' = true ∧ Pool.output s' = []
              ∧ Pool.workers s' = Pool.workers s.
Proof.
  intros Hr Hgone. pose proof Hr as (Hinv & Hcr & _).
  assert (Pool.i s = nworker) as Hi.
  { destruct Hinv as [Hw Htok Honce Hcount _ _ _ _ _ _].
    apply Nat.le_antisymm.
    - assert (Pool.tokens s ⊆+ seq 0%nat nworker) as Hsub.
      { apply NoDup_submseteq; [done |].
        intros x Hx. apply Htok, lookup_lt_Some in Hx. apply elem_of_seq. lia. }
      apply submseteq_length in Hsub. rewrite length_seq in Hsub. lia.
    - assert (seq 0%nat nworker ⊆+ Pool.tokens s) as Hsub.
      { apply NoDup_submseteq; [apply NoDup_seq |].
        intros x Hx%elem_of_seq. apply Htok, Hgone. lia. }
      apply submseteq_length in Hsub. rewrite length_seq in Hsub. lia. }
  (* close chanSync, unless it is closed *)
  assert (∃ sched1 s1, run sched1 s = Some s1 ∧ Pool.sync_closed s1 = true
                       ∧ Pool.workers s1 = Pool.workers s)
    as (sched1 & s1 & Hrun1 & Hsc1 & Hw1).
  { destruct (Pool.sync_closed s) eqn:Hsc; [by exists [], s |].
    eexists [Pool.CloseSync], _. split.
    - simpl. unfold Pool.step. rewrite Hcr, Hsc.
      rewrite bool_decide_eq_false_2 by lia. reflexivity.
    - done. }
  pose proof (ready_run _ _ _ Hr Hrun1) as Hr1.
  (* close the output channel, unless it is closed *)
  assert (∃ sched2 s2, run sched2 s1 = Some s2 ∧ Pool.output_closed s2 = true
                       ∧ Pool.workers s2 = Pool.workers s1)
    as (sched2 & s2 & Hrun2 & Hoc2 & Hw2).
  { destruct (Pool.output_closed s1) eqn:Hoc; [by exists [], s1 |].
    eexists [Pool.CloseOutput], _. split.
    - simpl. unfold Pool.step. pose proof Hr1 as (_ & -> & _). rewrite Hsc1, Hoc.
      reflexivity.
    - done. }
  pose proof (ready_run _ _ _ Hr1 Hrun2) as Hr2.
  destruct (drain_all s2) as (sched3 & s3 & Hrun3 & Hout3 & Hw3 & _ & Hoc3);
    [apply Hr2 |].
  exists (sched1 ++ sched2 ++ sched3), s3.
  rewrite run_app, Hrun1, run_app, Hrun2. split; [done |].
  split; [congruence |]. split; [done | congruence].
Qed.

End pool_progress.

(** X6.  Every run of the pool can be continued to its end, whatever has
    happened so far: when no round of a worker panics and the output
    channel has room for one result, from every state that a schedule
    reaches there is a continuation (the feeder closes the input channel,
    the workers, the closer and the reader of the output channel take
    their steps) after which every worker has ended, the output channel is
    closed and the reader has received everything.  No reachable state is
    a deadlock. *)
Theorem pool_can_finish {Item Res Store : Type}
    (work : Item → Store → option (list Res * Store))
    (nworker cap_in cap_out : nat) (sched : list Pool.action) (σ : Store)
    (s : Pool.state) :
  (∀ x σ', work x σ' ≠ None) →
  (0 < cap_out)%nat →
  Pool.run work nworker cap_in cap_out sched (Pool.init nworker σ) = Some s →
  ∃ more s',
    Pool.run work nworker cap_in cap_out more s = Some s'
    ∧ Pool.output_closed s' = true
    ∧ Pool.output s' = []
    ∧ Forall (λ ws, ws = Pool.Gone) (Pool.workers s').
Proof.
  intros Htotal Hcap Hrun.
  pose proof (inv_run work nworker cap_in cap_out _ _ _ Hrun (inv_init nworker σ))
    as Hinv.
  assert (Pool.crashed s = false) as Hcr.
  { by eapply (run_no_crash work nworker cap_in cap_out sched _ s Htotal
                 (inv_init nworker σ)). }
  assert (∀ k, Pool.workers s !! k ≠ Some (Pool.Busy [])) as Hne.
  { clear Hinv Hcr. revert Hrun.
    assert (∀ k, Pool.workers (@Pool.init Item Res Store nworker σ) !! k
                 ≠ Some (Pool.Busy [])) as Hinit.
    { intros k H%lookup_replicate. by destruct H. }
    revert Hinit. generalize (@Pool.init Item Res Store nworker σ).
    induction sched as [|a sched IH]; intros s0 H0; simpl.
    - by intros [= <-].
    - destruct (Pool.step work nworker cap_in cap_out a s0) as [s1|] eqn:Hs; [| done].
      apply IH. by eapply no_empty_busy_step. }
  (* close the input channel, unless it is closed *)
  assert (∃ sched0 s0, Pool.run work nworker cap_in cap_out sched0 s = Some s0
                       ∧ pool_ready nworker s0) as (sched0 & s0 & Hrun0 & Hr0).
  { destruct (Pool.input_closed s) eqn:Hic; [by exists [], s |].
    eexists [Pool.CloseInput], _. split.
    - simpl. unfold Pool.step. rewrite Hcr, Hic. reflexivity.
    - split; [| by repeat split].
      eapply (inv_step work nworker cap_in cap_out Pool.CloseInput); [| exact Hinv].
      unfold Pool.step. rewrite Hcr, Hic. reflexivity. }
  destruct (finish_workers work nworker cap_in cap_out Htotal Hcap nworker s0 Hr0)
    as (sched1 & s1 & Hrun1 & Hg1); [done |].
  pose proof (ready_run work nworker cap_in cap_out Htotal _ _ _ Hr0 Hrun1) as Hr1.
  destruct (finish_closer work nworker cap_in cap_out Htotal Hcap s1 Hr1 Hg1)
    as (sched2 & s2 & Hrun2 & Hoc2 & Hout2 & Hw2).
  exists (sched0 ++ sched1 ++ sched2), s2.
  rewrite run_app, Hrun0, run_app, Hrun1. split; [done |]. split; [done |]. split; [done |].
  rewrite Hw2. apply Forall_lookup. intros k ws Hk.
  rewrite Hg1 in Hk; [congruence |].
  apply lookup_lt_Some in Hk. destruct Hr1 as ([Hw _ _ _ _ _ _ _ _ _] & _). lia.
Qed.

(** ** Examples: the further properties at sample inputs *)

Lemma dedup_first_wins_witness :
  Dedup.forwarded (Dedup.run sample_events) =
  keep_first [] (Dedup.stdout_lines sample_events).
Proof. apply (dedup_first_wins sample_events). reflexivity. Defined.

Lemma dedup_close_protocol_witness :
  Dedup.closed (Dedup.run sample_events_closed) = true
  ∧ ∀ more, Dedup.run (sample_events_closed ++ more) = Dedup.run sample_events_closed.
Proof.
  split; [reflexivity |].
  apply (dedup_close_protocol sample_events_closed). reflexivity.
Defined.

(** The work of the examples never panics: the date has eight bytes and
    the reader knows no damaged archive. *)
Lemma sample_work_total x w : sample_work x w ≠ None.
Proof.
  unfold sample_work, retrieve_item.
  destruct (downloadDicom _ _ _ _ x w) as [[p [err|]|] w'] eqn:Hd; [done | done |].
  apply (f_equal fst) in Hd. cbn [fst] in Hd.
  apply downloadDicom_panic in Hd
    as [[Hi Hlen] | (loc & m1 & st & m2 & data & perm & entries
                     & _ & _ & _ & _ & _ & _ & Hr & _)].
  - apply Index_upper in Hi. change (len "20240101") with 8 in Hi. lia.
  - unfold sample_read_sound, read_table in Hr.
    apply lookup_singleton_Some in Hr as [_ Hr]. discriminate.
Qed.

Lemma pool_no_send_on_closed_witness :
  match Pool.run sample_work MAX_DOWNLOAD_W (2 * MAX_DOWNLOAD_W) MAX_DOWNLOAD_W
          sample_schedule (Pool.init MAX_DOWNLOAD_W (World ∅ [] [])) with
  | Some s =>
      Pool.sync_closed s = true
      ∧ Forall (λ ws, ws = Pool.Gone) (Pool.workers s)
      ∧ Pool.crashed s = false
  | None => False
  end.
Proof.
  pose proof (pool_no_send_on_closed sample_work
                MAX_DOWNLOAD_W (2 * MAX_DOWNLOAD_W) MAX_DOWNLOAD_W
                sample_schedule (World ∅ [] [])) as H.
  destruct (Pool.run _ _ _ _ _ _) as [s|] eqn:Hrun.
  - assert (Pool.sync_closed s = true) as Hc.
    { apply (f_equal (λ o, match o with
                           | Some s => Pool.sync_closed s
                           | None => false end)) in Hrun.
      vm_compute in Hrun. symmetry. exact Hrun. }
    destruct (H s eq_refl) as [Hgone Hcr].
    split; [exact Hc |]. split; [exact (Hgone Hc) |].
    exact (Hcr sample_work_total).
  - vm_compute in Hrun. discriminate.
Defined.

Lemma pool_conservation_witness :
  match Pool.run sample_work MAX_DOWNLOAD_W (2 * MAX_DOWNLOAD_W) MAX_DOWNLOAD_W
          sample_schedule_part (Pool.init MAX_DOWNLOAD_W (World ∅ [] [])) with
  | Some s =>
      Pool.fed s = (fst <$> Pool.taken s) ++ Pool.input s
      ∧ Pool.sent s ++ Pool.pending_all (Pool.workers s)
        ≡ₚ concat (snd <$> Pool.taken s)
  | None => False
  end.
Proof.
  pose proof (pool_conservation sample_work
                MAX_DOWNLOAD_W (2 * MAX_DOWNLOAD_W) MAX_DOWNLOAD_W
                sample_schedule_part (World ∅ [] [])) as H.
  destruct (Pool.run _ _ _ _ _ _) as [s|] eqn:Hrun.
  - assert (Pool.crashed s = false) as Hc.
    { apply (f_equal (λ o, match o with
                           | Some s => Pool.crashed s
                           | None => true end)) in Hrun.
      vm_compute in Hrun. symmetry. exact Hrun. }
    destruct (H s eq_refl) as [Hfed Hres].
    split; [exact (Hfed Hc) | exact Hres].
  - vm_compute in Hrun. discriminate.
Defined.

Lemma pool_can_finish_witness :
  match Pool.run sample_work MAX_DOWNLOAD_W (2 * MAX_DOWNLOAD_W) MAX_DOWNLOAD_W
          sample_schedule_part (Pool.init MAX_DOWNLOAD_W (World ∅ [] [])) with
  | Some s =>
      ∃ more s',
        Pool.run sample_work MAX_DOWNLOAD_W (2 * MAX_DOWNLOAD_W) MAX_DOWNLOAD_W
          more s = Some s'
        ∧ Pool.output_closed s' = true
        ∧ Pool.output s' = []
        ∧ Forall (λ ws, ws = Pool.Gone) (Pool.workers s')
  | None => False
  end.
Proof.
  pose proof (pool_can_finish sample_work
                MAX_DOWNLOAD_W (2 * MAX_DOWNLOAD_W) MAX_DOWNLOAD_W
                sample_schedule_part (World ∅ [] [])) as H.
  destruct (Pool.run _ _ _ _ _ _) as [s|] eqn:Hrun.
  - apply (H s sample_work_total); [unfold MAX_DOWNLOAD_W; lia | reflexivity].
  - vm_compute in Hrun. discriminate.
Defined.

Lemma local_path_session_witness :
  ∃ es,
    Forall (λ e, real_elem e = true) es
    ∧ filepath.Join ["/data"; "20240101"; "/001-localizer/00001.IMA"] = abs_path es
    ∧ (isImaFile (abs_path es) = false →
       local_path "20240101" "/data" "/001-localizer/00001.IMA" = abs_path es)
    ∧ (isImaFile (abs_path es) = true →
       ∀ es' s f, es = es' ++ [s; f] →
         local_path "20240101" "/data" "/001-localizer/00001.IMA" = abs_path (es' ++ [f])
         ∧ filepath.Dir (local_path "20240101" "/data" "/001-localizer/00001.IMA") =
           abs_path es').
Proof.
  apply (local_path_session "20240101" "/data" "/001-localizer/00001.IMA").
  reflexivity.
Defined.

Lemma downloadDicom_slice_panic_witness :
  downloadDicom "2024" "/data" (sample_iget "tgz-three") sample_read_tgz
    "/raw/2024" (World ∅ [] []) = (Panic, World ∅ [] []).
Proof.
  apply (downloadDicom_slice_panic "2024" "/data" (sample_iget "tgz-three")
           sample_read_tgz "/raw/2024" (World ∅ [] []));
    vm_compute; [discriminate | reflexivity].
Defined.

(** The sample remote names are resolved to the sample paths. *)
Lemma sample_resolved :
  resolved "20240101" "/data" sample_remote sample_loc (World ∅ [] [])
    (None, (os.MkdirAll "/data/20240101/001-localizer" ∅).2).
Proof.
  exists "/001-localizer/a.tar.gz".
  repeat split; try reflexivity. vm_compute. discriminate.
Defined.

Lemma sample_resolved_zip :
  resolved "20240101" "/data" sample_remote_zip sample_loc_zip (World ∅ [] [])
    (None, (os.MkdirAll "/data/20240101" ∅).2).
Proof.
  exists "/all.zip".
  repeat split; try reflexivity. vm_compute. discriminate.
Defined.

Lemma sample_resolved_blocked :
  resolved "20240101" "/data" sample_remote sample_loc (World sample_fs_blocked [] [])
    (Some (ErrPath "mkdir" "/data" ENOTDIR), sample_fs_blocked).
Proof.
  exists "/001-localizer/a.tar.gz".
  repeat split; try reflexivity. vm_compute. discriminate.
Defined.

Lemma downloadDicom_panics_only_witness :
  fst (downloadDicom "20240101" "/data" (sample_iget "tgz-damaged") sample_read_tgz
         sample_remote (World ∅ [] [])) = Panic
  ∧ strings.Index sample_remote "20240101" + 8 ≤ len sample_remote.
Proof.
  split.
  - apply (proj1 (downloadDicom_panics_only "20240101" "/data"
                    (sample_iget "tgz-damaged") sample_read_tgz sample_remote
                    (World ∅ [] []))).
    right.
    exists sample_loc, (os.MkdirAll "/data/20240101/001-localizer" ∅).2,
      {| Exit := 0; Error := None |},
      (<[sample_loc := os.File "tgz-damaged" 420]>
         (os.MkdirAll "/data/20240101/001-localizer" ∅).2),
      "tgz-damaged", 420, [sample_dir].
    split; [exact sample_resolved |]. split; [reflexivity |].
    split; [reflexivity |]. split; [reflexivity |]. split; [reflexivity |].
    split; [apply lookup_insert_eq |]. split; [reflexivity |].
    repeat constructor; vm_compute; discriminate.
  - apply (downloadDicom_panics_only "20240101" "/data" (sample_iget "tgz-damaged")
             sample_read_tgz sample_remote (World ∅ [] []));
      [reflexivity | vm_compute; discriminate].
Defined.

Lemma transfer_failure_witness :
  downloadDicom "20240101" "/data" sample_iget_fail sample_read_tgz
    sample_remote (World ∅ [] []) =
    (Return "" None,
     fetched_world sample_remote sample_loc (World ∅ [] [])
       (os.MkdirAll "/data/20240101/001-localizer" ∅).2)
  ∧ retrieve_item "20240101" "/data" sample_iget_fail sample_read_tgz
      sample_remote (World ∅ [] []) =
    Some ([""],
          fetched_world sample_remote sample_loc (World ∅ [] [])
            (os.MkdirAll "/data/20240101/001-localizer" ∅).2).
Proof.
  apply (transfer_failure "20240101" "/data" sample_iget_fail sample_read_tgz
           sample_remote sample_loc (World ∅ [] []) _ _
           {| Exit := 1; Error := None |} sample_resolved);
    [reflexivity | discriminate].
Defined.

Lemma mkdir_failure_witness :
  downloadDicom "20240101" "/data" (sample_iget "tgz-three") sample_read_tgz
    sample_remote (World sample_fs_blocked [] []) =
  (Return "" (Some (ErrCannotCreateDir (filepath.Dir sample_loc))),
   set_fs sample_fs_blocked (World sample_fs_blocked [] [])).
Proof.
  apply (mkdir_failure "20240101" "/data" (sample_iget "tgz-three") sample_read_tgz
           sample_remote sample_loc (World sample_fs_blocked [] []) _ _
           sample_resolved_blocked).
Defined.

Lemma download_kept_witness :
  let r := downloadDicom "20240101" "/data" (sample_iget "PK-zip-data")
             sample_read_tgz sample_remote_zip (World ∅ [] []) in
  let m2 := <[sample_loc_zip := os.File "PK-zip-data" 420]>
              (os.MkdirAll "/data/20240101" ∅).2 in
  fst r = Return sample_loc_zip None
  ∧ w_fs (snd r) !! sample_loc_zip = m2 !! sample_loc_zip
  ∧ (∀ p, p ≠ cmd_sh (filepath.Dir sample_loc_zip) → w_fs (snd r) !! p = m2 !! p)
  ∧ (isZipFile sample_loc_zip = true →
     snd r = fetched_world sample_remote_zip sample_loc_zip (World ∅ [] []) m2).
Proof.
  apply (download_kept "20240101" "/data" (sample_iget "PK-zip-data")
           sample_read_tgz sample_remote_zip sample_loc_zip (World ∅ [] []) _ _
           {| Exit := 0; Error := None |} sample_resolved_zip);
    [reflexivity | reflexivity | left; reflexivity].
Defined.

Lemma extraction_versions_agree_witness :
  let r := downloadDicom "20240101" "/data" (sample_iget "tgz-three")
             sample_read_tgz sample_remote (World ∅ [] []) in
  let r' := Extract sample_read_tgz sample_loc
              (fetched_world sample_remote sample_loc (World ∅ [] [])
                 (<[sample_loc := os.File "tgz-three" 420]>
                    (os.MkdirAll "/data/20240101/001-localizer" ∅).2)) in
  fst r = fst r'
  ∧ ∀ p, p ≠ cmd_sh (filepath.Dir sample_loc) → w_fs (snd r) !! p = w_fs (snd r') !! p.
Proof.
  apply (extraction_versions_agree "20240101" "/data" (sample_iget "tgz-three")
           sample_read_tgz sample_remote sample_loc (World ∅ [] []) _
           "tgz-three" 420 (sample_fetched "tgz-three")).
  apply lookup_insert_eq.
Defined.

Lemma extract_open_failure_witness :
  ∃ err, Extract sample_read_more "/d/a.tar.gz" (sample_world "not-a-gzip-file") =
         (Return "" (Some err), sample_world "not-a-gzip-file").
Proof.
  apply (extract_open_failure sample_read_more "/d/a.tar.gz"
           (sample_world "not-a-gzip-file")).
  intros data perm H. vm_compute in H. injection H as <- _. reflexivity.
Defined.

Lemma extract_first_of_many_witness :
  Extract sample_read_more "/d/a.tar.gz" (sample_world "tgz-link") =
  (Return "/d/00001.IMA" None,
   World {[ "/d" := os.Directory;
            "/d/00001.IMA" := os.File "DICM-first-slice" 493 (* 0755 *) ]} []
     [Log LDebug "DICOM file extracted: /d/00001.IMA" None]).
Proof.
  rewrite (extract_first_of_many sample_read_more "/d/a.tar.gz"
             (sample_world "tgz-link") "tgz-link" 420
             [sample_dir; sample_link] [sample_B] sample_A_open tar.Damaged);
    try reflexivity.
  repeat constructor; vm_compute; discriminate.
Defined.

Lemma extract_broken_copy_witness :
  Extract sample_read_more "/d/a.tar.gz" (sample_world "tgz-broken") =
  (Return "" (Some ErrRead),
   World {[ "/d" := os.Directory;
            "/d/00001.IMA" := os.File "DICM-fir" 420 ]} [] []).
Proof.
  rewrite (extract_broken_copy sample_read_more "/d/a.tar.gz"
             (sample_world "tgz-broken") "tgz-broken" 420
             [sample_dir] [sample_B] sample_A_broken tar.EOF);
    try reflexivity.
  repeat constructor; vm_compute; discriminate.
Defined.

Lemma extract_over_existing_witness :
  (fst (Extract sample_read_more "/d/a.tar.gz" (sample_world_stale "tgz-link")) =
     Return "/d/00001.IMA" None
   ∧ w_fs (snd (Extract sample_read_more "/d/a.tar.gz" (sample_world_stale "tgz-link")))
       !! "/d/00001.IMA" =
     Some (os.File "DICM-first-slice-IS-LONGER" 384))
  ∧ (fst (Extract sample_read_more "/d/a.tar.gz" (sample_world_locked "tgz-link")) =
       Return "" (Some (ErrPath "open" "/d/00001.IMA" EACCES))
     ∧ w_fs (snd (Extract sample_read_more "/d/a.tar.gz" (sample_world_locked "tgz-link")))
         !! "/d/00001.IMA" =
       Some (os.File "OLD-CONTENT-THAT-IS-LONGER" 256)).
Proof.
  assert (Forall (λ h, tar.Typeflag h ≠ tar.TypeReg) [sample_dir; sample_link]) as Hpre.
  { repeat constructor; vm_compute; discriminate. }
  assert ("/d/00001.IMA" ≠ "/d/a.tar.gz") as Hne by discriminate.
  split.
  - apply (extract_over_existing sample_read_more "/d/a.tar.gz"
             (sample_world_stale "tgz-link") "tgz-link" 420
             [sample_dir; sample_link] [sample_B] sample_A_open tar.Damaged
             "OLD-CONTENT-THAT-IS-LONGER" 384 eq_refl eq_refl Hpre eq_refl eq_refl
             Hne eq_refl).
    reflexivity.
  - apply (extract_over_existing sample_read_more "/d/a.tar.gz"
             (sample_world_locked "tgz-link") "tgz-link" 420
             [sample_dir; sample_link] [sample_B] sample_A_open tar.Damaged
             "OLD-CONTENT-THAT-IS-LONGER" 256 eq_refl eq_refl Hpre eq_refl eq_refl
             Hne eq_refl).
    reflexivity.
Defined.

Lemma extractor_dispatch_witness :
  Extractor_Extract sample_read_more (GetDicomExtractor "/d/00001.IMA")
    "/d/00001.IMA" (sample_world "tgz-link") =
    (Return "/d/00001.IMA" None, sample_world "tgz-link")
  ∧ GetDicomExtractor "/d/00001.IMA" = DicomExtractorIgnore.
Proof.
  pose proof (extractor_dispatch sample_read_more "/d/00001.IMA"
                (sample_world "tgz-link")) as (H1 & _ & H3).
  split; [exact H1 | apply H3; reflexivity].
Defined.

